(** * Void editor: incremental block parser and chat thread service

    A shallow embedding of
      - the helper file around [SurroundingsRemover] (extractCodeFromRegular,
        extractCodeFromFIM, extractSearchReplaceBlocks), and
      - browser/chatThreadService.ts (thread store, stream state, agent loop),
    followed by the properties of the design document stated over it. *)

From Stdlib Require Import ZArith Lia Ascii String.
From stdpp Require Import base option list gmap strings pretty.

(* ===================================================================== *)
(** ** JavaScript strings *)
(* ===================================================================== *)

(** A JavaScript string is a finite sequence of UTF-16 code units; a code
    unit is kept as a number. *)
Module JS.

Abbreviation jsstring := (list N).

(** A string literal of the source, as code units. *)
Definition lit (s : string) : jsstring := map N_of_ascii (list_ascii_of_string s).

Definition newline : N := 10%N.

(** Clamping of an integer position into [0, len], as [substring] and
    [indexOf] do with their arguments. *)
Definition clamp (len : nat) (x : Z) : nat := Nat.min (Z.to_nat x) len.

(** [s.substring(a, b)]: both ends are clamped into [0, s.length] and
    swapped when [a > b]. *)
Definition substring (s : jsstring) (a b : Z) : jsstring :=
  let a' := clamp (length s) a in
  let b' := clamp (length s) b in
  take (Nat.max a' b' - Nat.min a' b') (drop (Nat.min a' b') s).

(** [s.substring(a, Infinity)]. *)
Definition substringToEnd (s : jsstring) (a : Z) : jsstring :=
  substring s a (Z.of_nat (length s)).

(** [s.charAt(k)]: [None] stands for the empty string returned out of range. *)
Definition charAt (s : jsstring) (k : Z) : option N :=
  if (k <? 0)%Z then None else s !! Z.to_nat k.

Definition charEq (a b : option N) : bool :=
  match a, b with
  | Some x, Some y => N.eqb x y
  | None, None => true
  | _, _ => false
  end.

(** Does [s] start with [pat]? *)
Fixpoint startsWith (pat s : jsstring) : bool :=
  match pat, s with
  | [], _ => true
  | _ :: _, [] => false
  | p :: pat', c :: s' => N.eqb p c && startsWith pat' s'
  end.

(** First position at or after [k] (the position of the head of [s]) where
    [pat] occurs. *)
Fixpoint findFrom (pat s : jsstring) (k : nat) : option nat :=
  if startsWith pat s then Some k
  else match s with
       | [] => None
       | _ :: s' => findFrom pat s' (S k)
       end.

(** [s.indexOf(pat, from)], with [-1] when there is no occurrence. *)
Definition indexOf (s pat : jsstring) (from : Z) : Z :=
  let f := clamp (length s) from in
  match findFrom pat (drop f s) f with
  | Some k => Z.of_nat k
  | None => (-1)%Z
  end.

(** [s.endsWith(suf)]. *)
Definition endsWith (s suf : jsstring) : bool :=
  (length suf <=? length s)%nat && startsWith suf (drop (length s - length suf) s).

End JS.

(* ===================================================================== *)
(** ** The incremental block parser *)
(* ===================================================================== *)

Module Parser.
Import JS.

(** class SurroundingsRemover: the live string is [originalS[i..j]]. *)
Record SurroundingsRemover := mkSR {
  originalS : jsstring;
  i : Z;
  j : Z
}.

(** constructor(s) *)
Definition new (s : jsstring) : SurroundingsRemover :=
  {| originalS := s; i := 0; j := Z.of_nat (length s) - 1 |}.

(** value() *)
Definition value (pm : SurroundingsRemover) : jsstring :=
  substring (originalS pm) (i pm) (j pm + 1).

Definition set_i (pm : SurroundingsRemover) (x : Z) : SurroundingsRemover :=
  {| originalS := originalS pm; i := x; j := j pm |}.

Definition set_j (pm : SurroundingsRemover) (x : Z) : SurroundingsRemover :=
  {| originalS := originalS pm; i := i pm; j := x |}.

(** The while loop of removePrefix; [rest] is [prefix] from [offset] on, so
    [rest = []] is [offset === prefix.length].  The boolean is the returned
    [offset === prefix.length]. *)
Fixpoint removePrefix_loop (rest : jsstring) (pm : SurroundingsRemover)
  : SurroundingsRemover * bool :=
  match rest with
  | [] => (pm, true)
  | c :: rest' =>
      if (i pm <=? j pm)%Z then
        if charEq (charAt (originalS pm) (i pm)) (Some c)
        then removePrefix_loop rest' (set_i pm (i pm + 1))
        else (pm, false)
      else (pm, false)
  end.

Definition removePrefix (prefix : jsstring) (pm : SurroundingsRemover)
  : SurroundingsRemover * bool :=
  removePrefix_loop prefix pm.

(** The for loop of removeSuffix, [len] counting down to 1. *)
Fixpoint removeSuffix_loop (s suffix : jsstring) (len : nat) (pm : SurroundingsRemover)
  : SurroundingsRemover * bool :=
  match len with
  | O => (pm, false)
  | S len' =>
      if endsWith s (substring suffix 0 (Z.of_nat len))
      then (set_j pm (j pm - Z.of_nat len), Nat.eqb len (length suffix))
      else removeSuffix_loop s suffix len' pm
  end.

Definition removeSuffix (suffix : jsstring) (pm : SurroundingsRemover)
  : SurroundingsRemover * bool :=
  let s := value pm in
  removeSuffix_loop s suffix (Nat.min (length s) (length suffix)) pm.

(** removeFromStartUntil; the result is [true] for the source's [true] and
    [false] for its [null]. *)
Definition removeFromStartUntil (until : jsstring) (alsoRemoveUntilStr : bool)
  (pm : SurroundingsRemover) : SurroundingsRemover * bool :=
  let index := indexOf (originalS pm) until (i pm) in
  if (index =? -1)%Z then (set_i pm (j pm + 1), false)
  else if alsoRemoveUntilStr
       then (set_i pm (index + Z.of_nat (length until)), true)
       else (set_i pm index, true).

Definition fence : jsstring := lit "```".

Definition removeCodeBlock (pm : SurroundingsRemover) : SurroundingsRemover * bool :=
  let '(pm, foundCodeBlock) := removePrefix fence pm in
  if negb foundCodeBlock then (pm, false)
  else
    let '(pm, _) := removeFromStartUntil [newline] true pm in
    let j0 := j pm in
    let '(pm, foundCodeBlockEnd) := removeSuffix fence pm in
    let '(pm, foundCodeBlockEnd) :=
      if (j pm =? j0)%Z then removeSuffix (fence ++ [newline]) pm
      else (pm, foundCodeBlockEnd) in
    if negb foundCodeBlockEnd then (pm, false)
    else
      let '(pm, _) := removeSuffix [newline] pm in
      (pm, true).

(** deltaInfo(recentlyAddedTextLen): [actualDelta, ignoredSuffix]. *)
Definition deltaInfo (recentlyAddedTextLen : Z) (pm : SurroundingsRemover)
  : jsstring * jsstring :=
  let recentlyAddedIdx := (Z.of_nat (length (originalS pm)) - recentlyAddedTextLen)%Z in
  let actualDelta :=
    substring (originalS pm) (Z.max (i pm) recentlyAddedIdx) (j pm + 1) in
  let ignoredSuffix :=
    substringToEnd (originalS pm) (Z.max (j pm + 1) recentlyAddedIdx) in
  (actualDelta, ignoredSuffix).

Definition extractCodeFromRegular (text : jsstring) (recentlyAddedTextLen : Z)
  : jsstring * jsstring * jsstring :=
  let pm := new text in
  let '(pm, _) := removeCodeBlock pm in
  let s := value pm in
  let '(delta, ignoredSuffix) := deltaInfo recentlyAddedTextLen pm in
  (s, delta, ignoredSuffix).

Definition extractCodeFromFIM (text : jsstring) (recentlyAddedTextLen : Z)
  (midTag : jsstring) : jsstring * jsstring * jsstring :=
  let pm := new text in
  let '(pm, _) := removeCodeBlock pm in
  let '(pm, foundMid) := removePrefix (lit "<" ++ midTag ++ lit ">") pm in
  let pm := if foundMid then fst (removeSuffix (lit "</" ++ midTag ++ lit ">") pm) else pm in
  let s := value pm in
  let '(delta, ignoredSuffix) := deltaInfo recentlyAddedTextLen pm in
  (s, delta, ignoredSuffix).

(** One operation on a [SurroundingsRemover], for statements about arbitrary
    sequences of calls. *)
Inductive Op :=
| OpRemovePrefix (prefix : jsstring)
| OpRemoveSuffix (suffix : jsstring)
| OpRemoveFromStartUntil (until : jsstring) (alsoRemoveUntilStr : bool)
| OpRemoveCodeBlock
| OpDeltaInfo (recentlyAddedTextLen : Z).

Definition runOp (o : Op) (pm : SurroundingsRemover) : SurroundingsRemover :=
  match o with
  | OpRemovePrefix p => fst (removePrefix p pm)
  | OpRemoveSuffix s => fst (removeSuffix s pm)
  | OpRemoveFromStartUntil u b => fst (removeFromStartUntil u b pm)
  | OpRemoveCodeBlock => fst (removeCodeBlock pm)
  | OpDeltaInfo _ => pm
  end.

Definition runOps (os : list Op) (pm : SurroundingsRemover) : SurroundingsRemover :=
  foldl (fun pm o => runOp o pm) pm os.

(** *** Search/replace blocks *)

Inductive BlockState := writingOriginal | writingFinal | done.

Record ExtractedSearchReplaceBlock := mkBlock {
  state : BlockState;
  orig : jsstring;
  final : jsstring
}.

(** endsWithAnyPrefixOf(str, anyPrefix); [k] counts down from
    [anyPrefix.length] to 0, [None] is the source's [null]. *)
Fixpoint endsWithAnyPrefixOf_loop (str anyPrefix : jsstring) (k : nat) : option jsstring :=
  let prefix := take k anyPrefix in
  if endsWith str prefix then Some prefix
  else match k with
       | O => None
       | S k' => endsWithAnyPrefixOf_loop str anyPrefix k'
       end.

Definition endsWithAnyPrefixOf (str anyPrefix : jsstring) : option jsstring :=
  endsWithAnyPrefixOf_loop str anyPrefix (length anyPrefix).

(** [isWriting?.length ?? 0] *)
Definition lengthOr0 (o : option jsstring) : Z :=
  match o with Some p => Z.of_nat (length p) | None => 0 end.

Section SearchReplace.
(** The three markers are imported from prompt/prompts.js. *)
Variables ORIGINAL DIVIDER FINAL : jsstring.

Definition ORIGINAL_ : jsstring := ORIGINAL ++ [newline].
Definition DIVIDER_ : jsstring := [newline] ++ DIVIDER ++ [newline].
Definition FINAL_ : jsstring := [newline] ++ FINAL.

(** The [while (true)] loop from search position [i0] on; the blocks
    pushed from there on are returned in order.  [None]: the iteration
    budget [n] ran out. *)
Fixpoint extract_loop (n : nat) (str : jsstring) (i0 : Z)
  : option (list ExtractedSearchReplaceBlock) :=
  match n with
  | O => None
  | S n' =>
      let origStart := indexOf str ORIGINAL_ i0 in
      if (origStart =? -1)%Z then Some []
      else
        let origStart := (origStart + Z.of_nat (length ORIGINAL_))%Z in
        let dividerStart := indexOf str DIVIDER_ origStart in
        if (dividerStart =? -1)%Z then
          let isWritingDIVIDER := endsWithAnyPrefixOf str DIVIDER_ in
          Some [ {| orig := substring str origStart
                              (Z.of_nat (length str) - lengthOr0 isWritingDIVIDER);
                    final := [];
                    state := writingOriginal |} ]
        else
          let origStrDone := substring str origStart dividerStart in
          let dividerStart := (dividerStart + Z.of_nat (length DIVIDER_))%Z in
          let finalStart := indexOf str FINAL_ dividerStart in
          if (finalStart =? -1)%Z then
            let isWritingFINAL := endsWithAnyPrefixOf str FINAL_ in
            Some [ {| orig := origStrDone;
                      final := substring str dividerStart
                                 (Z.of_nat (length str) - lengthOr0 isWritingFINAL);
                      state := writingFinal |} ]
          else
            let finalStrDone := substring str dividerStart finalStart in
            let finalStart := (finalStart + Z.of_nat (length FINAL_))%Z in
            match extract_loop n' str finalStart with
            | Some blocks =>
                Some ({| orig := origStrDone; final := finalStrDone; state := done |}
                      :: blocks)
            | None => None
            end
  end.

(** Every iteration that continues consumes at least one code unit, so
    [S (length str)] iterations are enough (see [extract_loop_total]). *)
Definition extractSearchReplaceBlocks (str : jsstring)
  : option (list ExtractedSearchReplaceBlock) :=
  extract_loop (S (length str)) str 0.
End SearchReplace.

(** The ordering writingOriginal < writingFinal < done. *)
Definition stateRank (s : BlockState) : nat :=
  match s with writingOriginal => 0 | writingFinal => 1 | done => 2 end.

(** The result [later] of a call continues the result [earlier] of a
    previous call: it is at least as long, no block has gone back to an
    earlier state, and a block that was done has kept its two texts. *)
Definition progresses (earlier later : list ExtractedSearchReplaceBlock) : Prop :=
  length earlier ≤ length later ∧
  ∀ k x y, earlier !! k = Some x → later !! k = Some y →
    stateRank (state x) ≤ stateRank (state y) ∧
    (state x = done → orig y = orig x ∧ final y = final x).

(** [v] is a contiguous part of [t]. *)
Definition contiguous (v t : jsstring) : Prop :=
  ∃ start len, start + len ≤ length t ∧ v = take len (drop start t).

(** Markers to run the search/replace scanner on. *)
Definition sample_ORIGINAL : jsstring := lit "<<<<<<< ORIGINAL".
Definition sample_DIVIDER : jsstring := lit "=======".
Definition sample_FINAL : jsstring := lit ">>>>>>> UPDATED".

(** A text that stops inside the divider of its first block, and more text
    that completes the divider and starts the replacement. *)
Definition sample_partial : jsstring :=
  sample_ORIGINAL ++ [newline] ++ lit "foo" ++ [newline] ++ lit "====".

Definition sample_more : jsstring :=
  lit "===" ++ [newline] ++ lit "ba".

(** The text of the design document's example: a fenced block with a
    language tag. *)
Definition sample_text : jsstring :=
  lit "```js" ++ [newline] ++ lit "hello" ++ [newline] ++ lit "```".

(** *** Notions used in the statements about the parser *)

(** The cursors delimit a window of the source: [0 <= i <= j + 1 <= length]. *)
Definition liveWindow (pm : SurroundingsRemover) : Prop :=
  (0 ≤ i pm ∧ i pm ≤ j pm + 1 ∧ j pm + 1 ≤ Z.of_nat (length (originalS pm)))%Z.

(** The source is [before ++ live ++ after], with [i] at the start of [live]
    and [j] at its last code unit. *)
Definition splits (pm : SurroundingsRemover) (before live after : jsstring) : Prop :=
  originalS pm = before ++ live ++ after ∧
  i pm = Z.of_nat (length before) ∧
  (j pm + 1)%Z = Z.of_nat (length before + length live).

(** The longest common prefix of two strings. *)
Fixpoint commonPrefix (a b : jsstring) : jsstring :=
  match a, b with
  | x :: a', y :: b' => if N.eqb x y then x :: commonPrefix a' b' else []
  | _, _ => []
  end.

(** The first occurrence of [pat] in [a ++ pat] is the one at the end:
    [pat] does not occur in [a], nor across the border. *)
Definition firstAtEnd (pat a : jsstring) : Prop :=
  findFrom pat (a ++ pat) 0 = Some (length a).

(** [pat] does not occur in [t]. *)
Definition absent (pat t : jsstring) : Prop := findFrom pat t 0 = None.

Section Written.
Variables ORIGINAL DIVIDER FINAL : jsstring.

(** A complete block as it is written in a text: the text in front of it,
    its original part and its final part. *)
Definition WrittenBlock : Type := jsstring * jsstring * jsstring.

Definition doneBlock (b : WrittenBlock) : ExtractedSearchReplaceBlock :=
  mkBlock done b.1.2 b.2.

(** The text made of the blocks [bs], each after its leading text, and
    then [rest]. *)
Fixpoint render (bs : list WrittenBlock) (rest : jsstring) : jsstring :=
  match bs with
  | [] => rest
  | b :: bs' =>
      b.1.1 ++ ORIGINAL_ ORIGINAL ++ b.1.2 ++ DIVIDER_ DIVIDER ++ b.2 ++ FINAL_ FINAL
        ++ render bs' rest
  end.

(** No marker occurs before its place. *)
Definition wellDelimited (b : WrittenBlock) : Prop :=
  firstAtEnd (ORIGINAL_ ORIGINAL) b.1.1 ∧
  firstAtEnd (DIVIDER_ DIVIDER) b.1.2 ∧
  firstAtEnd (FINAL_ FINAL) b.2.
End Written.

End Parser.


(* ===================================================================== *)
(** ** The chat thread service *)
(* ===================================================================== *)

Module Chat.

(** *** JavaScript objects used as maps

    An object with string keys, as the list of its properties in the order
    [for .. in] enumerates them.  Thread ids are millisecond time stamps
    in decimal, which are not array indices, so that this is the order of
    insertion.  [obj_set] is the spread [{...o, [k]: v}]. *)
Fixpoint obj_get {V} (o : list (string * V)) (k : string) : option V :=
  match o with
  | [] => None
  | (k', v) :: o' => if String.eqb k' k then Some v else obj_get o' k
  end.

Fixpoint obj_set {V} (o : list (string * V)) (k : string) (v : V) : list (string * V) :=
  match o with
  | [] => [(k, v)]
  | (k', v') :: o' =>
      if String.eqb k' k then (k', v) :: o' else (k', v') :: obj_set o' k v
  end.

(** [a.slice(0, k)] on an array. *)
Definition slice0 {V} (a : list V) (k : Z) : list V :=
  if (k <? 0)%Z then take (Z.to_nat (Z.of_nat (length a) + k)) a
  else take (Z.to_nat k) a.

(** [a[k]] on an array, for an integer [k]. *)
Definition arr_get {V} (a : list V) (k : Z) : option V :=
  if (k <? 0)%Z then None else a !! Z.to_nat k.

(** [s || d] on a nullable string: [null] and the empty string are falsy. *)
Definition strOr (s : option string) (d : string) : string :=
  match s with
  | Some x => if String.eqb x "" then d else x
  | None => d
  end.

(** [s || null] on a string. *)
Definition strOrNull (s : string) : option string :=
  if String.eqb s "" then None else Some s.

(** *** Data model *)

Definition URI := string.

Record IRange := mkRange {
  startLineNumber : Z; startColumn : Z; endLineNumber : Z; endColumn : Z
}.

Inductive StagingSelectionItem :=
| CodeSelection (fileURI : URI) (selectionStr : string) (range : IRange)
| FileSelection (fileURI : URI).

Module UserMessageState.
Record t := mk {
  stagingSelections : list StagingSelectionItem;
  isBeingEdited : bool
}.
End UserMessageState.

Definition defaultMessageState : UserMessageState.t :=
  {| UserMessageState.stagingSelections := [];
     UserMessageState.isBeingEdited := false |}.

Module ThreadState.
Record t := mk {
  stagingSelections : list StagingSelectionItem;
  focusedMessageIdx : option Z;
  isCheckedOfSelectionId : gmap string bool
}.
End ThreadState.

Definition defaultThreadState : ThreadState.t :=
  {| ThreadState.stagingSelections := [];
     ThreadState.focusedMessageIdx := None;
     ThreadState.isCheckedOfSelectionId := ∅ |}.

(** The two types that common/toolsService.js declares. *)
Record ToolSig := {
  ToolCallReturnType : Type;
  InternalToolInfo : Type
}.

Module Role.
Inductive t := system | user | assistant | tool.
End Role.

(** ChatMessage.  A [state] that older persisted data lacks is [None]. *)
Inductive ChatMessage {T : ToolSig} :=
| SystemMessage (content : string)
| UserMessage (content displayContent : option string)
    (selections : option (list StagingSelectionItem))
    (state : option UserMessageState.t)
| AssistantMessage (content displayContent : option string)
| ToolMessage (name params id content : string) (result : ToolCallReturnType T).
Arguments ChatMessage : clear implicits.

Definition role {T} (m : ChatMessage T) : Role.t :=
  match m with
  | SystemMessage _ => Role.system
  | UserMessage _ _ _ _ => Role.user
  | AssistantMessage _ _ => Role.assistant
  | ToolMessage _ _ _ _ _ => Role.tool
  end.

(** [m?.role === 'user'] *)
Definition isUser {T} (m : option (ChatMessage T)) : bool :=
  match role <$> m with
  | Some Role.user => true
  | _ => false
  end.

(** [m.role === 'user' && m.selections || []] *)
Definition selectionsOf {T} (m : ChatMessage T) : list StagingSelectionItem :=
  match m with
  | UserMessage _ _ (Some sel) _ => sel
  | _ => []
  end.

(** A date is kept as its time value in milliseconds; an ISO string of a
    date is represented by that time value. *)
Module Thread.
Record t {T : ToolSig} := mk {
  id : string;
  createdAt : Z;
  lastModified : Z;
  messages : list (ChatMessage T);
  state : option ThreadState.t
}.
Arguments t : clear implicits.
Arguments mk {T}.

Definition with_messages {T} (th : t T) (ms : list (ChatMessage T)) : t T :=
  {| id := id th; createdAt := createdAt th; lastModified := lastModified th;
     messages := ms; state := state th |}.

Definition with_lastModified {T} (th : t T) (d : Z) : t T :=
  {| id := id th; createdAt := createdAt th; lastModified := d;
     messages := messages th; state := state th |}.

Definition with_state {T} (th : t T) (s : option ThreadState.t) : t T :=
  {| id := id th; createdAt := createdAt th; lastModified := lastModified th;
     messages := messages th; state := s |}.
End Thread.

Abbreviation ChatThreads T := (list (string * Thread.t T)).

(** ThreadsState; [currentThreadId] is [None] while it is still [null]. *)
Record ThreadsState {T : ToolSig} := mkThreadsState {
  allThreads : ChatThreads T;
  currentThreadId : option string
}.
Arguments ThreadsState : clear implicits.
Arguments mkThreadsState {T}.

Record StreamError := mkStreamError {
  message : string;
  fullError : option string
}.

(** One entry of ThreadStreamState. *)
Module StreamEntry.
Record t := mk {
  error : option StreamError;
  messageSoFar : option string;
  streamingToken : option string
}.
Definition empty : t := {| error := None; messageSoFar := None; streamingToken := None |}.
End StreamEntry.

(** [Partial<..>] of an entry: a key that is present carries its value, which
    may be [undefined]. *)
Module PartialEntry.
Record t := mk {
  error : option (option StreamError);
  messageSoFar : option (option string);
  streamingToken : option (option string)
}.
End PartialEntry.

(** [{...old, ...p}] on one key. *)
Definition spread {V} (old : V) (p : option V) : V :=
  match p with Some v => v | None => old end.

Module ToolCall.
Record t := mk { name : string; params : string; id : string }.
End ToolCall.

Inductive LLMChatMessage :=
| LLMSystem (content : string)
| LLMUser (content : string)
| LLMAssistant (content : string)
| LLMTool (content name params id : string).

Definition toLLMChatMessage {T} (c : ChatMessage T) : LLMChatMessage :=
  match c with
  | SystemMessage content => LLMSystem (strOr (Some content) "(empty message)")
  | UserMessage content _ _ _ => LLMUser (strOr content "(empty message)")
  | AssistantMessage content _ => LLMAssistant (strOr content "(empty message)")
  | ToolMessage name params id content _ =>
      LLMTool (strOr (Some content) "(empty output)") name params id
  end.

Definition isLLMUser (m : LLMChatMessage) : bool :=
  match m with LLMUser _ => true | _ => false end.

(** findLastIndex, with [None] for [-1]; [k] is the index of the head. *)
Fixpoint findLastIndex_from {V} (cond : V → bool) (arr : list V) (k : nat) : option nat :=
  match arr with
  | [] => None
  | x :: arr' =>
      match findLastIndex_from cond arr' (S k) with
      | Some r => Some r
      | None => if cond x then Some k else None
      end
  end.

Definition findLastIndex {V} (arr : list V) (cond : V → bool) : option nat :=
  findLastIndex_from cond arr 0.

Module ChatMode.
Inductive t := agent | chat.
End ChatMode.

(** *** Collaborators *)

(** How a response of the transport ends: with onFinalMessage, with
    onError, or not yet. *)
Inductive LLMOutcome :=
| FinalMessage (fullText : string) (toolCalls : option (list ToolCall.t))
| LLMError (err : StreamError)
| StillStreaming.

(** [Rejected]: sendLLMMessage returns [null], after calling onError at once
    when [error] is given.  [Streamed]: it returns [token] and then calls
    onText with each of [fullTexts]; [outcome] is how the response ends. *)
Inductive LLMResponse :=
| Rejected (error : option StreamError)
| Streamed (token : string) (fullTexts : list string) (outcome : LLMOutcome).

(** Everything the service observes of its collaborators.  A collaborator
    that is consulted repeatedly answers by the number of the consultation. *)
Record Env {T : ToolSig} := mkEnv {
  clock : nat → Z;
  chat_userMessageContent : string → list StagingSelectionItem → string;
  chat_selectionsString :
    list StagingSelectionItem → list StagingSelectionItem → string;
  chat_userMessageContentWithAllFiles : string → string → string;
  chat_systemMessage : string;
  voidTools : list (InternalToolInfo T);
  sendLLMMessage :
    nat → list LLMChatMessage → option (list (InternalToolInfo T)) → LLMResponse;
  toolFns : nat → string → string → StreamError + ToolCallReturnType T;
  toolResultToString : string → ToolCallReturnType T → StreamError + string
}.
Arguments Env : clear implicits.
Arguments mkEnv {T}.

(** What the service does to the outside, in order. *)
Inductive Effect {T : ToolSig} :=
| FireDidChangeCurrentThread
| FireDidChangeStreamState (threadId : string)
| StoreThreads (threads : ChatThreads T)
| StoreVersion (version : string)
| SendLLM (messages : list LLMChatMessage) (tools : option (list (InternalToolInfo T)))
| AbortLLM (token : string)
| CallTool (name params : string).
Arguments Effect : clear implicits.

(** The service instance ([state], [streamState]) with the storage behind it;
    the stored JSON text is represented by the value it encodes. *)
Record Service {T : ToolSig} := mkService {
  state : ThreadsState T;
  streamState : gmap string StreamEntry.t;
  storedVersion : option string;
  storedThreads : option (ChatThreads T);
  effects : list (Effect T);
  clockReads : nat;
  llmSends : nat;
  toolRuns : nat
}.
Arguments Service : clear implicits.
Arguments mkService {T}.

(** *** Computations of the service

    A method runs on the service instance and either returns or throws; what
    it did before throwing stays done. *)

Inductive Exn :=
| TypeError
| EditNonUserError.

Inductive Result (A : Type) :=
| Ok (a : A)
| Throw (e : Exn).
Arguments Ok {A}.
Arguments Throw {A}.

Definition M (T : ToolSig) (A : Type) : Type := Service T → Result A * Service T.

Definition ret {T A} (a : A) : M T A := fun w => (Ok a, w).

Definition bind {T A B} (m : M T A) (k : A → M T B) : M T B :=
  fun w => match m w with
           | (Ok a, w') => k a w'
           | (Throw e, w') => (Throw e, w')
           end.

Definition throw {T A} (e : Exn) : M T A := fun w => (Throw e, w).

Definition get {T} : M T (Service T) := fun w => (Ok w, w).

Definition modify {T} (f : Service T → Service T) : M T unit := fun w => (Ok tt, f w).

(** [agentLoop()] as the last statement of addUserMessageAndStreamResponse:
    the loop is started and not awaited, so a rejection stays in the promise
    nobody looks at, and the caller does nothing after it.  The answers of
    the transport and of the tools are given by the environment, so the run
    of the loop is laid out here in one piece: the state after it is the one
    in which the loop has come to rest or the fuel has run out, which the
    source reaches after the call has returned. *)
Definition notAwaited {T A} (m : M T A) : M T unit :=
  fun w => (Ok tt, snd (m w)).

(** A call of an async function that its caller does not await and that
    the caller goes on after.  What the function does before its first
    [await] ([begin]) happens at once, in the caller; what it does from there
    on ([resume]) is the work left pending, which runs only after the caller
    has returned.  A throw before the first [await] rejects the promise nobody
    looks at: then nothing is left pending. *)
Definition started {T A} (begin : M T A) (resume : A → M T unit) : M T (M T unit) :=
  fun w => match begin w with
           | (Ok a, w') => (Ok (resume a), w')
           | (Throw _, w') => (Ok (ret tt), w')
           end.

(** [o.f] on a possibly undefined [o]. *)
Definition defined {T A} (o : option A) : M T A :=
  match o with Some a => ret a | None => throw TypeError end.

Notation "'let*' x ':=' m 'in' k" := (bind m (fun x => k))
  (at level 10, x name, m at level 100, k at level 200).
Notation "m '>>' k" := (bind m (fun _ => k))
  (at level 90, right associativity).

Definition set_state {T} (w : Service T) (s : ThreadsState T) : Service T :=
  mkService s (streamState w) (storedVersion w) (storedThreads w) (effects w)
            (clockReads w) (llmSends w) (toolRuns w).

Definition set_streamState {T} (w : Service T) (s : gmap string StreamEntry.t) : Service T :=
  mkService (state w) s (storedVersion w) (storedThreads w) (effects w)
            (clockReads w) (llmSends w) (toolRuns w).

Definition set_storedVersion {T} (w : Service T) (v : option string) : Service T :=
  mkService (state w) (streamState w) v (storedThreads w) (effects w)
            (clockReads w) (llmSends w) (toolRuns w).

Definition set_storedThreads {T} (w : Service T) (t : option (ChatThreads T)) : Service T :=
  mkService (state w) (streamState w) (storedVersion w) t (effects w)
            (clockReads w) (llmSends w) (toolRuns w).

Definition add_effect {T} (w : Service T) (e : Effect T) : Service T :=
  mkService (state w) (streamState w) (storedVersion w) (storedThreads w)
            (effects w ++ [e]) (clockReads w) (llmSends w) (toolRuns w).

Definition tick_clock {T} (w : Service T) : Service T :=
  mkService (state w) (streamState w) (storedVersion w) (storedThreads w)
            (effects w) (S (clockReads w)) (llmSends w) (toolRuns w).

Definition tick_llm {T} (w : Service T) : Service T :=
  mkService (state w) (streamState w) (storedVersion w) (storedThreads w)
            (effects w) (clockReads w) (S (llmSends w)) (toolRuns w).

Definition tick_tool {T} (w : Service T) : Service T :=
  mkService (state w) (streamState w) (storedVersion w) (storedThreads w)
            (effects w) (clockReads w) (llmSends w) (S (toolRuns w)).

Definition fire {T} (e : Effect T) : M T unit := modify (fun w => add_effect w e).

(** [new Date()], as its time value. *)
Definition newDate {T} (env : Env T) : M T Z :=
  fun w => (Ok (clock env (clockReads w)), tick_clock w).

Definition THREAD_VERSION_KEY : string := "void.chatThreadVersion".
Definition LATEST_THREAD_VERSION : string := "v2".
Definition THREAD_STORAGE_KEY : string := "void.chatThreadStorage".

Definition newThreadObject {T} (env : Env T) : M T (Thread.t T) :=
  let* now := newDate env in
  let* t := newDate env in
  ret {| Thread.id := pretty t;
         Thread.createdAt := now;
         Thread.lastModified := now;
         Thread.messages := [];
         Thread.state := Some defaultThreadState |}.

(** [_readAllThreads] *)
Definition _readAllThreads {T} : M T (ChatThreads T) :=
  let* w := get in
  ret (match storedThreads w with Some threads => threads | None => [] end).

(** The v1 -> v2 step on one message and on one thread. *)
Definition migrateMessage {T} (m : ChatMessage T) : ChatMessage T :=
  match m with
  | UserMessage c d sel None => UserMessage c d sel (Some defaultMessageState)
  | _ => m
  end.

Definition migrateThread {T} (th : Thread.t T) : Thread.t T :=
  let th := match Thread.state th with
            | None => Thread.with_state th (Some defaultThreadState)
            | Some _ => th
            end in
  Thread.with_messages th (map migrateMessage (Thread.messages th)).

(** [_updatedThreadsToVersion]; [None] is the source's [null]. *)
Definition _updatedThreadsToVersion {T} (oldThreadsObject : ChatThreads T)
  (oldVersion : option string) : option (ChatThreads T) :=
  match oldVersion with
  | None => None
  | Some v =>
      if String.eqb v "" then None
      else if String.eqb v "v1" then
        Some (map (fun kv => (fst kv, migrateThread (snd kv))) oldThreadsObject)
      else if String.eqb v "v2" then None
      else None
  end.

Definition _storeAllThreads {T} (threads : ChatThreads T) : M T unit :=
  modify (fun w => add_effect (set_storedThreads w (Some threads)) (StoreThreads threads)).

(** [Partial<ThreadsState>] *)
Record PartialThreadsState {T : ToolSig} := mkPartial {
  p_allThreads : option (ChatThreads T);
  p_currentThreadId : option (option string)
}.
Arguments PartialThreadsState : clear implicits.
Arguments mkPartial {T}.

Definition _setState {T} (p : PartialThreadsState T) (affectsCurrent : bool) : M T unit :=
  modify (fun w =>
    set_state w {| allThreads := spread (allThreads (state w)) (p_allThreads p);
                   currentThreadId := spread (currentThreadId (state w)) (p_currentThreadId p) |}) >>
  if affectsCurrent then fire FireDidChangeCurrentThread else ret tt.

(** [this.streamState[threadId]?.f] *)
Definition streamField {T A} (f : StreamEntry.t → option A) (threadId : string)
  (w : Service T) : option A :=
  match streamState w !! threadId with
  | Some e => f e
  | None => None
  end.

Definition _setStreamState {T} (threadId : string) (p : PartialEntry.t) : M T unit :=
  modify (fun w =>
    let old := default StreamEntry.empty (streamState w !! threadId) in
    set_streamState w
      (<[threadId :=
           {| StreamEntry.error := spread (StreamEntry.error old) (PartialEntry.error p);
              StreamEntry.messageSoFar :=
                spread (StreamEntry.messageSoFar old) (PartialEntry.messageSoFar p);
              StreamEntry.streamingToken :=
                spread (StreamEntry.streamingToken old) (PartialEntry.streamingToken p) |}]>
         (streamState w))) >>
  fire (FireDidChangeStreamState threadId).

(** [getCurrentThread], [None] for [undefined]. *)
Definition getCurrentThread {T} (w : Service T) : option (Thread.t T) :=
  match currentThreadId (state w) with
  | Some k => obj_get (allThreads (state w)) k
  | None => None
  end.

Definition _getAllSelections {T} : M T (list StagingSelectionItem) :=
  let* w := get in
  let* thread := defined (getCurrentThread w) in
  ret (flat_map selectionsOf (Thread.messages thread)).

Definition _getSelectionsUpToMessageIdx {T} (messageIdx : Z) : M T (list StagingSelectionItem) :=
  let* w := get in
  let* thread := defined (getCurrentThread w) in
  ret (flat_map selectionsOf (slice0 (Thread.messages thread) messageIdx)).

Definition _addMessageToThread {T} (env : Env T) (threadId : string)
  (message : ChatMessage T) : M T unit :=
  let* w := get in
  let allThreads := allThreads (state w) in
  let* oldThread := defined (obj_get allThreads threadId) in
  let* now := newDate env in
  let newThreads :=
    obj_set allThreads (Thread.id oldThread)
      (Thread.with_messages (Thread.with_lastModified oldThread now)
         (Thread.messages oldThread ++ [message])) in
  _storeAllThreads newThreads >>
  _setState (mkPartial (Some newThreads) None) true.

Definition _finishStreamingTextMessage {T} (env : Env T) (threadId : string)
  (content : string) (error : option StreamError) : M T unit :=
  _addMessageToThread env threadId (AssistantMessage (Some content) (strOrNull content)) >>
  _setStreamState threadId
    {| PartialEntry.messageSoFar := Some None;
       PartialEntry.streamingToken := Some None;
       PartialEntry.error := Some error |}.

Definition switchToThread {T} (threadId : string) : M T unit :=
  _setState (mkPartial None (Some (Some threadId))) true.

(** The first key of [threads], in enumeration order, whose thread has no
    message. *)
Fixpoint firstEmptyThread {T} (threads : ChatThreads T) : option string :=
  match threads with
  | [] => None
  | (threadId, th) :: rest =>
      if Nat.eqb (length (Thread.messages th)) 0 then Some threadId
      else firstEmptyThread rest
  end.

Definition openNewThread {T} (env : Env T) : M T unit :=
  let* w := get in
  let currentThreads := allThreads (state w) in
  match firstEmptyThread currentThreads with
  | Some threadId => switchToThread threadId
  | None =>
      let* newThread := newThreadObject env in
      let newThreads := obj_set currentThreads (Thread.id newThread) newThread in
      _storeAllThreads newThreads >>
      _setState (mkPartial (Some newThreads) (Some (Some (Thread.id newThread)))) true
  end.

Definition cancelStreaming {T} (env : Env T) (threadId : string) : M T unit :=
  let* w := get in
  (match streamField StreamEntry.streamingToken threadId w with
   | Some llmCancelToken => fire (AbortLLM llmCancelToken)
   | None => ret tt
   end) >>
  let* w := get in
  _finishStreamingTextMessage env threadId
    (default "" (streamField StreamEntry.messageSoFar threadId w)) None.

Definition dismissStreamError {T} (threadId : string) : M T unit :=
  _setStreamState threadId
    {| PartialEntry.error := Some None;
       PartialEntry.messageSoFar := None;
       PartialEntry.streamingToken := None |}.

(** *** The agent loop *)

(** How a run of the loop ends: it finished, it is suspended on a response
    that has not ended yet, or the iteration budget of the model ran out. *)
Inductive LoopEnd := Finished | Suspended | OutOfFuel.

(** The [for (const tool of toolCalls)] loop of onFinalMessage; the result
    is [shouldSendAnotherMessage] after the loop. *)
Fixpoint runToolCalls {T} (env : Env T) (threadId : string)
  (toolCalls : list ToolCall.t) (shouldSendAnotherMessage : bool) : M T bool :=
  match toolCalls with
  | [] => ret shouldSendAnotherMessage
  | tool :: rest =>
      let toolName := ToolCall.name tool in
      let* w := get in
      fire (CallTool toolName (ToolCall.params tool)) >>
      modify tick_tool >>
      match toolFns env (toolRuns w) toolName (ToolCall.params tool) with
      | inl error =>
          _setStreamState threadId
            {| PartialEntry.error := Some (Some error);
               PartialEntry.messageSoFar := None;
               PartialEntry.streamingToken := None |} >>
          ret false
      | inr toolResultVal =>
          match toolResultToString env toolName toolResultVal with
          | inl error =>
              _setStreamState threadId
                {| PartialEntry.error := Some (Some error);
                   PartialEntry.messageSoFar := None;
                   PartialEntry.streamingToken := None |} >>
              ret false
          | inr toolResultStr =>
              _addMessageToThread env threadId
                (ToolMessage toolName (ToolCall.params tool) (ToolCall.id tool)
                   toolResultStr toolResultVal) >>
              runToolCalls env threadId rest true
          end
      end
  end.

(** onFinalMessage; the result is [shouldSendAnotherMessage] when it calls
    [res_]. *)
Definition onFinalMessage {T} (env : Env T) (threadId : string)
  (fullText : string) (toolCalls : option (list ToolCall.t)) : M T bool :=
  match toolCalls with
  | None | Some [] =>
      _finishStreamingTextMessage env threadId fullText None >> ret false
  | Some calls =>
      _addMessageToThread env threadId (AssistantMessage (Some fullText) (Some fullText)) >>
      _setStreamState threadId
        {| PartialEntry.messageSoFar := Some None;
           PartialEntry.error := None;
           PartialEntry.streamingToken := None |} >>
      runToolCalls env threadId calls false
  end.

Definition onError {T} (env : Env T) (threadId : string) (error : StreamError) : M T unit :=
  let* w := get in
  _finishStreamingTextMessage env threadId
    (default "" (streamField StreamEntry.messageSoFar threadId w)) (Some error).

Fixpoint onTexts {T} (threadId : string) (fullTexts : list string) : M T unit :=
  match fullTexts with
  | [] => ret tt
  | fullText :: rest =>
      _setStreamState threadId
        {| PartialEntry.messageSoFar := Some (Some fullText);
           PartialEntry.error := None;
           PartialEntry.streamingToken := None |} >>
      onTexts threadId rest
  end.

(** The messages of one request: the history with the last user message
    replaced by the full content. *)
Definition requestMessages {T} (env : Env T) (userMessageFullContent : string)
  (history : list (ChatMessage T)) : list LLMChatMessage :=
  let messages_ := map toLLMChatMessage history in
  let messages :=
    match findLastIndex messages_ isLLMUser with
    | Some lastUserMsgIdx =>
        take lastUserMsgIdx messages_ ++ [LLMUser userMessageFullContent]
          ++ drop (S lastUserMsgIdx) messages_
    | None => messages_
    end in
  LLMSystem (chat_systemMessage env) :: messages.

(** The [while (shouldSendAnotherMessage)] loop, one iteration per unit of
    [fuel]. *)
Fixpoint agentLoop {T} (env : Env T) (threadId : string)
  (userMessageFullContent : string) (tools : option (list (InternalToolInfo T)))
  (fuel : nat) : M T LoopEnd :=
  match fuel with
  | O => ret OutOfFuel
  | S fuel' =>
      let* w := get in
      let* thread := defined (getCurrentThread w) in
      let messages := requestMessages env userMessageFullContent (Thread.messages thread) in
      fire (SendLLM messages tools) >>
      modify tick_llm >>
      match sendLLMMessage env (llmSends w) messages tools with
      | Rejected error =>
          match error with
          | Some error => onError env threadId error
          | None => ret tt
          end >>
          ret Finished
      | Streamed llmCancelToken fullTexts outcome =>
          _setStreamState threadId
            {| PartialEntry.streamingToken := Some (Some llmCancelToken);
               PartialEntry.error := None;
               PartialEntry.messageSoFar := None |} >>
          onTexts threadId fullTexts >>
          match outcome with
          | FinalMessage fullText toolCalls =>
              let* shouldSendAnotherMessage :=
                onFinalMessage env threadId fullText toolCalls in
              if shouldSendAnotherMessage
              then agentLoop env threadId userMessageFullContent tools fuel'
              else ret Finished
          | LLMError error => onError env threadId error >> ret Finished
          | StillStreaming => ret Suspended
          end
      end
  end.

Definition toolsOfMode {T} (env : Env T) (chatMode : ChatMode.t)
  : option (list (InternalToolInfo T)) :=
  match chatMode with
  | ChatMode.chat => None
  | ChatMode.agent => Some (voidTools env)
  end.

(** [chatSelections?: { prevSelns?, currSelns? }] *)
Record ChatSelections := mkChatSelections {
  prevSelns : option (list StagingSelectionItem);
  currSelns : option (list StagingSelectionItem)
}.

Definition addUserMessageAndStreamResponse {T} (env : Env T) (fuel : nat)
  (userMessage : string) (chatMode : ChatMode.t) (chatSelections : option ChatSelections)
  : M T unit :=
  let* w := get in
  let* thread := defined (getCurrentThread w) in
  let threadId := Thread.id thread in
  let* prevSelns :=
    match chatSelections with
    | Some {| prevSelns := Some p |} => ret p
    | _ => _getAllSelections
    end in
  let* currSelns :=
    match chatSelections with
    | Some {| currSelns := Some c |} => ret c
    | _ => let* st := defined (Thread.state thread) in
           ret (ThreadState.stagingSelections st)
    end in
  let instructions := userMessage in
  let userMessageContent := chat_userMessageContent env instructions currSelns in
  let selectionsStr := chat_selectionsString env prevSelns currSelns in
  let userMessageFullContent :=
    chat_userMessageContentWithAllFiles env userMessageContent selectionsStr in
  let userHistoryElt :=
    UserMessage (Some userMessageContent) (Some instructions) (Some currSelns)
      (Some defaultMessageState) in
  _addMessageToThread env threadId userHistoryElt >>
  _setStreamState threadId
    {| PartialEntry.error := Some None;
       PartialEntry.messageSoFar := None;
       PartialEntry.streamingToken := None |} >>
  notAwaited (agentLoop env threadId userMessageFullContent (toolsOfMode env chatMode) fuel).

(** addUserMessageAndStreamResponse up to its first [await]: the id of the
    current thread and the previous and current selections it goes on
    with. *)
Definition addUserMessageAndStreamResponse_begin {T}
  (chatSelections : option ChatSelections)
  : M T (string * list StagingSelectionItem * list StagingSelectionItem) :=
  let* w := get in
  let* thread := defined (getCurrentThread w) in
  let threadId := Thread.id thread in
  let* prevSelns :=
    match chatSelections with
    | Some {| prevSelns := Some p |} => ret p
    | _ => _getAllSelections
    end in
  let* currSelns :=
    match chatSelections with
    | Some {| currSelns := Some c |} => ret c
    | _ => let* st := defined (Thread.state thread) in
           ret (ThreadState.stagingSelections st)
    end in
  ret (threadId, prevSelns, currSelns).

(** addUserMessageAndStreamResponse from its first [await] on, with what it
    has computed before. *)
Definition addUserMessageAndStreamResponse_resume {T} (env : Env T) (fuel : nat)
  (userMessage : string) (chatMode : ChatMode.t)
  (threadId : string) (prevSelns currSelns : list StagingSelectionItem) : M T unit :=
  let instructions := userMessage in
  let userMessageContent := chat_userMessageContent env instructions currSelns in
  let selectionsStr := chat_selectionsString env prevSelns currSelns in
  let userMessageFullContent :=
    chat_userMessageContentWithAllFiles env userMessageContent selectionsStr in
  let userHistoryElt :=
    UserMessage (Some userMessageContent) (Some instructions) (Some currSelns)
      (Some defaultMessageState) in
  _addMessageToThread env threadId userHistoryElt >>
  _setStreamState threadId
    {| PartialEntry.error := Some None;
       PartialEntry.messageSoFar := None;
       PartialEntry.streamingToken := None |} >>
  notAwaited (agentLoop env threadId userMessageFullContent (toolsOfMode env chatMode) fuel).

(** editUserMessageAndStreamResponse.  The call of
    addUserMessageAndStreamResponse at its end is not awaited: the edit
    returns when that call has reached its first [await], before the message
    is added again.  The value returned here is the re-send left pending. *)
Definition editUserMessageAndStreamResponse {T} (env : Env T) (fuel : nat)
  (userMessage : string) (chatMode : ChatMode.t) (messageIdx : Z) : M T (M T unit) :=
  let* w := get in
  let* thread := defined (getCurrentThread w) in
  if negb (isUser (arr_get (Thread.messages thread) messageIdx))
  then throw EditNonUserError
  else
    let* prevSelns := _getSelectionsUpToMessageIdx messageIdx in
    let currSelns :=
      match arr_get (Thread.messages thread) messageIdx with
      | Some m => selectionsOf m
      | None => []
      end in
    let slicedMessages := slice0 (Thread.messages thread) messageIdx in
    let* w := get in
    _setState
      (mkPartial
         (Some (obj_set (allThreads (state w)) (Thread.id thread)
                  (Thread.with_messages thread slicedMessages)))
         None) true >>
    started
      (addUserMessageAndStreamResponse_begin
         (Some (mkChatSelections (Some prevSelns) (Some currSelns))))
      (fun b => addUserMessageAndStreamResponse_resume env fuel userMessage chatMode
                  b.1.1 b.1.2 b.2).

(** *** Start of the service *)

(** The instance before the constructor body runs, over a given storage. *)
Definition boot {T} (version : option string) (threads : option (ChatThreads T))
  : Service T :=
  {| state := {| allThreads := []; currentThreadId := None |};
     streamState := ∅;
     storedVersion := version;
     storedThreads := threads;
     effects := [];
     clockReads := 0;
     llmSends := 0;
     toolRuns := 0 |}.

Definition constructor {T} (env : Env T) : M T unit :=
  let* w := get in
  let oldVersionNum := storedVersion w in
  let* readThreads := _readAllThreads in
  let updatedThreads := _updatedThreadsToVersion readThreads oldVersionNum in
  (match updatedThreads with
   | Some threads => _storeAllThreads threads
   | None => ret tt
   end) >>
  let allThreads := default readThreads updatedThreads in
  modify (fun w => set_state w {| allThreads := allThreads; currentThreadId := None |}) >>
  openNewThread env >>
  modify (fun w =>
    add_effect (set_storedVersion w (Some LATEST_THREAD_VERSION))
               (StoreVersion LATEST_THREAD_VERSION)).

(** *** Notions used in the statements *)

(** The keys of an object are pairwise different. *)
Fixpoint keysUnique {V} (o : list (string * V)) : bool :=
  match o with
  | [] => true
  | (k, _) :: o' => negb (existsb (fun kv => String.eqb kv.1 k) o') && keysUnique o'
  end.

(** A thread map as the service builds it: an object whose threads carry
    their key as [id]. *)
Definition wellFormed {T} (threads : ChatThreads T) : bool :=
  keysUnique threads
  && forallb (fun kv => String.eqb (Thread.id kv.2) kv.1) threads.

(** The message at [messageIdx] of the current thread, if there is one. *)
Definition currentMessageAt {T} (w : Service T) (messageIdx : Z) : option (ChatMessage T) :=
  match getCurrentThread w with
  | Some thread => arr_get (Thread.messages thread) messageIdx
  | None => None
  end.

(** The messages of thread [threadId], if it exists. *)
Definition messagesOf {T} (w : Service T) (threadId : string) : option (list (ChatMessage T)) :=
  Thread.messages <$> obj_get (allThreads (state w)) threadId.

(** What one tool call gives at the [n]-th run of a tool: the error caught
    by either [try], or the display string with the typed result. *)
Definition toolOutcome {T} (env : Env T) (n : nat) (tool : ToolCall.t)
  : StreamError + (string * ToolCallReturnType T) :=
  match toolFns env n (ToolCall.name tool) (ToolCall.params tool) with
  | inl error => inl error
  | inr toolResultVal =>
      match toolResultToString env (ToolCall.name tool) toolResultVal with
      | inl error => inl error
      | inr toolResultStr => inr (toolResultStr, toolResultVal)
      end
  end.

(** The tool messages of the calls [calls], run from the [n]-th run on, when
    all of them succeed. *)
Fixpoint toolMessages {T} (env : Env T) (n : nat) (calls : list ToolCall.t)
  : option (list (ChatMessage T)) :=
  match calls with
  | [] => Some []
  | tool :: rest =>
      match toolOutcome env n tool with
      | inl _ => None
      | inr (toolResultStr, toolResultVal) =>
          match toolMessages env (S n) rest with
          | Some ms =>
              Some (ToolMessage (ToolCall.name tool) (ToolCall.params tool)
                      (ToolCall.id tool) toolResultStr toolResultVal :: ms)
          | None => None
          end
      end
  end.

(** The tool invocations among some effects, in order. *)
Definition toolCallsIn {T} (es : list (Effect T)) : list (string * string) :=
  omap (fun e => match e with CallTool name params => Some (name, params) | _ => None end) es.

Definition invocation (tool : ToolCall.t) : string * string :=
  (ToolCall.name tool, ToolCall.params tool).

(** The requests to the model among some effects. *)
Definition sendsIn {T} (es : list (Effect T)) : nat :=
  length (omap (fun e => match e with SendLLM _ _ => Some tt | _ => None end) es).

(** The aborts among some effects. *)
Definition abortsIn {T} (es : list (Effect T)) : list string :=
  omap (fun e => match e with AbortLLM token => Some token | _ => None end) es.

(** The thread map of the instance is well formed. *)
Definition wellFormedService {T} (w : Service T) : Prop :=
  wellFormed (allThreads (state w)) = true.

(** A computation keeps a property of the instance, whether it returns or
    throws. *)
Definition preserves {T A} (P : Service T → Prop) (m : M T A) : Prop :=
  ∀ w, P w → P (m w).2.

(** The instance after [_setStreamState threadId p]. *)
Definition afterSetStreamState {T} (threadId : string) (p : PartialEntry.t)
  (w : Service T) : Service T :=
  let old := default StreamEntry.empty (streamState w !! threadId) in
  add_effect
    (set_streamState w
       (<[threadId :=
            {| StreamEntry.error := spread (StreamEntry.error old) (PartialEntry.error p);
               StreamEntry.messageSoFar :=
                 spread (StreamEntry.messageSoFar old) (PartialEntry.messageSoFar p);
               StreamEntry.streamingToken :=
                 spread (StreamEntry.streamingToken old) (PartialEntry.streamingToken p) |}]>
          (streamState w)))
    (FireDidChangeStreamState threadId).

(** The thread map after [message] has been appended to [oldThread] at the
    time [now]. *)
Definition threadsWithMessage {T} (threads : ChatThreads T) (oldThread : Thread.t T)
  (now : Z) (message : ChatMessage T) : ChatThreads T :=
  obj_set threads (Thread.id oldThread)
    (Thread.with_messages (Thread.with_lastModified oldThread now)
       (Thread.messages oldThread ++ [message])).

(** The instance after [_addMessageToThread] has found [oldThread]. *)
Definition afterAddMessage {T} (env : Env T) (oldThread : Thread.t T)
  (message : ChatMessage T) (w : Service T) : Service T :=
  let newThreads :=
    threadsWithMessage (allThreads (state w)) oldThread (clock env (clockReads w)) message in
  mkService (mkThreadsState newThreads (currentThreadId (state w)))
    (streamState w) (storedVersion w) (Some newThreads)
    (effects w ++ [StoreThreads newThreads; FireDidChangeCurrentThread])
    (S (clockReads w)) (llmSends w) (toolRuns w).

(** The partial stream state [{ error }]. *)
Definition errorOnly (error : StreamError) : PartialEntry.t :=
  {| PartialEntry.error := Some (Some error);
     PartialEntry.messageSoFar := None;
     PartialEntry.streamingToken := None |}.

(** What a stretch of a turn did, seen from thread [threadId]: it appended
    the messages [added] to the thread, invoked the tools [invocations] in
    this order, sent no request to the model and did not switch threads. *)
Definition turnFrame {T} (threadId : string) (w w' : Service T)
  (added : list (ChatMessage T)) (invocations : list (string * string)) : Prop :=
  (∃ th th',
     obj_get (allThreads (state w)) threadId = Some th ∧
     obj_get (allThreads (state w')) threadId = Some th' ∧
     Thread.id th' = threadId ∧
     Thread.messages th' = Thread.messages th ++ added) ∧
  currentThreadId (state w') = currentThreadId (state w) ∧
  toolCallsIn (effects w') = toolCallsIn (effects w) ++ invocations ∧
  sendsIn (effects w') = sendsIn (effects w) ∧
  llmSends w' = llmSends w ∧
  toolRuns w' = toolRuns w + length invocations.

(** *** A small environment to run the service in *)

Definition sampleSig : ToolSig :=
  {| ToolCallReturnType := string; InternalToolInfo := string |}.

(** Time starts at 1000 and advances by one at each reading; the model
    answers the [n]-th request with [llm n]; the [n]-th tool run gives
    [tools n]; a result is displayed as it is, except the result "?" which
    cannot be displayed. *)
Definition sampleEnv (llm : nat → LLMResponse) (tools : nat → StreamError + string)
  : Env sampleSig :=
  mkEnv (T := sampleSig)
    (fun n => (1000 + Z.of_nat n)%Z)
    (fun instructions _ => instructions)
    (fun _ _ => "")
    (fun content files => content +:+ files)
    "You are a coding assistant."
    (["read_file"] : list string)
    (fun n _ _ => llm n)
    (fun n _ _ => tools n)
    (fun _ v =>
       if String.eqb v "?" then inl (mkStreamError "cannot display" None) else inr v).

(** A model that has streamed two pieces of text and has not finished. *)
Definition sampleStreamingEnv : Env sampleSig :=
  sampleEnv (fun _ => Streamed "tok" ["par"; "partial"] StillStreaming)
            (fun _ => inr "r").

(** The service started on an empty storage: one empty thread, "1001". *)
Definition sampleStarted : Service sampleSig :=
  (constructor sampleStreamingEnv (boot None None)).2.

(** The same service after the user has sent "hi", while the answer is
    streaming. *)
Definition sampleStreaming : Service sampleSig :=
  (addUserMessageAndStreamResponse sampleStreamingEnv 5 "hi" ChatMode.agent None
     sampleStarted).2.

(** A stored thread map: one thread with one message, last modified at
    time 5000. *)
Definition sampleStoredThread : Thread.t sampleSig :=
  Thread.mk "7" 4000%Z 5000%Z [AssistantMessage (Some "old") (Some "old")]
    (Some defaultThreadState).

Definition sampleStored : ChatThreads sampleSig := [("7", sampleStoredThread)].

(** The service started on that storage, written by the current version. *)
Definition sampleReloaded : Service sampleSig :=
  (constructor sampleStreamingEnv (boot (Some "v2") (Some sampleStored))).2.

(** A model that answers its first request with three tool calls, and
    tools of which the first gives "r0" and the second a result that cannot
    be displayed. *)
Definition sampleCalls : list ToolCall.t :=
  [ToolCall.mk "a" "p1" "i1"; ToolCall.mk "b" "p2" "i2"; ToolCall.mk "c" "p3" "i3"].

Definition sampleToolEnv : Env sampleSig :=
  sampleEnv (fun _ => Streamed "tok" ["x"] (FinalMessage "calling" (Some sampleCalls)))
            (fun n => match n with 0 => inr "r0" | 1 => inr "?" | _ => inr "r" end).

(** *** Notions used in the statements about turns *)

(** [m.role] is 'assistant' or 'tool'. *)
Definition assistantOrTool {T} (m : ChatMessage T) : bool :=
  match role m with
  | Role.assistant | Role.tool => true
  | _ => false
  end.

(** From [w] to [w'] the thread [threadId] has kept its identity and state
    and has got the messages [added] at its end, all of them assistant or
    tool messages; the other threads, the stream state of the other
    threads and the current thread are the same; and what was done to the
    outside before is still the beginning of what has been done. *)
Definition historyGrows {T} (threadId : string) (w w' : Service T)
  (added : list (ChatMessage T)) : Prop :=
  (∃ th th',
     obj_get (allThreads (state w)) threadId = Some th ∧
     obj_get (allThreads (state w')) threadId = Some th' ∧
     Thread.id th' = threadId ∧
     Thread.createdAt th' = Thread.createdAt th ∧
     Thread.state th' = Thread.state th ∧
     Thread.messages th' = Thread.messages th ++ added) ∧
  (∀ other, other ≠ threadId →
     obj_get (allThreads (state w')) other = obj_get (allThreads (state w)) other) ∧
  (∀ other, other ≠ threadId → streamState w' !! other = streamState w !! other) ∧
  currentThreadId (state w') = currentThreadId (state w) ∧
  effects w `prefix_of` effects w' ∧
  Forall (fun m => assistantOrTool m = true) added.

(** The user message that addUserMessageAndStreamResponse builds. *)
Definition userHistoryElt {T} (env : Env T) (userMessage : string)
  (currSelns : list StagingSelectionItem) : ChatMessage T :=
  UserMessage (Some (chat_userMessageContent env userMessage currSelns)) (Some userMessage)
    (Some currSelns) (Some defaultMessageState).

(** [chatSelections?.currSelns] and [chatSelections?.prevSelns]. *)
Definition givenCurrSelns (chatSelections : option ChatSelections)
  : option (list StagingSelectionItem) :=
  match chatSelections with Some cs => currSelns cs | None => None end.

Definition givenPrevSelns (chatSelections : option ChatSelections)
  : option (list StagingSelectionItem) :=
  match chatSelections with Some cs => prevSelns cs | None => None end.

(** The full content sent for the user message of a turn. *)
Definition fullContent {T} (env : Env T) (userMessage : string)
  (prevSelns currSelns : list StagingSelectionItem) : string :=
  chat_userMessageContentWithAllFiles env
    (chat_userMessageContent env userMessage currSelns)
    (chat_selectionsString env prevSelns currSelns).

(** The requests sent to the model among some effects, in order. *)
Definition requestsIn {T} (es : list (Effect T))
  : list (list LLMChatMessage * option (list (InternalToolInfo T))) :=
  omap (fun e => match e with SendLLM ms tools => Some (ms, tools) | _ => None end) es.

(** *** The invariant of the service and the focused message *)

(** What is stored is the thread map of the instance. *)
Definition persisted {T} (w : Service T) : Prop :=
  storedThreads w = Some (allThreads (state w)).

(** The current thread exists ("always be in a thread"). *)
Definition inAThread {T} (w : Service T) : Prop :=
  is_Some (getCurrentThread w).

(** The thread map is well formed and stored, and the current thread
    exists. *)
Definition serviceInvariant {T} (w : Service T) : Prop :=
  wellFormedService w ∧ persisted w ∧ inAThread w.

(** getFocusedMessageIdx; [None] is the source's [undefined]. *)
Definition getFocusedMessageIdx {T} : M T (option Z) :=
  let* w := get in
  let* thread := defined (getCurrentThread w) in
  let* threadState := defined (Thread.state thread) in
  match ThreadState.focusedMessageIdx threadState with
  | None => ret None
  | Some focusedMessageIdx =>
      let* focusedMessage := defined (arr_get (Thread.messages thread) focusedMessageIdx) in
      match focusedMessage with
      | UserMessage _ _ _ (Some _) => ret (Some focusedMessageIdx)
      | _ => ret None
      end
  end.

(** isFocusingMessage *)
Definition isFocusingMessage {T} : M T bool :=
  let* focusedMessageIdx := getFocusedMessageIdx (T := T) in
  ret (match focusedMessageIdx with Some _ => true | None => false end).

End Chat.

(* ===================================================================== *)
(** ** Properties of the string primitives *)
(* ===================================================================== *)

Module JSFacts.
Import JS.

Lemma startsWith_prefix (pat s : jsstring) :
  startsWith pat s = true ↔ pat `prefix_of` s.
Proof.
  revert s; induction pat as [|p pat IH]; intros s; simpl.
  - split; [intros _; apply prefix_nil | done].
  - destruct s as [|c s].
    + split; [done | intros H; by apply prefix_nil_inv in H].
    + rewrite andb_true_iff, N.eqb_eq, IH. split.
      * intros [-> H]. by apply prefix_cons.
      * intros H. split; [by apply prefix_cons_inv_1 in H | by apply prefix_cons_inv_2 in H].
Qed.

Lemma startsWith_length (pat s : jsstring) :
  startsWith pat s = true → length pat ≤ length s.
Proof. rewrite startsWith_prefix. apply prefix_length. Qed.

(** An occurrence that fits in [s] is an occurrence in [s ++ x], and back. *)
Lemma startsWith_drop_app (pat s x : jsstring) (k : nat) :
  k + length pat ≤ length s →
  startsWith pat (drop k (s ++ x)) = startsWith pat (drop k s).
Proof.
  intros Hk. rewrite drop_app_le by lia.
  apply eq_true_iff_eq. rewrite !startsWith_prefix.
  assert (Hl : length pat ≤ length (drop k s)) by (rewrite length_drop; lia).
  split.
  - intros [r Hr].
    assert (Ht : take (length pat) (drop k s ++ x) = pat)
      by (rewrite Hr; apply take_app_length).
    rewrite take_app_le in Ht by lia.
    exists (drop (length pat) (drop k s)). by rewrite <- Ht at 1; rewrite take_drop.
  - intros H. by apply prefix_app_r.
Qed.

Lemma findFrom_Some (pat s : jsstring) (k r : nat) :
  findFrom pat s k = Some r →
  ∃ m, r = k + m ∧ m ≤ length s ∧ startsWith pat (drop m s) = true
       ∧ ∀ m', m' < m → startsWith pat (drop m' s) = false.
Proof.
  revert k; induction s as [|c s IH]; intros k; simpl.
  - destruct (startsWith pat []) eqn:E; [|done].
    intros [= <-]. exists 0. split_and!; [lia | simpl; lia | done | intros; lia].
  - destruct (startsWith pat (c :: s)) eqn:E.
    + intros [= <-]. exists 0. split_and!; [lia | simpl; lia | done | intros; lia].
    + intros H. destruct (IH _ H) as (m & -> & Hm & Hs & Hmin).
      exists (S m). split_and!; [lia | simpl; lia | done |].
      intros [|m'] Hlt; [done | simpl; apply Hmin; lia].
Qed.

Lemma findFrom_None (pat s : jsstring) (k : nat) :
  findFrom pat s k = None → ∀ m, startsWith pat (drop m s) = false.
Proof.
  revert k; induction s as [|c s IH]; intros k; simpl.
  - destruct (startsWith pat []) eqn:E; [done|]. intros _ m. by rewrite drop_nil.
  - destruct (startsWith pat (c :: s)) eqn:E; [done|].
    intros H [|m]; [done | simpl; by eapply IH].
Qed.

Lemma findFrom_complete (pat s : jsstring) (k m : nat) :
  m ≤ length s → startsWith pat (drop m s) = true →
  (∀ m', m' < m → startsWith pat (drop m' s) = false) →
  findFrom pat s k = Some (k + m).
Proof.
  intros Hm Hs Hmin. destruct (findFrom pat s k) as [r|] eqn:E.
  - destruct (findFrom_Some _ _ _ _ E) as (m0 & -> & _ & Hs0 & Hmin0).
    f_equal. destruct (lt_eq_lt_dec m m0) as [[Hlt| ->]|Hlt]; [|done|].
    + rewrite (Hmin0 _ Hlt) in Hs. done.
    + rewrite (Hmin _ Hlt) in Hs0. done.
  - rewrite (findFrom_None _ _ _ E m) in Hs. done.
Qed.

(** What [indexOf] returns when it finds an occurrence. *)
Lemma indexOf_found (s pat : jsstring) (from k : Z) :
  indexOf s pat from = k → k ≠ (-1)%Z →
  ∃ n : nat, k = Z.of_nat n ∧ clamp (length s) from ≤ n
    ∧ n + length pat ≤ length s
    ∧ startsWith pat (drop n s) = true
    ∧ ∀ n', clamp (length s) from ≤ n' → n' < n → startsWith pat (drop n' s) = false.
Proof.
  unfold indexOf. intros H Hk.
  destruct (findFrom pat (drop (clamp (length s) from) s) (clamp (length s) from))
    as [r|] eqn:E; [|congruence].
  destruct (findFrom_Some _ _ _ _ E) as (m & -> & Hm & Hs & Hmin).
  rewrite length_drop in Hm. rewrite drop_drop in Hs.
  assert (Hc : clamp (length s) from ≤ length s) by (unfold clamp; lia).
  exists (clamp (length s) from + m). split_and!; [done | lia | | done |].
  - apply startsWith_length in Hs. rewrite length_drop in Hs. lia.
  - intros n' Hge Hlt. specialize (Hmin (n' - clamp (length s) from)).
    rewrite drop_drop in Hmin.
    replace (clamp (length s) from + (n' - clamp (length s) from)) with n' in Hmin by lia.
    apply Hmin. lia.
Qed.

Lemma indexOf_intro (s pat : jsstring) (from : Z) (n : nat) :
  clamp (length s) from ≤ n → n ≤ length s →
  startsWith pat (drop n s) = true →
  (∀ n', clamp (length s) from ≤ n' → n' < n → startsWith pat (drop n' s) = false) →
  indexOf s pat from = Z.of_nat n.
Proof.
  intros Hge Hle Hs Hmin. unfold indexOf.
  rewrite (findFrom_complete pat _ _ (n - clamp (length s) from)).
  - f_equal. lia.
  - rewrite length_drop. lia.
  - rewrite drop_drop. by replace (clamp (length s) from + (n - clamp (length s) from)) with n by lia.
  - intros m' Hm'. rewrite drop_drop. apply Hmin; lia.
Qed.

(** [indexOf] of a non-empty pattern does not change when text is appended,
    once it has found an occurrence. *)
Lemma indexOf_app (s x pat : jsstring) (from k : Z) :
  pat ≠ [] → indexOf s pat from = k → k ≠ (-1)%Z →
  indexOf (s ++ x) pat from = k.
Proof.
  intros Hpat H Hk.
  destruct (indexOf_found _ _ _ _ H Hk) as (n & -> & Hge & Hfit & Hs & Hmin).
  assert (Hlen : 0 < length pat) by (destruct pat; [done | simpl; lia]).
  assert (Hcl : clamp (length (s ++ x)) from = clamp (length s) from).
  { rewrite length_app. unfold clamp in *. lia. }
  apply indexOf_intro.
  - by rewrite Hcl.
  - rewrite length_app. lia.
  - by rewrite startsWith_drop_app.
  - intros n' Hge' Hlt. rewrite startsWith_drop_app by lia.
    apply Hmin; [by rewrite <- Hcl | done].
Qed.

Lemma substring_app (s x : jsstring) (a b : Z) :
  (a ≤ Z.of_nat (length s))%Z → (b ≤ Z.of_nat (length s))%Z →
  substring (s ++ x) a b = substring s a b.
Proof.
  intros Ha Hb. unfold substring.
  assert (Hca : clamp (length (s ++ x)) a = clamp (length s) a)
    by (rewrite length_app; unfold clamp; lia).
  assert (Hcb : clamp (length (s ++ x)) b = clamp (length s) b)
    by (rewrite length_app; unfold clamp; lia).
  rewrite Hca, Hcb.
  set (lo := Nat.min _ _). set (hi := Nat.max _ _).
  assert (hi ≤ length s) by (unfold hi, clamp; lia).
  assert (lo ≤ hi) by (unfold lo, hi; lia).
  rewrite drop_app_le by lia.
  rewrite take_app_le; [done|]. rewrite length_drop. lia.
Qed.

(** A [substring] is a contiguous part of its string. *)
Lemma substring_contiguous (s : jsstring) (a b : Z) :
  ∃ start len, start + len ≤ length s ∧ substring s a b = take len (drop start s).
Proof.
  unfold substring. eexists _, _. split; [|done]. unfold clamp. lia.
Qed.

End JSFacts.

(* ===================================================================== *)
(** ** Properties of the incremental block parser *)
(* ===================================================================== *)

Module ParserFacts.
Import JS JSFacts Parser.

Lemma progresses_nil later : progresses [] later.
Proof. split; [simpl; lia | intros k x y H; done]. Qed.

Lemma progresses_single x y rest :
  stateRank (state x) ≤ stateRank (state y) → state x ≠ done →
  progresses [x] (y :: rest).
Proof.
  intros Hr Hd. split; [simpl; lia|].
  intros [|k] x' y' Hx Hy; simpl in *; [|done].
  injection Hx as <-. injection Hy as <-. done.
Qed.

Lemma progresses_cons x r1 r2 :
  progresses r1 r2 → progresses (x :: r1) (x :: r2).
Proof.
  intros [Hl Hk]. split; [simpl; lia|].
  intros [|k] x' y' Hx Hy; simpl in *; [|by eapply Hk].
  injection Hx as <-. injection Hy as <-. done.
Qed.

(** *** The cursors of SurroundingsRemover *)

Ltac cursors := split_and?; first [done | lia].

Lemma removePrefix_loop_cursors rest pm :
  originalS (removePrefix_loop rest pm).1 = originalS pm ∧
  j (removePrefix_loop rest pm).1 = j pm ∧
  (i pm ≤ i (removePrefix_loop rest pm).1)%Z ∧
  (i (removePrefix_loop rest pm).1 ≤ Z.max (i pm) (j pm + 1))%Z.
Proof.
  revert pm; induction rest as [|c rest IH]; intros pm; simpl; [cursors|].
  destruct (Z.leb_spec (i pm) (j pm)); simpl; [|cursors].
  destruct (charEq _ _); simpl; [|cursors].
  destruct (IH (set_i pm (i pm + 1))) as (-> & -> & H1 & H2). simpl in *. cursors.
Qed.

Lemma removePrefix_loop_found rest pm :
  rest ≠ [] → (removePrefix_loop rest pm).2 = true → (i pm ≤ j pm)%Z.
Proof.
  destruct rest as [|c rest]; [done|]. intros _. simpl.
  destruct (Z.leb_spec (i pm) (j pm)); [done | simpl; done].
Qed.

Lemma removeSuffix_loop_cursors s suffix len pm :
  originalS (removeSuffix_loop s suffix len pm).1 = originalS pm ∧
  i (removeSuffix_loop s suffix len pm).1 = i pm ∧
  (j pm - Z.of_nat len ≤ j (removeSuffix_loop s suffix len pm).1 ≤ j pm)%Z.
Proof.
  induction len as [|len IH]; simpl; [cursors|].
  destruct (endsWith _ _); simpl; [cursors|].
  destruct IH as (-> & -> & ?). cursors.
Qed.

Lemma removeSuffix_cursors suffix pm :
  originalS (removeSuffix suffix pm).1 = originalS pm ∧
  i (removeSuffix suffix pm).1 = i pm ∧
  (j (removeSuffix suffix pm).1 ≤ j pm)%Z.
Proof.
  unfold removeSuffix.
  destruct (removeSuffix_loop_cursors (value pm) suffix
              (Nat.min (length (value pm)) (length suffix)) pm) as (? & ? & ?).
  split_and!; [done | done | lia].
Qed.

Lemma removeFromStartUntil_cursors until also pm :
  originalS (removeFromStartUntil until also pm).1 = originalS pm ∧
  j (removeFromStartUntil until also pm).1 = j pm ∧
  ((i pm ≤ j pm + 1)%Z → (j pm + 1 ≤ Z.of_nat (length (originalS pm)))%Z →
   (i pm ≤ i (removeFromStartUntil until also pm).1)%Z).
Proof.
  unfold removeFromStartUntil.
  destruct (Z.eqb_spec (indexOf (originalS pm) until (i pm)) (-1)) as [|Hf]; simpl.
  { split_and!; [done | done | lia]. }
  destruct (indexOf_found _ _ _ _ eq_refl Hf) as (n & E & Hge & _).
  assert (Hi : (i pm ≤ j pm + 1)%Z → (j pm + 1 ≤ Z.of_nat (length (originalS pm)))%Z →
               (i pm ≤ indexOf (originalS pm) until (i pm))%Z).
  { intros. rewrite E. unfold clamp in Hge. lia. }
  destruct also; simpl; (split_and!; [done | done | intros; specialize (Hi ltac:(done) ltac:(done)); lia]).
Qed.

Lemma removeCodeBlock_cursors pm :
  originalS (removeCodeBlock pm).1 = originalS pm ∧
  (j (removeCodeBlock pm).1 ≤ j pm)%Z ∧
  ((j pm + 1 ≤ Z.of_nat (length (originalS pm)))%Z → (i pm ≤ i (removeCodeBlock pm).1)%Z).
Proof.
  unfold removeCodeBlock, removePrefix.
  destruct (removePrefix_loop_cursors fence pm) as (Ho1 & Hj1 & Hi1 & Hi1').
  pose proof (removePrefix_loop_found fence pm ltac:(done)) as Hfound.
  destruct (removePrefix_loop fence pm) as [pm1 found]; cbn [fst snd] in *.
  destruct found; cbn [negb fst snd]; [|split_and!; [done | lia | done]].
  destruct (removeFromStartUntil_cursors [newline] true pm1) as (Ho2 & Hj2 & Hi2).
  destruct (removeFromStartUntil [newline] true pm1) as [pm2 ?]; cbn [fst snd] in *.
  destruct (removeSuffix_cursors fence pm2) as (Ho3 & Hi3 & Hj3).
  destruct (removeSuffix fence pm2) as [pm3 e3]; cbn [fst snd] in *.
  assert (∃ pm4 e4, (if (j pm3 =? j pm2)%Z then removeSuffix (fence ++ [newline]) pm3
                     else (pm3, e3)) = (pm4, e4)
                    ∧ originalS pm4 = originalS pm3 ∧ i pm4 = i pm3 ∧ (j pm4 ≤ j pm3)%Z)
    as (pm4 & e4 & -> & Ho4 & Hi4 & Hj4).
  { destruct (j pm3 =? j pm2)%Z.
    - destruct (removeSuffix_cursors (fence ++ [newline]) pm3) as (? & ? & ?).
      destruct (removeSuffix (fence ++ [newline]) pm3) as [pm4 e4]; cbn [fst snd] in *. eauto 10.
    - exists pm3, e3. split_and!; [done | done | done | lia]. }
  assert (Hmono : (j pm + 1 ≤ Z.of_nat (length (originalS pm)))%Z → (i pm ≤ i pm4)%Z).
  { intros Hlen. rewrite Hi4, Hi3. specialize (Hfound eq_refl).
    assert (i pm1 ≤ i pm2)%Z by (apply Hi2; rewrite ?Ho1; lia). lia. }
  destruct e4; cbn [negb fst snd].
  - destruct (removeSuffix_cursors [newline] pm4) as (Ho5 & Hi5 & Hj5).
    destruct (removeSuffix [newline] pm4) as [pm5 ?]; cbn [fst snd] in *.
    split_and!; [congruence | lia | intros; rewrite Hi5; auto].
  - split_and!; [congruence | lia | done].
Qed.

Lemma runOp_frame op pm :
  originalS (runOp op pm) = originalS pm ∧ (j (runOp op pm) ≤ j pm)%Z.
Proof.
  destruct op as [p | sfx | u b | | n]; simpl.
  - destruct (removePrefix_loop_cursors p pm) as (? & ? & _).
    unfold removePrefix. split; [done | lia].
  - destruct (removeSuffix_cursors sfx pm) as (? & ? & ?). done.
  - destruct (removeFromStartUntil_cursors u b pm) as (? & ? & _).
    split; [done | lia].
  - destruct (removeCodeBlock_cursors pm) as (? & ? & _). done.
  - split; [done | lia].
Qed.

Lemma runOps_frame ops pm :
  originalS (runOps ops pm) = originalS pm ∧ (j (runOps ops pm) ≤ j pm)%Z.
Proof.
  revert pm; induction ops as [|op ops IH]; intros pm; simpl; [split; [done | lia]|].
  destruct (IH (runOp op pm)) as [-> ?]. destruct (runOp_frame op pm) as [-> ?].
  split; [done | lia].
Qed.

(** From a state in which [j] is still inside the string, only a
    removeFromStartUntil that starts with [i > j + 1] can move [i] back. *)
Lemma runOp_i_mono op pm :
  (j pm + 1 ≤ Z.of_nat (length (originalS pm)))%Z →
  ((i pm ≤ j pm + 1)%Z ∨ (∀ u b, op ≠ OpRemoveFromStartUntil u b)) →
  (i pm ≤ i (runOp op pm))%Z.
Proof.
  intros Hj Hcase. destruct op as [p | sfx | u b | | n]; simpl.
  - destruct (removePrefix_loop_cursors p pm) as (_ & _ & ? & _). done.
  - destruct (removeSuffix_cursors sfx pm) as (_ & -> & _). lia.
  - destruct Hcase as [Hi | Hne]; [|by destruct (Hne u b)].
    destruct (removeFromStartUntil_cursors u b pm) as (_ & _ & H).
    auto.
  - destruct (removeCodeBlock_cursors pm) as (_ & _ & H). auto.
  - lia.
Qed.

Lemma value_contiguous pm : contiguous (value pm) (originalS pm).
Proof. apply substring_contiguous. Qed.

Lemma new_j_inside s : (j (new s) + 1 ≤ Z.of_nat (length (originalS (new s))))%Z.
Proof. simpl. lia. Qed.

Lemma extractCodeFromRegular_value text n :
  (extractCodeFromRegular text n).1.1 = value (removeCodeBlock (new text)).1.
Proof.
  unfold extractCodeFromRegular.
  destruct (removeCodeBlock (new text)) as [pm ?]. by destruct (deltaInfo n pm).
Qed.

Lemma extractCodeFromFIM_value text n midTag :
  ∃ pm, originalS pm = text ∧ (extractCodeFromFIM text n midTag).1.1 = value pm.
Proof.
  unfold extractCodeFromFIM.
  destruct (removeCodeBlock_cursors (new text)) as (Ho1 & _).
  destruct (removeCodeBlock (new text)) as [pm1 ?]; cbn [fst snd] in *.
  destruct (removePrefix_loop_cursors (lit "<" ++ midTag ++ lit ">") pm1) as (Ho2 & _).
  unfold removePrefix.
  destruct (removePrefix_loop (lit "<" ++ midTag ++ lit ">") pm1) as [pm2 foundMid];
    cbn [fst snd] in *.
  destruct (removeSuffix_cursors (lit "</" ++ midTag ++ lit ">") pm2) as (Ho3 & _).
  set (pm3 := if foundMid then _ else _).
  exists pm3. split; [destruct foundMid; subst pm3; simpl in Ho1; congruence|].
  by destruct (deltaInfo n pm3).
Qed.

(** C9, as the code has it. For every input string [s], every sequence
    [ops] of SurroundingsRemover operations and every next operation [op]:
    the source string is not changed and the right cursor j does not
    increase; the left cursor i does not decrease when the operation starts
    with i <= j + 1 or is not removeFromStartUntil, and a
    removeFromStartUntil that does not find its marker sets i to j + 1;
    value() is a contiguous part of the source string; and the live values
    returned by extractCodeFromRegular and extractCodeFromFIM are contiguous
    parts of their input text. *)
Theorem surroundingsRemover_cursors (s : jsstring) (ops : list Op) (op : Op)
    (text midTag : jsstring) (n : Z) :
  let pm := runOps ops (new s) in
  originalS (runOp op pm) = s ∧
  (j (runOp op pm) ≤ j pm)%Z ∧
  (((i pm ≤ j pm + 1)%Z ∨ (∀ u b, op ≠ OpRemoveFromStartUntil u b)) →
   (i pm ≤ i (runOp op pm))%Z) ∧
  (∀ u b, indexOf s u (i pm) = (-1)%Z →
          i (runOp (OpRemoveFromStartUntil u b) pm) = (j pm + 1)%Z) ∧
  contiguous (value pm) s ∧
  contiguous (extractCodeFromRegular text n).1.1 text ∧
  contiguous (extractCodeFromFIM text n midTag).1.1 text.
Proof.
  intros pm.
  destruct (runOps_frame ops (new s)) as [Ho Hj]. simpl in Ho, Hj. fold pm in Ho, Hj.
  destruct (runOp_frame op pm) as [Ho' Hj'].
  split_and!.
  - by rewrite Ho', Ho.
  - done.
  - apply runOp_i_mono. rewrite Ho. lia.
  - intros u b Hnone. simpl. unfold removeFromStartUntil. by rewrite Ho, Hnone.
  - rewrite <- Ho. apply value_contiguous.
  - rewrite extractCodeFromRegular_value.
    destruct (removeCodeBlock_cursors (new text)) as (Ho1 & _).
    simpl in Ho1. rewrite <- Ho1 at 2. apply value_contiguous.
  - destruct (extractCodeFromFIM_value text n midTag) as (pm' & <- & ->).
    apply value_contiguous.
Qed.

(** The hypothesis on i holds at a fresh remover. *)
Lemma surroundingsRemover_cursors_witness :
  (i (new (lit "ab")) ≤ i (runOp (OpRemoveFromStartUntil (lit "b") true) (new (lit "ab"))))%Z.
Proof.
  pose proof (surroundingsRemover_cursors (lit "ab") []
                (OpRemoveFromStartUntil (lit "b") true) [] [] 0) as H.
  cbv zeta in H. destruct H as (_ & _ & H & _).
  apply H. left. vm_compute. discriminate.
Defined.

(** C9 as stated fails: after removeSuffix has moved j back,
    removeFromStartUntil finds its marker beyond j and leaves i > j + 1; a
    removeFromStartUntil that then finds nothing sets i to j + 1, which is
    smaller. *)
Lemma cursor_i_decreases :
  ¬ (∀ (s : jsstring) (ops : list Op) (op : Op),
       (i (runOps ops (new s)) ≤ i (runOp op (runOps ops (new s))))%Z).
Proof.
  intros H.
  specialize (H (lit "ab")
                [OpRemoveSuffix (lit "b"); OpRemoveFromStartUntil (lit "b") true]
                (OpRemoveFromStartUntil (lit "z") true)).
  vm_compute in H. by apply H.
Qed.

(** C7. On the fenced text with language tag js and body hello, with the
    last 5 code units recently added, extractCodeFromRegular returns the live
    value hello, the delta o and the ignored suffix made of the newline and
    the closing fence: the last 5 code units of the text are the delta, which
    ends the live value, followed by the ignored suffix. *)
Theorem extractCodeFromRegular_sample :
  extractCodeFromRegular sample_text 5
    = (lit "hello", lit "o", [newline] ++ lit "```") ∧
  drop (length sample_text - 5) sample_text = lit "o" ++ ([newline] ++ lit "```") ∧
  lit "o" `suffix_of` lit "hello".
Proof.
  split_and!; [by vm_compute | by vm_compute | by exists (lit "hell")].
Qed.

Section SearchReplaceFacts.
Variables ORIGINAL DIVIDER FINAL : jsstring.

Local Abbreviation O_ := (ORIGINAL_ ORIGINAL).
Local Abbreviation D_ := (DIVIDER_ DIVIDER).
Local Abbreviation F_ := (FINAL_ FINAL).
Local Abbreviation loop := (extract_loop ORIGINAL DIVIDER FINAL).

Lemma ORIGINAL__nonempty : O_ ≠ [].
Proof. unfold ORIGINAL_. by destruct ORIGINAL. Qed.

Lemma DIVIDER__nonempty : D_ ≠ [].
Proof. done. Qed.

Lemma FINAL__nonempty : F_ ≠ [].
Proof. done. Qed.

Lemma nonempty_length (p : jsstring) : p ≠ [] → 0 < length p.
Proof. destruct p; [done | simpl; lia]. Qed.

(** The body of the loop, one case per exit. *)
Lemma extract_loop_S n str i0 :
  loop (S n) str i0 =
    let o := indexOf str O_ i0 in
    if (o =? -1)%Z then Some []
    else
      let os := (o + Z.of_nat (length O_))%Z in
      let d := indexOf str D_ os in
      if (d =? -1)%Z then
        Some [ mkBlock writingOriginal
                 (substring str os
                    (Z.of_nat (length str) - lengthOr0 (endsWithAnyPrefixOf str D_)))
                 [] ]
      else
        let ds := (d + Z.of_nat (length D_))%Z in
        let f := indexOf str F_ ds in
        if (f =? -1)%Z then
          Some [ mkBlock writingFinal (substring str os d)
                   (substring str ds
                      (Z.of_nat (length str) - lengthOr0 (endsWithAnyPrefixOf str F_))) ]
        else
          match loop n str (f + Z.of_nat (length F_))%Z with
          | Some blocks =>
              Some (mkBlock done (substring str os d) (substring str ds f) :: blocks)
          | None => None
          end.
Proof. reflexivity. Qed.

(** The budget of [extractSearchReplaceBlocks] is never used up. *)
Lemma extract_loop_total n str i0 :
  (0 ≤ i0 ≤ Z.of_nat (length str))%Z →
  (Z.of_nat (length str) - i0 < Z.of_nat n)%Z →
  ∃ blocks, loop n str i0 = Some blocks.
Proof.
  revert i0; induction n as [|n IH]; intros i0 Hi Hn; [lia|].
  rewrite extract_loop_S. cbv zeta.
  destruct (Z.eqb_spec (indexOf str O_ i0) (-1)) as [|Ho]; [eauto|].
  destruct (indexOf_found _ _ _ _ eq_refl Ho) as (no & Eo & Hoge & Hofit & _).
  set (os := (indexOf str O_ i0 + Z.of_nat (length O_))%Z) in *.
  destruct (Z.eqb_spec (indexOf str D_ os) (-1)) as [|Hd]; [eauto|].
  destruct (indexOf_found _ _ _ _ eq_refl Hd) as (nd & Ed & Hdge & Hdfit & _).
  set (ds := (indexOf str D_ os + Z.of_nat (length D_))%Z) in *.
  destruct (Z.eqb_spec (indexOf str F_ ds) (-1)) as [|Hf]; [eauto|].
  destruct (indexOf_found _ _ _ _ eq_refl Hf) as (nf & Ef & Hfge & Hffit & _).
  pose proof (nonempty_length _ ORIGINAL__nonempty) as HlO.
  unfold clamp in *.
  destruct (IH (indexOf str F_ ds + Z.of_nat (length F_))%Z) as [blocks ->];
    [unfold ds, os in *; lia | unfold ds, os in *; lia | eauto].
Qed.

(** Appending text to the input: the loop started at the same position
    continues what it returned before. *)
Lemma extract_loop_app n1 n2 s x i0 b1 b2 :
  loop n1 s i0 = Some b1 → loop n2 (s ++ x) i0 = Some b2 → progresses b1 b2.
Proof.
  revert n2 i0 b1 b2; induction n1 as [|n1 IH]; intros n2 i0 b1 b2; [done|].
  destruct n2 as [|n2]; [done|].
  rewrite !extract_loop_S. cbv zeta.
  destruct (Z.eqb_spec (indexOf s O_ i0) (-1)) as [|Ho].
  { intros [= <-] _. apply progresses_nil. }
  rewrite (indexOf_app s x O_ i0 _ ORIGINAL__nonempty eq_refl Ho).
  destruct (Z.eqb_spec (indexOf s O_ i0) (-1)) as [|_]; [done|].
  destruct (indexOf_found _ _ _ _ eq_refl Ho) as (no & Eo & _ & Hofit & _).
  set (os := (indexOf s O_ i0 + Z.of_nat (length O_))%Z).
  assert (Hos : (os ≤ Z.of_nat (length s))%Z) by (unfold os; rewrite Eo; lia).
  destruct (Z.eqb_spec (indexOf s D_ os) (-1)) as [|Hd].
  { intros [= <-].
    destruct (Z.eqb_spec (indexOf (s ++ x) D_ os) (-1)) as [|_].
    { intros [= <-]. by apply progresses_single. }
    destruct (Z.eqb_spec (indexOf (s ++ x) F_
                            (indexOf (s ++ x) D_ os + Z.of_nat (length D_))) (-1)) as [|_].
    { intros [= <-]. apply progresses_single; [simpl; lia | done]. }
    destruct (loop n2 _ _); intros [= <-].
    apply progresses_single; [simpl; lia | done]. }
  rewrite (indexOf_app s x D_ os _ DIVIDER__nonempty eq_refl Hd).
  destruct (Z.eqb_spec (indexOf s D_ os) (-1)) as [|_]; [done|].
  destruct (indexOf_found _ _ _ _ eq_refl Hd) as (nd & Ed & _ & Hdfit & _).
  set (d := indexOf s D_ os) in *.
  set (ds := (d + Z.of_nat (length D_))%Z).
  assert (Hd' : (d ≤ Z.of_nat (length s))%Z) by lia.
  assert (Hds : (ds ≤ Z.of_nat (length s))%Z) by (unfold ds; lia).
  rewrite (substring_app s x os d Hos Hd').
  destruct (Z.eqb_spec (indexOf s F_ ds) (-1)) as [|Hf].
  { intros [= <-].
    destruct (Z.eqb_spec (indexOf (s ++ x) F_ ds) (-1)) as [|_].
    { intros [= <-]. by apply progresses_single. }
    destruct (loop n2 _ _); intros [= <-].
    apply progresses_single; [simpl; lia | done]. }
  rewrite (indexOf_app s x F_ ds _ FINAL__nonempty eq_refl Hf).
  destruct (Z.eqb_spec (indexOf s F_ ds) (-1)) as [|_]; [done|].
  destruct (indexOf_found _ _ _ _ eq_refl Hf) as (nf & Ef & _ & Hffit & _).
  set (f := indexOf s F_ ds) in *.
  assert (Hf' : (f ≤ Z.of_nat (length s))%Z) by lia.
  rewrite (substring_app s x ds f Hds Hf').
  destruct (loop n1 s _) as [r1|] eqn:E1; [|done].
  destruct (loop n2 (s ++ x) _) as [r2|] eqn:E2; [|done].
  intros [= <-] [= <-]. apply progresses_cons. by eapply IH.
Qed.

(** C1. Calling extractSearchReplaceBlocks on S1 and then on S2 = S1 + X
    with X non-empty: both calls return, the second array is at least as
    long as the first, at every index present in both the state has not
    moved back in the ordering writingOriginal < writingFinal < done, and
    a block that was done in the first result has the same orig and final
    in the second. *)
Theorem extractSearchReplaceBlocks_monotone (S1 X : jsstring) :
  X ≠ [] →
  ∃ b1 b2,
    extractSearchReplaceBlocks ORIGINAL DIVIDER FINAL S1 = Some b1 ∧
    extractSearchReplaceBlocks ORIGINAL DIVIDER FINAL (S1 ++ X) = Some b2 ∧
    length b1 ≤ length b2 ∧
    ∀ k x y, b1 !! k = Some x → b2 !! k = Some y →
      stateRank (state x) ≤ stateRank (state y) ∧
      (state x = done → orig y = orig x ∧ final y = final x).
Proof.
  intros _. unfold extractSearchReplaceBlocks.
  destruct (extract_loop_total (S (length S1)) S1 0) as [b1 E1]; [lia | lia |].
  destruct (extract_loop_total (S (length (S1 ++ X))) (S1 ++ X) 0) as [b2 E2]; [lia | lia |].
  exists b1, b2. split; [done|]. split; [done|].
  exact (extract_loop_app _ _ _ _ _ _ _ E1 E2).
Qed.
End SearchReplaceFacts.

(** Monotonicity on a text that ends inside the divider and its
    continuation. *)
Lemma extractSearchReplaceBlocks_monotone_witness :
  sample_more ≠ [] ∧
  ∃ b1 b2,
    extractSearchReplaceBlocks sample_ORIGINAL sample_DIVIDER sample_FINAL sample_partial
      = Some b1 ∧
    extractSearchReplaceBlocks sample_ORIGINAL sample_DIVIDER sample_FINAL
      (sample_partial ++ sample_more) = Some b2 ∧
    length b1 ≤ length b2 ∧
    ∀ k x y, b1 !! k = Some x → b2 !! k = Some y →
      stateRank (state x) ≤ stateRank (state y) ∧
      (state x = done → orig y = orig x ∧ final y = final x).
Proof.
  split; [done|].
  apply (extractSearchReplaceBlocks_monotone sample_ORIGINAL sample_DIVIDER sample_FINAL
           sample_partial sample_more).
  done.
Defined.

(** The two results of that example: the block is first writingOriginal with
    the partial divider left out, then writingFinal. *)
Example extractSearchReplaceBlocks_sample :
  extractSearchReplaceBlocks sample_ORIGINAL sample_DIVIDER sample_FINAL sample_partial
    = Some [mkBlock writingOriginal (lit "foo") []] ∧
  extractSearchReplaceBlocks sample_ORIGINAL sample_DIVIDER sample_FINAL
    (sample_partial ++ sample_more)
    = Some [mkBlock writingFinal (lit "foo") (lit "ba")].
Proof. split; by vm_compute. Qed.

(** *** The operations on a window of the source string *)

Lemma splits_window pm before live after :
  splits pm before live after → liveWindow pm.
Proof.
  intros (Ho & Hi & Hj). unfold liveWindow. rewrite Ho, !length_app. lia.
Qed.

Lemma splits_value pm before live after :
  splits pm before live after → value pm = live.
Proof.
  intros (Ho & Hi & Hj). unfold value, substring, clamp. rewrite Ho, Hi, Hj.
  rewrite !length_app, !Nat2Z.id.
  replace (Nat.min (length before) _) with (length before) by lia.
  replace (Nat.min (length before + length live) _)
    with (length before + length live) by lia.
  replace (Nat.min (length before) _) with (length before) by lia.
  replace (Nat.max _ _ - length before) with (length live) by lia.
  by rewrite drop_app_length, take_app_length.
Qed.

Lemma window_splits pm :
  liveWindow pm →
  splits pm (take (Z.to_nat (i pm)) (originalS pm)) (value pm)
            (drop (Z.to_nat (j pm + 1)) (originalS pm)).
Proof.
  intros (H0 & Hij & Hlen).
  assert (Hv : value pm = take (Z.to_nat (j pm + 1) - Z.to_nat (i pm))
                            (drop (Z.to_nat (i pm)) (originalS pm))).
  { unfold value, substring, clamp. f_equal; [lia | f_equal; lia]. }
  split_and!.
  - rewrite Hv.
    rewrite <- (take_drop (Z.to_nat (i pm)) (originalS pm)) at 1. f_equal.
    rewrite <- (take_drop (Z.to_nat (j pm + 1) - Z.to_nat (i pm))
                  (drop (Z.to_nat (i pm)) (originalS pm))) at 1.
    f_equal. rewrite drop_drop. f_equal. lia.
  - rewrite length_take. lia.
  - rewrite Hv, !length_take, length_drop. lia.
Qed.

Lemma splits_unique pm b1 l1 a1 b2 l2 a2 :
  splits pm b1 l1 a1 → splits pm b2 l2 a2 → b1 = b2 ∧ l1 = l2 ∧ a1 = a2.
Proof.
  intros (Ho1 & Hi1 & Hj1) (Ho2 & Hi2 & Hj2).
  rewrite Ho1 in Ho2.
  assert (length b1 = length b2) by lia.
  assert (length l1 = length l2) by lia.
  apply app_inj_1 in Ho2 as [-> Ho2]; [|done].
  apply app_inj_1 in Ho2 as [-> ->]; done.
Qed.

Lemma new_splits s : splits (new s) [] s [].
Proof. unfold splits, new; simpl. rewrite app_nil_r. split_and!; [done | done | lia]. Qed.

(** *** removePrefix *)

Lemma commonPrefix_nil_r a : commonPrefix a [] = [].
Proof. by destruct a. Qed.

Lemma commonPrefix_prefix a b : a `prefix_of` b ↔ commonPrefix a b = a.
Proof.
  revert b; induction a as [|x a IH]; intros b; simpl.
  - split; [done | intros _; apply prefix_nil].
  - destruct b as [|y b].
    + split; [intros H; by apply prefix_nil_inv in H | done].
    + destruct (N.eqb_spec x y) as [->|Hne].
      * split.
        -- intros H. apply prefix_cons_inv_2 in H. f_equal. by apply IH.
        -- intros [= H]. apply prefix_cons. by apply IH.
      * split; [|done]. intros H. apply prefix_cons_inv_1 in H. done.
Qed.

Lemma splits_step pm before x live after :
  splits pm before (x :: live) after →
  (i pm <=? j pm)%Z = true ∧ charAt (originalS pm) (i pm) = Some x ∧
  splits (set_i pm (i pm + 1)) (before ++ [x]) live after.
Proof.
  intros (Ho & Hi & Hj). simpl in Hj. split_and!.
  - apply Z.leb_le. lia.
  - unfold charAt. destruct (Z.ltb_spec (i pm) 0); [lia|].
    rewrite Ho, Hi, Nat2Z.id. by rewrite lookup_app_r, Nat.sub_diag by lia.
  - unfold splits; simpl. rewrite Ho, <- !app_assoc, length_app. simpl.
    split_and!; [done | lia | lia].
Qed.

Lemma splits_empty pm before after :
  splits pm before [] after → (i pm <=? j pm)%Z = false.
Proof. intros (Ho & Hi & Hj). simpl in Hj. apply Z.leb_gt. lia. Qed.

Lemma removePrefix_loop_splits rest pm before live after :
  splits pm before live after →
  ∃ live',
    live = commonPrefix rest live ++ live' ∧
    splits (removePrefix_loop rest pm).1 (before ++ commonPrefix rest live) live' after ∧
    ((removePrefix_loop rest pm).2 = true ↔ rest `prefix_of` live).
Proof.
  revert pm before live; induction rest as [|c rest IH]; intros pm before live Hs.
  - simpl. exists live. rewrite app_nil_r. split_and!; [done | done |].
    split; [intros _; apply prefix_nil | done].
  - destruct live as [|x live].
    + simpl. rewrite (splits_empty _ _ _ Hs). exists []. simpl. rewrite app_nil_r.
      split_and!; [done | done |].
      split; [done | intros H; by apply prefix_nil_inv in H].
    + destruct (splits_step _ _ _ _ _ Hs) as (Hle & Hc & Hs').
      cbn [removePrefix_loop commonPrefix]. rewrite Hle, Hc. cbn [charEq].
      rewrite (N.eqb_sym x c).
      destruct (N.eqb_spec c x) as [->|Hne].
      * destruct (IH _ _ _ Hs') as (live' & Hl & Hs'' & Hb).
        exists live'. split_and!.
        -- simpl. by f_equal.
        -- by rewrite <- app_assoc in Hs''.
        -- rewrite Hb. split; [apply prefix_cons | apply prefix_cons_inv_2].
      * exists (x :: live). cbn [fst snd]. rewrite app_nil_r.
        split_and!; [done | done |].
        split; [done | intros H; by apply prefix_cons_inv_1 in H].
Qed.

(** *** removeSuffix *)

Lemma endsWith_suffix (s x : jsstring) : endsWith s x = true ↔ x `suffix_of` s.
Proof.
  unfold endsWith. rewrite andb_true_iff, Nat.leb_le, startsWith_prefix. split.
  - intros [Hlen [r Hr]].
    assert (r = []) as ->.
    { apply (f_equal length) in Hr. rewrite length_drop, length_app in Hr.
      apply nil_length_inv. lia. }
    rewrite app_nil_r in Hr. exists (take (length s - length x) s).
    rewrite <- (take_drop (length s - length x) s) at 1. by rewrite Hr.
  - intros [k ->]. rewrite length_app. split; [lia|].
    replace (length k + length x - length x) with (length k) by lia.
    by rewrite drop_app_length.
Qed.

Lemma substring_0 (s : jsstring) (k : nat) : substring s 0 (Z.of_nat k) = take k s.
Proof.
  unfold substring, clamp. rewrite Nat2Z.id. simpl.
  rewrite Nat.sub_0_r. simpl.
  destruct (Nat.le_ge_cases k (length s)).
  - by replace (Nat.min k (length s)) with k by lia.
  - replace (Nat.min k (length s)) with (length s) by lia.
    by rewrite !take_ge.
Qed.

Lemma removeSuffix_loop_spec s sfx len pm :
  ∃ m, m ≤ len ∧
    originalS (removeSuffix_loop s sfx len pm).1 = originalS pm ∧
    i (removeSuffix_loop s sfx len pm).1 = i pm ∧
    j (removeSuffix_loop s sfx len pm).1 = (j pm - Z.of_nat m)%Z ∧
    (0 < m → take m sfx `suffix_of` s) ∧
    (∀ m', m < m' ≤ len → ¬ take m' sfx `suffix_of` s) ∧
    (removeSuffix_loop s sfx len pm).2 = (0 <? m) && (m =? length sfx).
Proof.
  induction len as [|len IH].
  - exists 0. simpl. split_and!; [done | done | done | lia | lia | intros; lia | done].
  - cbn [removeSuffix_loop]. rewrite substring_0.
    destruct (endsWith s (take (S len) sfx)) eqn:E.
    + exists (S len). cbn [fst snd set_j originalS i j].
      split_and!; [done | done | done | done | | intros; lia | done].
      intros _. by apply endsWith_suffix.
    + destruct IH as (m & Hm & Ho & Hi & Hj & Hsuf & Hmax & Hb).
      exists m. split_and!; [lia | done | done | done | done | | done].
      intros m' Hm'. destruct (decide (m' = S len)) as [->|].
      * rewrite <- endsWith_suffix. by rewrite E.
      * apply Hmax. lia.
Qed.

Lemma removeSuffix_splits sfx pm before live after :
  splits pm before live after →
  ∃ m live',
    m ≤ length sfx ∧
    live = live' ++ take m sfx ∧ length (take m sfx) = m ∧
    splits (removeSuffix sfx pm).1 before live' (take m sfx ++ after) ∧
    j (removeSuffix sfx pm).1 = (j pm - Z.of_nat m)%Z ∧
    (∀ m', m < m' ≤ length sfx → ¬ take m' sfx `suffix_of` live) ∧
    ((removeSuffix sfx pm).2 = true ↔ sfx ≠ [] ∧ sfx `suffix_of` live).
Proof.
  intros Hs. pose proof (splits_value _ _ _ _ Hs) as Hv.
  unfold removeSuffix. rewrite Hv.
  destruct (removeSuffix_loop_spec live sfx (Nat.min (length live) (length sfx)) pm)
    as (m & Hm & Ho & Hi & Hj & Hsuf & Hmax & Hb).
  assert (Hmax' : ∀ m', m < m' ≤ length sfx → ¬ take m' sfx `suffix_of` live).
  { intros m' Hm' Hsf. destruct (Nat.le_gt_cases m' (length live)).
    - apply (Hmax m'); [lia | done].
    - apply suffix_length in Hsf. rewrite length_take in Hsf. lia. }
  assert (Hlive : ∃ live', live = live' ++ take m sfx) .
  { destruct m as [|m]; [exists live; by rewrite app_nil_r|].
    destruct Hsuf as [k Hk]; [lia|]. by exists k. }
  destruct Hlive as [live' Hlive].
  assert (Hlen : length (take m sfx) = m) by (rewrite length_take; lia).
  exists m, live'. split_and!; [lia | done | done | | done | done |].
  - destruct Hs as (Hos & His & Hjs). unfold splits.
    rewrite Ho, Hi, Hj, Hos, Hlive, <- !app_assoc. split_and!; [done | done |].
    rewrite Hlive, length_app in Hjs. lia.
  - rewrite Hb, andb_true_iff, Nat.ltb_lt, Nat.eqb_eq. split.
    + intros [Hpos ->]. split; [destruct sfx; [simpl in *; lia | done]|].
      rewrite Hlive, firstn_all. by apply suffix_app_r.
    + intros [Hne Hsf].
      destruct (decide (m = length sfx)) as [->|Hneq].
      * split; [|done]. destruct sfx; [done | simpl; lia].
      * exfalso. apply (Hmax' (length sfx)); [lia|]. by rewrite firstn_all.
Qed.

(** *** removeFromStartUntil *)

Lemma clamp_inside (len k : nat) : k ≤ len → clamp len (Z.of_nat k) = k.
Proof. unfold clamp. lia. Qed.

Lemma removeFromStartUntil_splits until also pm before a b after :
  splits pm before (a ++ until ++ b) after →
  findFrom until (a ++ until) 0 = Some (length a) →
  (removeFromStartUntil until also pm).2 = true ∧
  splits (removeFromStartUntil until also pm).1
         (if also then before ++ a ++ until else before ++ a)
         (if also then b else until ++ b) after.
Proof.
  intros (Ho & Hi & Hj) Hfirst.
  destruct (findFrom_Some _ _ _ _ Hfirst) as (m & Hm & _ & _ & Hmin).
  simpl in Hm. subst m.
  assert (Hidx : indexOf (originalS pm) until (i pm)
                 = Z.of_nat (length before + length a)).
  { rewrite Ho, Hi. apply indexOf_intro.
    - rewrite clamp_inside; [lia | rewrite !length_app; lia].
    - rewrite !length_app. lia.
    - replace (before ++ (a ++ until ++ b) ++ after)
        with ((before ++ a) ++ until ++ b ++ after) by (by rewrite <- !app_assoc).
      rewrite <- length_app, drop_app_length. apply startsWith_prefix.
      by apply prefix_app_r.
    - intros n'. rewrite clamp_inside by (rewrite !length_app; lia). intros Hge Hlt.
      rewrite drop_app_ge by lia.
      replace ((a ++ until ++ b) ++ after) with ((a ++ until) ++ b ++ after)
        by (by rewrite <- !app_assoc).
      rewrite startsWith_drop_app by (rewrite length_app; lia).
      apply Hmin. lia. }
  unfold removeFromStartUntil. rewrite Hidx.
  destruct (Z.eqb_spec (Z.of_nat (length before + length a)) (-1)) as [|_]; [lia|].
  destruct also; cbn [fst snd]; (split; [done|]); unfold splits; simpl; rewrite Ho.
  - rewrite <- !app_assoc, !length_app. split_and!; [done | lia |].
    rewrite !length_app in Hj. lia.
  - rewrite <- !app_assoc, !length_app. split_and!; [done | lia |].
    rewrite !length_app in Hj. lia.
Qed.

Lemma findFrom_drop_None pat s k :
  findFrom pat s k = None ↔ ∀ m, startsWith pat (drop m s) = false.
Proof.
  split; [apply findFrom_None|].
  intros H. destruct (findFrom pat s k) as [r|] eqn:E; [|done].
  destruct (findFrom_Some _ _ _ _ E) as (m & _ & _ & Hs & _).
  by rewrite H in Hs.
Qed.

Lemma removeFromStartUntil_missing until also pm before live after :
  splits pm before live after →
  findFrom until (live ++ after) 0 = None →
  (removeFromStartUntil until also pm).2 = false ∧
  splits (removeFromStartUntil until also pm).1 (before ++ live) [] after.
Proof.
  intros (Ho & Hi & Hj) Hnone.
  assert (Hidx : indexOf (originalS pm) until (i pm) = (-1)%Z).
  { unfold indexOf. rewrite Ho, Hi, clamp_inside by (rewrite !length_app; lia).
    rewrite drop_app_length.
    destruct (findFrom until (live ++ after) (length before)) as [r|] eqn:E; [|done].
    destruct (findFrom_Some _ _ _ _ E) as (m & _ & _ & Hs & _).
    by rewrite (findFrom_None _ _ _ Hnone m) in Hs. }
  unfold removeFromStartUntil. rewrite Hidx. simpl. split; [done|].
  unfold splits; simpl. rewrite Ho, <- !app_assoc, length_app. simpl.
  split_and!; [done | lia | lia].
Qed.

(** *** endsWithAnyPrefixOf *)

Lemma endsWithAnyPrefixOf_loop_spec str p k :
  ∃ m, m ≤ k ∧ endsWithAnyPrefixOf_loop str p k = Some (take m p) ∧
       take m p `suffix_of` str ∧
       ∀ m', m < m' ≤ k → ¬ take m' p `suffix_of` str.
Proof.
  induction k as [|k IH]; cbn [endsWithAnyPrefixOf_loop].
  - exists 0. simpl. split_and!; [done | done | apply suffix_nil | intros; lia].
  - destruct (endsWith str (take (S k) p)) eqn:E.
    + exists (S k). split_and!; [done | done | by apply endsWith_suffix | intros; lia].
    + destruct IH as (m & Hm & Hr & Hs & Hmax).
      exists m. split_and!; [lia | | done |].
      * destruct k; [|done]. simpl in *. by assert (m = 0) as -> by lia.
      * intros m' Hm'. destruct (decide (m' = S k)) as [->|].
        -- rewrite <- endsWith_suffix. by rewrite E.
        -- apply Hmax. lia.
Qed.

(** *** deltaInfo *)

Lemma substring_clamped s a b lo hi :
  clamp (length s) a = lo → clamp (length s) b = hi → lo ≤ hi →
  substring s a b = take (hi - lo) (drop lo s).
Proof.
  intros <- <- H. unfold substring.
  by rewrite Nat.max_r, Nat.min_l by done.
Qed.

Lemma substring_clamped_swap s a b lo hi :
  clamp (length s) a = hi → clamp (length s) b = lo → lo ≤ hi →
  substring s a b = take (hi - lo) (drop lo s).
Proof.
  intros <- <- H. unfold substring.
  by rewrite Nat.max_l, Nat.min_r by done.
Qed.

Lemma deltaInfo_splits n pm before live after :
  splits pm before live after →
  let k := Z.to_nat (Z.of_nat (length (originalS pm)) - n) in
  (k ≤ length before + length live →
     deltaInfo n pm = (drop (k - length before) live, after)) ∧
  (length before + length live ≤ k →
     deltaInfo n pm = (take (k - (length before + length live)) after,
                       drop (k - (length before + length live)) after)).
Proof.
  intros (Ho & Hi & Hj) k.
  assert (Hlen : length (originalS pm) = length before + length live + length after)
    by (rewrite Ho, !length_app; lia).
  unfold deltaInfo, substringToEnd. fold k.
  set (idx := (Z.of_nat (length (originalS pm)) - n)%Z) in *.
  set (bl := length before + length live) in *.
  assert (Hdrop : drop bl (originalS pm) = after).
  { rewrite Ho, app_assoc. unfold bl. by rewrite <- length_app, drop_app_length. }
  split; intros Hk.
  - f_equal.
    + rewrite (substring_clamped _ _ _ (Nat.max (length before) k) bl)
        by (unfold clamp; lia).
      rewrite Ho. destruct (Nat.le_ge_cases k (length before)).
      * replace (Nat.max (length before) k) with (length before) by lia.
        replace (k - length before) with 0 by lia.
        replace (bl - length before) with (length live) by lia.
        by rewrite drop_app_length, take_app_length.
      * replace (Nat.max (length before) k) with k by lia.
        rewrite drop_app_ge by lia.
        rewrite drop_app_le by lia.
        rewrite take_app_le by (rewrite length_drop; lia).
        apply take_ge. rewrite length_drop. lia.
    + rewrite (substring_clamped _ _ _ bl (length (originalS pm)))
        by (unfold clamp; lia).
      rewrite Hdrop. apply take_ge. lia.
  - set (d := k - bl).
    set (e := Nat.min d (length after)).
    assert (He1 : take d after = take e after).
    { unfold e. destruct (Nat.le_ge_cases d (length after)).
      - by rewrite Nat.min_l.
      - by rewrite Nat.min_r, !take_ge by lia. }
    assert (He2 : drop d after = drop e after).
    { unfold e. destruct (Nat.le_ge_cases d (length after)).
      - by rewrite Nat.min_l.
      - by rewrite Nat.min_r, !drop_ge by lia. }
    rewrite He1, He2. f_equal.
    + rewrite (substring_clamped_swap _ _ _ bl (bl + e)) by (unfold clamp; lia).
      rewrite Hdrop. f_equal. lia.
    + rewrite (substring_clamped _ _ _ (bl + e) (length (originalS pm)))
        by (unfold clamp; lia).
      rewrite <- drop_drop, Hdrop.
      apply take_ge. rewrite length_drop. lia.
Qed.

Lemma removePrefix_found p pm before live after :
  splits pm before (p ++ live) after →
  (removePrefix p pm).2 = true ∧ splits (removePrefix p pm).1 (before ++ p) live after.
Proof.
  intros H. destruct (removePrefix_loop_splits p _ _ _ _ H) as (l' & Hl & Hs & Hb).
  assert (Hp : p `prefix_of` p ++ live) by by apply prefix_app_r.
  rewrite (proj1 (commonPrefix_prefix _ _) Hp) in Hl, Hs.
  apply app_inv_head in Hl. subst l'. split; [by apply Hb | done].
Qed.

Lemma removePrefix_stuck p pm before live after :
  splits pm before live after → commonPrefix p live = [] → p ≠ [] →
  removePrefix p pm = (pm, false).
Proof.
  intros H Hc Hp. destruct p as [|c p]; [done|].
  unfold removePrefix. cbn [removePrefix_loop].
  destruct live as [|x live].
  - by rewrite (splits_empty _ _ _ H).
  - destruct (splits_step _ _ _ _ _ H) as (-> & -> & _).
    simpl in Hc. simpl. by destruct (N.eqb_spec x c) as [->|]; [rewrite N.eqb_refl in Hc|].
Qed.

Lemma removeSuffix_found sfx pm before live after :
  splits pm before (live ++ sfx) after → sfx ≠ [] →
  (removeSuffix sfx pm).2 = true ∧
  splits (removeSuffix sfx pm).1 before live (sfx ++ after) ∧
  j (removeSuffix sfx pm).1 = (j pm - Z.of_nat (length sfx))%Z.
Proof.
  intros H Hne.
  destruct (removeSuffix_splits sfx _ _ _ _ H) as (m & l' & Hm & Hl & Hlen & Hs & Hj & Hmax & Hb).
  assert (m = length sfx) as ->.
  { destruct (decide (m = length sfx)) as [|Hn]; [done|]. exfalso.
    apply (Hmax (length sfx)); [lia|]. rewrite take_ge by done. by apply suffix_app_r. }
  rewrite take_ge in Hl, Hs by done. apply app_inv_tail in Hl. subst l'.
  split_and!; [|done|done]. apply Hb. split; [done | by apply suffix_app_r].
Qed.

Lemma removeSuffix_none sfx pm before live after :
  splits pm before live after →
  (∀ m, 0 < m ≤ length sfx → ¬ take m sfx `suffix_of` live) →
  removeSuffix sfx pm = (pm, false).
Proof.
  intros H Hno. unfold removeSuffix.
  generalize (Nat.min (length (value pm)) (length sfx)) (Nat.le_min_r (length (value pm)) (length sfx)).
  rewrite (splits_value _ _ _ _ H).
  intros len. induction len as [|len IH]; intros Hlen; [done|].
  cbn [removeSuffix_loop]. rewrite substring_0.
  destruct (endsWith live (take (S len) sfx)) eqn:E.
  - apply endsWith_suffix in E. exfalso. apply (Hno (S len)); [lia | done].
  - apply IH. lia.
Qed.

(** [removeSuffix] with a suffix of which a proper part [take m sfx] ends
    the value, and no longer part does. *)
Lemma removeSuffix_partial sfx m pm before live after :
  splits pm before (live ++ take m sfx) after → m < length sfx →
  (∀ m', m < m' ≤ length sfx → ¬ take m' sfx `suffix_of` live ++ take m sfx) →
  (removeSuffix sfx pm).2 = false ∧
  splits (removeSuffix sfx pm).1 before live (take m sfx ++ after) ∧
  j (removeSuffix sfx pm).1 = (j pm - Z.of_nat m)%Z.
Proof.
  intros H Hm Hno.
  destruct (removeSuffix_splits sfx _ _ _ _ H) as (m0 & l' & Hm0 & Hl & Hlen & Hs & Hj & Hmax & Hb).
  assert (m0 = m) as ->.
  { destruct (Nat.lt_total m0 m) as [Hlt|[->|Hgt]]; [|done|].
    - exfalso. apply (Hmax m); [lia|]. by apply suffix_app_r.
    - exfalso. apply (Hno m0); [lia|]. rewrite Hl. by apply suffix_app_r. }
  apply app_inv_tail in Hl. subst l'. split_and!; [|done|done].
  destruct (removeSuffix sfx pm).2 eqn:E; [|done].
  destruct (proj1 Hb eq_refl) as [_ Hsfx]. exfalso.
  apply (Hno (length sfx)); [lia|]. by rewrite take_ge.
Qed.

Lemma findFrom_single c l k :
  c ∉ l → findFrom [c] (l ++ [c]) k = Some (k + length l).
Proof.
  revert k. induction l as [|x l IH]; intros k Hc.
  - simpl. rewrite N.eqb_refl. simpl. f_equal. lia.
  - apply not_elem_of_cons in Hc as [Hx Hl].
    cbn [app findFrom]. unfold startsWith. cbn.
    destruct (N.eqb_spec c x) as [->|_]; [done|]. cbn.
    rewrite IH by done. f_equal. simpl. lia.
Qed.

Lemma suffix_snoc_last (x l : jsstring) c :
  x `suffix_of` l ++ [c] → x ≠ [] → last x = Some c.
Proof.
  intros [k Hk] Hx. destruct (decide (x = [])) as [|_]; [done|].
  destruct (exists_last Hx) as (x' & d & ->).
  rewrite app_assoc in Hk. apply app_inj_tail in Hk as [_ ->].
  by rewrite last_snoc.
Qed.

Lemma fence_part_last m : 0 < m ≤ 3 → last (take m fence) = Some 96%N.
Proof.
  intros Hm. destruct m as [|[|[|[|m]]]]; try lia; reflexivity.
Qed.

Lemma fence_part_nonempty m : 0 < m → take m fence ≠ [].
Proof. destruct m; [lia|]. done. Qed.

Lemma fence_length : length fence = 3.
Proof. reflexivity. Qed.

Lemma fence_nonempty : fence ≠ [].
Proof. done. Qed.

(** A part of the closing fence never ends a text whose last unit is not a
    backtick. *)
Lemma no_fence_part (l : jsstring) m :
  last l ≠ Some 96%N → 0 < m ≤ 3 → ¬ take m fence `suffix_of` l.
Proof.
  intros Hl Hm Hs. destruct (decide (l = [])) as [->|Hne].
  - apply suffix_nil_inv in Hs. by apply (fence_part_nonempty m); [lia|].
  - destruct (exists_last Hne) as (l' & d & ->).
    apply suffix_snoc_last in Hs; [|apply fence_part_nonempty; lia].
    rewrite fence_part_last in Hs by done. rewrite last_snoc in Hl. congruence.
Qed.

Lemma removeCodeBlock_closed pm before lang content body tail after :
  splits pm before (fence ++ lang ++ [newline] ++ content ++ fence ++ tail) after →
  newline ∉ lang →
  tail = [] ∨ tail = [newline] →
  content = body ++ [newline] ∨ (content = body ∧ ¬ [newline] `suffix_of` body) →
  (removeCodeBlock pm).2 = true ∧
  ∃ before' after', splits (removeCodeBlock pm).1 before' body after'.
Proof.
  intros Hs Hlang Htail Hbody. unfold removeCodeBlock.
  destruct (removePrefix_found _ _ _ _ _ Hs) as [Hb1 Hs1].
  destruct (removePrefix fence pm) as [pm1 b1]. cbn [fst snd] in Hb1, Hs1. subst b1.
  cbn [negb].
  destruct (removeFromStartUntil_splits [newline] true pm1 _ lang
              (content ++ fence ++ tail) after Hs1) as [_ Hs2].
  { by rewrite (findFrom_single _ _ 0). }
  destruct (removeFromStartUntil [newline] true pm1) as [pm2 b2]. cbn [fst snd] in Hs2.
  assert (Hlast : ∀ pm3 before3 after3, splits pm3 before3 content after3 →
            ∃ before' after', splits (removeSuffix [newline] pm3).1 before' body after').
  { intros pm3 before3 after3 Hs3. destruct Hbody as [->|[-> Hno]].
    - destruct (removeSuffix_found [newline] _ _ _ _ Hs3) as (_ & Hs4 & _); [done|].
      eauto.
    - rewrite (removeSuffix_none [newline] _ _ _ _ Hs3); [eauto|].
      intros m Hm. simpl in Hm. by assert (m = 1) as -> by lia. }
  destruct Htail as [->| ->].
  - rewrite app_nil_r in Hs2.
    destruct (removeSuffix_found fence _ _ _ _ Hs2 fence_nonempty) as (Hb3 & Hs3 & Hj3).
    destruct (removeSuffix fence pm2) as [pm3 b3]. cbn [fst snd] in Hb3, Hs3, Hj3. subst b3.
    rewrite fence_length in Hj3.
    destruct (Z.eqb_spec (j pm3) (j pm2)) as [|_]; [lia|]. cbn [negb].
    destruct (Hlast _ _ _ Hs3) as (b' & a' & H').
    destruct (removeSuffix [newline] pm3) as [pm4 b4]. cbn [fst snd] in *. eauto.
  - rewrite (removeSuffix_none fence _ _ _ _ Hs2).
    2:{ intros m Hm. rewrite fence_length in Hm. apply no_fence_part; [|done].
        by rewrite !app_assoc, last_snoc. }
    rewrite Z.eqb_refl.
    destruct (removeSuffix_found (fence ++ [newline]) _ _ _ _ Hs2) as (Hb3 & Hs3 & _); [done|].
    destruct (removeSuffix (fence ++ [newline]) pm2) as [pm3 b3].
    cbn [fst snd] in Hb3, Hs3. subst b3. cbn [negb].
    destruct (Hlast _ _ _ Hs3) as (b' & a' & H').
    destruct (removeSuffix [newline] pm3) as [pm4 b4]. cbn [fst snd] in *. eauto.
Qed.

(** While the block is still being written: the opening line is there, the
    closing fence is not (at most a part [take m fence], [m < 3], of it). *)
Lemma removeCodeBlock_open pm before lang body m after :
  splits pm before (fence ++ lang ++ [newline] ++ body ++ take m fence) after →
  newline ∉ lang →
  m < 3 →
  last body ≠ Some 96%N →
  ¬ (fence ++ [newline]) `suffix_of` body →
  (removeCodeBlock pm).2 = false ∧
  ∃ before' after', splits (removeCodeBlock pm).1 before' body after'.
Proof.
  intros Hs Hlang Hm Hbody Hnl. unfold removeCodeBlock.
  destruct (removePrefix_found _ _ _ _ _ Hs) as [Hb1 Hs1].
  destruct (removePrefix fence pm) as [pm1 b1]. cbn [fst snd] in Hb1, Hs1. subst b1.
  cbn [negb].
  destruct (removeFromStartUntil_splits [newline] true pm1 _ lang
              (body ++ take m fence) after Hs1) as [_ Hs2].
  { by rewrite (findFrom_single _ _ 0). }
  destruct (removeFromStartUntil [newline] true pm1) as [pm2 b2]. cbn [fst snd] in Hs2.
  destruct (removeSuffix_partial fence m _ _ _ _ Hs2) as (Hb3 & Hs3 & Hj3).
  { by rewrite fence_length. }
  { intros m' Hm'. rewrite fence_length in Hm'. intros Hsuf.
    (* the part of length m' reaches into the body *)
    destruct Hsuf as [k Hk].
    assert (Hlen : length body + m = length k + m').
    { apply (f_equal length) in Hk.
      rewrite !length_app, !length_take, fence_length in Hk. lia. }
    destruct (decide (body = [])) as [->|Hne]; [simpl in Hlen; lia|].
    destruct (exists_last Hne) as (body' & d & ->).
    rewrite last_snoc in Hbody.
    assert (d = 96%N); [|congruence].
    assert (Hd : (body' ++ [d]) ++ take m fence = (body' ++ [d]) ++ replicate m 96%N).
    { f_equal. by destruct m as [|[|[|m]]]; [| | |lia]. }
    assert (Hf : take m' fence = replicate m' 96%N).
    { by destruct m' as [|[|[|[|m']]]]; [| | | |lia]. }
    rewrite Hd, Hf in Hk. rewrite length_app in Hlen. simpl in Hlen.
    assert (Hlk : ((body' ++ [d]) ++ replicate m 96%N) !! length body' = Some d).
    { rewrite <- app_assoc. by apply list_lookup_middle. }
    rewrite Hk in Hlk. rewrite lookup_app_r in Hlk by lia.
    apply lookup_replicate in Hlk as [-> _]. done. }
  destruct (removeSuffix fence pm2) as [pm3 b3]. cbn [fst snd] in Hb3, Hs3, Hj3. subst b3.
  destruct (Z.eqb_spec (j pm3) (j pm2)) as [Hj|Hj].
  - assert (m = 0) as -> by lia. simpl in Hs3.
    rewrite (removeSuffix_none (fence ++ [newline]) _ _ _ _ Hs3); [cbn; eauto|].
    intros m' Hm'. rewrite length_app, fence_length in Hm'. simpl in Hm'.
    destruct (decide (m' = 4)) as [->|].
    + done.
    + replace (take m' (fence ++ [newline])) with (take m' fence)
        by (by destruct m' as [|[|[|[|m']]]]; [| | | |lia]).
      apply no_fence_part; [done | lia].
  - cbn. eauto.
Qed.

(** A text that does not start with the fence. *)
Lemma removeCodeBlock_unfenced pm before live after :
  splits pm before live after →
  ¬ fence `prefix_of` live →
  (removeCodeBlock pm).2 = false ∧
  splits (removeCodeBlock pm).1 (before ++ commonPrefix fence live)
         (drop (length (commonPrefix fence live)) live) after.
Proof.
  intros Hs Hno. unfold removeCodeBlock.
  destruct (removePrefix_loop_splits fence _ _ _ _ Hs) as (l' & Hl & Hs1 & Hb1).
  unfold removePrefix.
  destruct (removePrefix_loop fence pm) as [pm1 b1]. cbn [fst snd] in Hb1, Hs1.
  destruct b1; [by destruct Hno; apply Hb1|]. cbn [negb fst snd]. split; [done|].
  set (cp := commonPrefix fence live) in *. clearbody cp. subst live.
  by rewrite drop_app_length.
Qed.

Lemma splits_drop pm before live after :
  splits pm before live after → drop (Z.to_nat (i pm)) (originalS pm) = live ++ after.
Proof. intros (Ho & Hi & _). rewrite Hi, Nat2Z.id, Ho. by rewrite drop_app_length. Qed.

(** X1. removePrefix on a remover whose cursors delimit a window: the live
    value loses exactly the longest part of [prefix] it starts with, the
    right cursor stays, the window stays a window, and the result is true
    exactly when the value started with the whole [prefix]. *)
Theorem removePrefix_spec (prefix : jsstring) (pm : SurroundingsRemover) :
  liveWindow pm →
  let r := removePrefix prefix pm in
  value pm = commonPrefix prefix (value pm) ++ value r.1 ∧
  liveWindow r.1 ∧ j r.1 = j pm ∧
  (r.2 = true ↔ prefix `prefix_of` value pm).
Proof.
  intros Hw r. pose proof (window_splits _ Hw) as Hs.
  destruct (removePrefix_loop_splits prefix _ _ _ _ Hs) as (l' & Hl & Hs' & Hb).
  fold (removePrefix prefix pm) in Hs', Hb. fold r in Hs', Hb.
  rewrite (splits_value _ _ _ _ Hs'). split_and!; [done | by eapply splits_window | | done].
  destruct Hs as (_ & _ & Hj). destruct Hs' as (_ & _ & Hj').
  apply (f_equal length) in Hl. rewrite !length_app in Hl, Hj'. lia.
Qed.

Lemma removePrefix_spec_witness :
  value (removePrefix (lit "abX") (new (lit "abc"))).1 = lit "c".
Proof.
  pose proof (removePrefix_spec (lit "abX") (new (lit "abc"))) as H.
  cbv zeta in H. destruct H as (H & _); [unfold liveWindow; simpl; lia|].
  vm_compute in H. vm_compute. congruence.
Defined.

(** X2. removeSuffix on a window: the live value loses exactly the longest
    non-empty beginning of [suffix] that it ends with (nothing if there is
    none), the left cursor stays, and the result is true exactly when
    [suffix] is not empty and the value ended with the whole of it. *)
Theorem removeSuffix_spec (suffix : jsstring) (pm : SurroundingsRemover) :
  liveWindow pm →
  let r := removeSuffix suffix pm in
  ∃ m, m ≤ length suffix ∧
    value pm = value r.1 ++ take m suffix ∧
    (∀ m', m < m' ≤ length suffix → ¬ take m' suffix `suffix_of` value pm) ∧
    liveWindow r.1 ∧ i r.1 = i pm ∧ j r.1 = (j pm - Z.of_nat m)%Z ∧
    (r.2 = true ↔ suffix ≠ [] ∧ suffix `suffix_of` value pm).
Proof.
  intros Hw r. pose proof (window_splits _ Hw) as Hs.
  destruct (removeSuffix_splits suffix _ _ _ _ Hs)
    as (m & l' & Hm & Hl & Hlen & Hs' & Hj & Hmax & Hb).
  fold r in Hs', Hj, Hb. exists m.
  rewrite (splits_value _ _ _ _ Hs').
  split_and!; [done | done | done | by eapply splits_window | | done | done].
  destruct Hs as (_ & Hi & _). destruct Hs' as (_ & Hi' & _). lia.
Qed.

Lemma removeSuffix_spec_witness :
  ∃ m, m ≤ 3 ∧ lit "code``" = value (removeSuffix fence (new (lit "code``"))).1 ++ take m fence.
Proof.
  pose proof (removeSuffix_spec fence (new (lit "code``"))) as H.
  cbv zeta in H. destruct H as (m & Hm & H & _); [unfold liveWindow; simpl; lia|].
  exists m. split; [exact Hm | exact H].
Defined.

(** X3. removeFromStartUntil on a window.  When the first occurrence of
    [until] from the left cursor on lies inside the live value, the result is
    true and the value is what follows that occurrence (with the occurrence
    itself kept when alsoRemoveUntilStr is false).  When [until] does not
    occur from the left cursor on, the result is the source's null and the
    value is empty. *)
Theorem removeFromStartUntil_spec (until : jsstring) (alsoRemoveUntilStr : bool)
    (pm : SurroundingsRemover) :
  liveWindow pm →
  let r := removeFromStartUntil until alsoRemoveUntilStr pm in
  (∀ a b, value pm = a ++ until ++ b →
          findFrom until (a ++ until) 0 = Some (length a) →
          r.2 = true ∧ liveWindow r.1 ∧
          value r.1 = if alsoRemoveUntilStr then b else until ++ b) ∧
  (findFrom until (drop (Z.to_nat (i pm)) (originalS pm)) 0 = None →
   r.2 = false ∧ liveWindow r.1 ∧ value r.1 = []).
Proof.
  intros Hw r. pose proof (window_splits _ Hw) as Hs. split.
  - intros a b Hv Hfirst. rewrite Hv in Hs.
    destruct (removeFromStartUntil_splits until alsoRemoveUntilStr _ _ _ _ _ Hs Hfirst)
      as [Hb Hs'].
    fold r in Hb, Hs'. split_and!; [done | by eapply splits_window |].
    by rewrite (splits_value _ _ _ _ Hs').
  - intros Hnone.
    destruct (removeFromStartUntil_missing until alsoRemoveUntilStr _ _ _ _ Hs) as [Hb Hs'].
    { by rewrite <- (splits_drop _ _ _ _ Hs). }
    fold r in Hb, Hs'. split_and!; [done | by eapply splits_window |].
    by rewrite (splits_value _ _ _ _ Hs').
Qed.

Lemma removeFromStartUntil_spec_witness :
  value (removeFromStartUntil [newline] true (new (lit "ts" ++ [newline] ++ lit "x"))).1
  = lit "x".
Proof.
  pose proof (removeFromStartUntil_spec [newline] true
                (new (lit "ts" ++ [newline] ++ lit "x"))) as H.
  cbv zeta in H. destruct H as (H & _); [unfold liveWindow; simpl; lia|].
  destruct (H (lit "ts") (lit "x")) as (_ & _ & Hv); [reflexivity | reflexivity |].
  exact Hv.
Defined.

(** X4. deltaInfo, for a remover whose source string is [before ++ live ++
    after] with [live] the live value, and [k = max 0 (length - n)] the
    position where the recently added [n] units start.  When that position
    is not behind the live value, the delta is the live value from that
    position on and the ignored suffix is all of [after].  When it is behind
    the live value, the delta is not empty in general: it is the part of
    [after] in front of the position, and the ignored suffix is the rest. *)
Theorem deltaInfo_spec (n : Z) (pm : SurroundingsRemover) (before live after : jsstring) :
  splits pm before live after →
  let k := Z.to_nat (Z.of_nat (length (originalS pm)) - n) in
  (k ≤ length before + length live →
     deltaInfo n pm = (drop (k - length before) live, after)) ∧
  (length before + length live ≤ k →
     deltaInfo n pm = (take (k - (length before + length live)) after,
                       drop (k - (length before + length live)) after)).
Proof. apply deltaInfo_splits. Qed.

Lemma deltaInfo_spec_witness :
  deltaInfo 1 (set_j (new (lit "abcdef")) 2) = (lit "de", lit "f").
Proof.
  pose proof (deltaInfo_spec 1 (set_j (new (lit "abcdef")) 2) [] (lit "abc") (lit "def")) as H.
  cbv zeta in H. destruct H as (_ & H); [vm_compute; split_and!; [reflexivity | lia | lia]|].
  apply H. vm_compute. lia.
Defined.

(** X5. endsWithAnyPrefixOf never returns null: it returns the longest
    beginning of [anyPrefix] (possibly the empty one) that [str] ends with. *)
Theorem endsWithAnyPrefixOf_spec (str anyPrefix : jsstring) :
  ∃ m, m ≤ length anyPrefix ∧
    endsWithAnyPrefixOf str anyPrefix = Some (take m anyPrefix) ∧
    take m anyPrefix `suffix_of` str ∧
    ∀ m', m < m' ≤ length anyPrefix → ¬ take m' anyPrefix `suffix_of` str.
Proof. apply endsWithAnyPrefixOf_loop_spec. Qed.

(** X6. extractCodeFromRegular on a complete fenced block: an opening fence,
    a language tag without a newline, a newline, the content, the closing
    fence and at most one newline after it.  The returned text is the
    content without its final newline, if it has one. *)
Theorem extractCodeFromRegular_fenced (lang content body tail : jsstring) (n : Z) :
  newline ∉ lang →
  tail = [] ∨ tail = [newline] →
  content = body ++ [newline] ∨ (content = body ∧ ¬ [newline] `suffix_of` body) →
  (removeCodeBlock (new (fence ++ lang ++ [newline] ++ content ++ fence ++ tail))).2 = true ∧
  (extractCodeFromRegular (fence ++ lang ++ [newline] ++ content ++ fence ++ tail) n).1.1
  = body.
Proof.
  intros Hlang Htail Hbody. rewrite extractCodeFromRegular_value.
  destruct (removeCodeBlock_closed _ _ lang content body tail _ (new_splits _)
              Hlang Htail Hbody) as (Hb & b' & a' & Hs).
  split; [done | by rewrite (splits_value _ _ _ _ Hs)].
Qed.

Lemma extractCodeFromRegular_fenced_witness :
  (extractCodeFromRegular
     (fence ++ lit "ts" ++ [newline] ++ (lit "let x" ++ [newline]) ++ fence ++ [newline]) 0).1.1
  = lit "let x".
Proof.
  apply (extractCodeFromRegular_fenced (lit "ts") (lit "let x" ++ [newline]) (lit "let x")
           [newline] 0).
  - compute_done.
  - by right.
  - by left.
Defined.

(** X7. extractCodeFromRegular while the block is being written: the opening
    line is complete and the text ends with the body followed by at most two
    backticks of the closing fence.  When the body itself ends neither with
    a backtick nor with a fence and a newline, no block is found and the
    returned text is the body, without the started closing fence. *)
Theorem extractCodeFromRegular_streaming (lang body : jsstring) (m : nat) (n : Z) :
  newline ∉ lang →
  m < 3 →
  last body ≠ Some 96%N →
  ¬ (fence ++ [newline]) `suffix_of` body →
  (removeCodeBlock (new (fence ++ lang ++ [newline] ++ body ++ take m fence))).2 = false ∧
  (extractCodeFromRegular (fence ++ lang ++ [newline] ++ body ++ take m fence) n).1.1 = body.
Proof.
  intros Hlang Hm Hlast Hnl. rewrite extractCodeFromRegular_value.
  destruct (removeCodeBlock_open _ _ lang body m _ (new_splits _) Hlang Hm Hlast Hnl)
    as (Hb & b' & a' & Hs).
  split; [done | by rewrite (splits_value _ _ _ _ Hs)].
Qed.

Lemma extractCodeFromRegular_streaming_witness :
  (extractCodeFromRegular (fence ++ lit "ts" ++ [newline] ++ lit "let x" ++ take 2 fence) 2).1.1
  = lit "let x".
Proof.
  apply (extractCodeFromRegular_streaming (lit "ts") (lit "let x") 2 2).
  - compute_done.
  - lia.
  - vm_compute. discriminate.
  - compute_done.
Defined.

(** X8. extractCodeFromRegular on a text that does not start with the fence:
    the returned text is the input without the backticks it starts with (at
    most two), and the ignored suffix is empty. *)
Theorem extractCodeFromRegular_unfenced (text : jsstring) (n : Z) :
  ¬ fence `prefix_of` text →
  (extractCodeFromRegular text n).1.1 = drop (length (commonPrefix fence text)) text ∧
  (extractCodeFromRegular text n).2 = [].
Proof.
  intros Hno.
  destruct (removeCodeBlock_unfenced _ _ _ _ (new_splits text) Hno) as [_ Hs].
  split.
  - rewrite extractCodeFromRegular_value. by rewrite (splits_value _ _ _ _ Hs).
  - unfold extractCodeFromRegular.
    destruct (removeCodeBlock (new text)) as [pm b]. cbn [fst snd] in Hs.
    destruct (deltaInfo_splits n _ _ _ _ Hs) as [H1 H2]. cbv zeta in H1, H2.
    destruct (deltaInfo n pm) as [d ig]. cbn [snd].
    destruct (Nat.le_ge_cases
                (Z.to_nat (Z.of_nat (length (originalS pm)) - n))
                (length ([] ++ commonPrefix fence text) +
                 length (drop (length (commonPrefix fence text)) text))) as [H|H].
    + specialize (H1 H). congruence.
    + specialize (H2 H). rewrite drop_nil in H2. congruence.
Qed.

Lemma extractCodeFromRegular_unfenced_witness :
  (extractCodeFromRegular (lit "`x` is set") 0).1.1 = lit "x` is set".
Proof.
  destruct (extractCodeFromRegular_unfenced (lit "`x` is set") 0) as [H _].
  - intros [k Hk]. vm_compute in Hk. discriminate Hk.
  - exact H.
Defined.

(** X9. extractCodeFromFIM on an answer that is exactly the opening tag, the
    body and the closing tag, either bare or as the content of a complete
    fenced block: the returned text is the body. *)
Theorem extractCodeFromFIM_tagged (text lang midTag body : jsstring) (n : Z) :
  let inner := (lit "<" ++ midTag ++ lit ">") ++ body ++ (lit "</" ++ midTag ++ lit ">") in
  (text = inner ∨
   ((newline ∉ lang) ∧ text = fence ++ lang ++ [newline] ++ inner ++ [newline] ++ fence)) →
  (extractCodeFromFIM text n midTag).1.1 = body.
Proof.
  intros inner Htext.
  assert (Hcb : ∃ before after, splits (removeCodeBlock (new text)).1 before inner after).
  { destruct Htext as [->|[Hlang ->]].
    - destruct (removeCodeBlock_unfenced _ _ _ _ (new_splits inner)) as [_ Hs].
      { intros [k Hk]. unfold inner in Hk. discriminate Hk. }
      change (commonPrefix fence inner) with (@nil N) in Hs. rewrite drop_0 in Hs. eauto.
    - pose proof (new_splits (fence ++ lang ++ [newline] ++ inner ++ [newline] ++ fence))
        as Hs0.
      replace (fence ++ lang ++ [newline] ++ inner ++ [newline] ++ fence)
        with (fence ++ lang ++ [newline] ++ (inner ++ [newline]) ++ fence ++ []) in Hs0 at 2
        by (by rewrite app_nil_r, <- app_assoc).
      destruct (removeCodeBlock_closed _ _ lang (inner ++ [newline]) inner [] _
                  Hs0 Hlang) as (_ & b' & a' & Hs); [by left | by left | eauto]. }
  destruct Hcb as (b0 & a0 & Hs0). unfold extractCodeFromFIM.
  destruct (removeCodeBlock (new text)) as [pm1 b1]. cbn [fst snd] in Hs0.
  destruct (removePrefix_found _ _ _ _ _ Hs0) as [Hb2 Hs2].
  destruct (removePrefix (lit "<" ++ midTag ++ lit ">") pm1) as [pm2 b2].
  cbn [fst snd] in Hb2, Hs2. subst b2.
  destruct (removeSuffix_found _ _ _ _ _ Hs2) as (_ & Hs3 & _); [done|].
  set (pm3 := (removeSuffix (lit "</" ++ midTag ++ lit ">") pm2).1) in *.
  destruct (deltaInfo n pm3). cbn [fst]. by rewrite (splits_value _ _ _ _ Hs3).
Qed.

Lemma extractCodeFromFIM_tagged_witness :
  (extractCodeFromFIM (lit "<MID>x + 1</MID>") 0 (lit "MID")).1.1 = lit "x + 1".
Proof.
  apply (extractCodeFromFIM_tagged (lit "<MID>x + 1</MID>") [] (lit "MID") (lit "x + 1") 0).
  left. reflexivity.
Defined.

Lemma indexOf_first str p a pat b (from : Z) :
  str = p ++ a ++ pat ++ b → from = Z.of_nat (length p) → firstAtEnd pat a →
  indexOf str pat from = Z.of_nat (length p + length a).
Proof.
  intros -> -> Hfirst.
  destruct (findFrom_Some _ _ _ _ Hfirst) as (m & Hm & _ & _ & Hmin).
  simpl in Hm. subst m.
  apply indexOf_intro.
  - rewrite clamp_inside; [lia | rewrite !length_app; lia].
  - rewrite !length_app. lia.
  - rewrite (app_assoc p a), <- length_app, drop_app_length. apply startsWith_prefix.
    by apply prefix_app_r.
  - intros n'. rewrite clamp_inside by (rewrite !length_app; lia). intros Hge Hlt.
    rewrite drop_app_ge by lia.
    rewrite (app_assoc a pat b).
    rewrite startsWith_drop_app by (rewrite length_app; lia).
    apply Hmin. lia.
Qed.

Lemma indexOf_absent str p t pat (from : Z) :
  str = p ++ t → from = Z.of_nat (length p) → absent pat t →
  indexOf str pat from = (-1)%Z.
Proof.
  intros -> -> Hnone. unfold indexOf.
  rewrite clamp_inside by (rewrite !length_app; lia).
  rewrite drop_app_length.
  destruct (findFrom pat t (length p)) as [r|] eqn:E; [|done].
  destruct (findFrom_Some _ _ _ _ E) as (m & _ & _ & Hs & _).
  by rewrite (findFrom_None _ _ _ Hnone m) in Hs.
Qed.

Lemma substring_mid str p x r (a b : Z) :
  str = p ++ x ++ r → a = Z.of_nat (length p) → b = Z.of_nat (length p + length x) →
  substring str a b = x.
Proof.
  intros -> -> ->.
  rewrite (substring_clamped _ _ _ (length p) (length p + length x));
    [| unfold clamp; rewrite !length_app; lia .. | lia].
  rewrite drop_app_length. replace (length p + length x - length p) with (length x) by lia.
  by rewrite take_app_length.
Qed.

Section SearchReplaceMore.
Variables ORIGINAL DIVIDER FINAL : jsstring.

Local Abbreviation O_ := (ORIGINAL_ ORIGINAL).
Local Abbreviation D_ := (DIVIDER_ DIVIDER).
Local Abbreviation F_ := (FINAL_ FINAL).
Local Abbreviation loop := (extract_loop ORIGINAL DIVIDER FINAL).
Local Abbreviation render := (render ORIGINAL DIVIDER FINAL).
Local Abbreviation wellDelimited := (wellDelimited ORIGINAL DIVIDER FINAL).

Lemma extract_loop_done n str q pre o f rest :
  str = q ++ pre ++ O_ ++ o ++ D_ ++ f ++ F_ ++ rest →
  firstAtEnd O_ pre → firstAtEnd D_ o → firstAtEnd F_ f →
  loop (S n) str (Z.of_nat (length q)) =
    match loop n str (Z.of_nat (length (q ++ pre ++ O_ ++ o ++ D_ ++ f ++ F_))) with
    | Some blocks => Some (mkBlock done o f :: blocks)
    | None => None
    end.
Proof.
  intros Hstr HO HD HF. rewrite extract_loop_S. cbv zeta.
  rewrite (indexOf_first str q pre O_ (o ++ D_ ++ f ++ F_ ++ rest) _ Hstr eq_refl HO).
  destruct (Z.eqb_spec (Z.of_nat (length q + length pre)) (-1)) as [|_]; [lia|].
  assert (H1 : str = (q ++ pre ++ O_) ++ o ++ D_ ++ f ++ F_ ++ rest)
    by (by rewrite Hstr, <- !app_assoc).
  rewrite (indexOf_first str (q ++ pre ++ O_) o D_ (f ++ F_ ++ rest) _ H1)
    by (done || rewrite !length_app; lia).
  destruct (Z.eqb_spec (Z.of_nat (length (q ++ pre ++ O_) + length o)) (-1)) as [|_]; [lia|].
  assert (H2 : str = (q ++ pre ++ O_ ++ o ++ D_) ++ f ++ F_ ++ rest)
    by (by rewrite Hstr, <- !app_assoc).
  rewrite (indexOf_first str (q ++ pre ++ O_ ++ o ++ D_) f F_ rest _ H2)
    by (done || rewrite !length_app; lia).
  destruct (Z.eqb_spec (Z.of_nat (length (q ++ pre ++ O_ ++ o ++ D_) + length f)) (-1))
    as [|_]; [lia|].
  rewrite (substring_mid str (q ++ pre ++ O_) o (D_ ++ f ++ F_ ++ rest))
    by (done || rewrite !length_app; lia).
  rewrite (substring_mid str (q ++ pre ++ O_ ++ o ++ D_) f (F_ ++ rest))
    by (done || rewrite !length_app; lia).
  replace (Z.of_nat (length (q ++ pre ++ O_ ++ o ++ D_) + length f) + Z.of_nat (length F_))%Z
    with (Z.of_nat (length (q ++ pre ++ O_ ++ o ++ D_ ++ f ++ F_)))
    by (rewrite !length_app; lia).
  done.
Qed.

Lemma extract_loop_none n str q rest :
  str = q ++ rest → absent O_ rest →
  loop (S n) str (Z.of_nat (length q)) = Some [].
Proof.
  intros Hstr Hno. rewrite extract_loop_S. cbv zeta.
  by rewrite (indexOf_absent str q rest O_ _ Hstr eq_refl Hno).
Qed.

(** The text of a block in progress: [o'] is what follows the marker, [m]
    units of the next marker [M] end the whole text. *)
Lemma substring_partial str q o' M m :
  str = q ++ o' → take m M `suffix_of` str → length (take m M) = m →
  ∃ t, substring str (Z.of_nat (length q)) (Z.of_nat (length str) - Z.of_nat m) = t ∧
       (m ≤ length o' → o' = t ++ take m M) ∧
       (length o' ≤ m → t = take (m - length o') M).
Proof.
  intros -> [k Hk] Hlen. eexists. split; [reflexivity|].
  assert (Hlk : length q + length o' = length k + m).
  { apply (f_equal length) in Hk. rewrite !length_app, Hlen in Hk. done. }
  split; intros Hm.
  - assert (Ho : o' = drop (length q) k ++ take m M).
    { apply (f_equal (drop (length q))) in Hk.
      rewrite drop_app_length in Hk. rewrite drop_app_le in Hk by lia. done. }
    rewrite (substring_clamped _ _ _ (length q) (length q + length (drop (length q) k)))
      by (unfold clamp; rewrite ?length_app, ?length_drop; lia).
    rewrite drop_app_length.
    replace (length q + length (drop (length q) k) - length q)
      with (length (drop (length q) k)) by lia.
    rewrite Ho at 2. by rewrite take_app_length.
  - rewrite (substring_clamped_swap _ _ _ (length k) (length q))
      by (unfold clamp; rewrite ?length_app; lia).
    rewrite Hk, drop_app_length, take_take. f_equal. lia.
Qed.

Lemma extract_loop_orig n str q pre o' :
  str = q ++ pre ++ O_ ++ o' → firstAtEnd O_ pre → absent D_ o' →
  ∃ m t, m ≤ length D_ ∧
    endsWithAnyPrefixOf str D_ = Some (take m D_) ∧
    loop (S n) str (Z.of_nat (length q)) = Some [mkBlock writingOriginal t []] ∧
    (m ≤ length o' → o' = t ++ take m D_) ∧
    (length o' ≤ m → t = take (m - length o') D_).
Proof.
  intros Hstr HO Hno.
  destruct (endsWithAnyPrefixOf_loop_spec str D_ (length D_)) as (m & Hm & He & Hsuf & _).
  fold (endsWithAnyPrefixOf str D_) in He.
  assert (H1 : str = (q ++ pre ++ O_) ++ o') by (by rewrite Hstr, <- !app_assoc).
  destruct (substring_partial str (q ++ pre ++ O_) o' D_ m H1 Hsuf) as (t & Ht & Hle & Hge).
  { rewrite length_take. lia. }
  exists m, t. split_and!; [done | done | | done | done].
  rewrite extract_loop_S. cbv zeta.
  rewrite (indexOf_first str q pre O_ o' _ Hstr eq_refl HO).
  destruct (Z.eqb_spec (Z.of_nat (length q + length pre)) (-1)) as [|_]; [lia|].
  rewrite (indexOf_absent str (q ++ pre ++ O_) o' D_ _ H1)
    by (done || rewrite !length_app; lia).
  simpl Z.eqb. cbv iota. rewrite He. cbn [lengthOr0]. rewrite length_take.
  replace (Z.of_nat (length q + length pre) + Z.of_nat (length O_))%Z
    with (Z.of_nat (length (q ++ pre ++ O_))) by (rewrite !length_app; lia).
  replace (Z.of_nat (Nat.min m (length D_))) with (Z.of_nat m) by lia.
  by rewrite Ht.
Qed.

Lemma extract_loop_final n str q pre o f' :
  str = q ++ pre ++ O_ ++ o ++ D_ ++ f' →
  firstAtEnd O_ pre → firstAtEnd D_ o → absent F_ f' →
  ∃ m t, m ≤ length F_ ∧
    endsWithAnyPrefixOf str F_ = Some (take m F_) ∧
    loop (S n) str (Z.of_nat (length q)) = Some [mkBlock writingFinal o t] ∧
    (m ≤ length f' → f' = t ++ take m F_) ∧
    (length f' ≤ m → t = take (m - length f') F_).
Proof.
  intros Hstr HO HD Hno.
  destruct (endsWithAnyPrefixOf_loop_spec str F_ (length F_)) as (m & Hm & He & Hsuf & _).
  fold (endsWithAnyPrefixOf str F_) in He.
  assert (H1 : str = (q ++ pre ++ O_) ++ o ++ D_ ++ f') by (by rewrite Hstr, <- !app_assoc).
  assert (H2 : str = (q ++ pre ++ O_ ++ o ++ D_) ++ f') by (by rewrite Hstr, <- !app_assoc).
  destruct (substring_partial str (q ++ pre ++ O_ ++ o ++ D_) f' F_ m H2 Hsuf)
    as (t & Ht & Hle & Hge).
  { rewrite length_take. lia. }
  exists m, t. split_and!; [done | done | | done | done].
  rewrite extract_loop_S. cbv zeta.
  rewrite (indexOf_first str q pre O_ (o ++ D_ ++ f') _ Hstr eq_refl HO).
  destruct (Z.eqb_spec (Z.of_nat (length q + length pre)) (-1)) as [|_]; [lia|].
  rewrite (indexOf_first str (q ++ pre ++ O_) o D_ f' _ H1)
    by (done || rewrite !length_app; lia).
  destruct (Z.eqb_spec (Z.of_nat (length (q ++ pre ++ O_) + length o)) (-1)) as [|_]; [lia|].
  rewrite (indexOf_absent str (q ++ pre ++ O_ ++ o ++ D_) f' F_ _ H2)
    by (done || rewrite !length_app; lia).
  simpl Z.eqb. cbv iota. rewrite He. cbn [lengthOr0]. rewrite length_take.
  rewrite (substring_mid str (q ++ pre ++ O_) o (D_ ++ f'))
    by (done || rewrite !length_app; lia).
  replace (Z.of_nat (length (q ++ pre ++ O_) + length o) + Z.of_nat (length D_))%Z
    with (Z.of_nat (length (q ++ pre ++ O_ ++ o ++ D_))) by (rewrite !length_app; lia).
  replace (Z.of_nat (Nat.min m (length F_))) with (Z.of_nat m) by lia.
  by rewrite Ht.
Qed.

Lemma render_rest bs rest : ∃ q, render bs rest = q ++ rest ∧ length bs ≤ length q.
Proof.
  induction bs as [|[[pre o] f] bs IH]; [by exists []|].
  destruct IH as (q & Hq & Hlen). cbn [render fst snd]. rewrite Hq.
  exists (pre ++ O_ ++ o ++ D_ ++ f ++ F_ ++ q). split; [by rewrite <- !app_assoc|].
  rewrite !length_app. unfold DIVIDER_. simpl. lia.
Qed.

Lemma extract_loop_render bs rest : ∀ n q str,
  str = q ++ render bs rest → Forall wellDelimited bs →
  loop (length bs + n) str (Z.of_nat (length q)) =
    match loop n str (Z.of_nat (length str - length rest)) with
    | Some blocks => Some (map doneBlock bs ++ blocks)
    | None => None
    end.
Proof.
  induction bs as [|[[pre o] f] bs IH]; intros n q str Hstr Hwd.
  - simpl in *. replace (length str - length rest) with (length q)
      by (rewrite Hstr, length_app; lia).
    by destruct (loop n str _).
  - apply Forall_cons in Hwd as [(HO & HD & HF) Hwd]. cbn [fst snd] in HO, HD, HF.
    cbn [render fst snd] in Hstr. cbn [length Nat.add].
    rewrite (extract_loop_done _ str q pre o f (render bs rest) Hstr HO HD HF).
    rewrite (IH n (q ++ pre ++ O_ ++ o ++ D_ ++ f ++ F_) str);
      [| by rewrite Hstr, <- !app_assoc | done].
    by destruct (loop n str _).
Qed.

(** Running on a rendered text: the complete blocks come back, followed by
    what the scanner finds from the end of the last one on. *)
Lemma extractSearchReplaceBlocks_render bs rest :
  Forall wellDelimited bs →
  ∃ q n, render bs rest = q ++ rest ∧
    extractSearchReplaceBlocks ORIGINAL DIVIDER FINAL (render bs rest) =
      match loop (S n) (render bs rest) (Z.of_nat (length q)) with
      | Some blocks => Some (map doneBlock bs ++ blocks)
      | None => None
      end.
Proof.
  intros Hwd. destruct (render_rest bs rest) as (q & Hq & Hlen).
  exists q, (length (render bs rest) - length bs). split; [done|].
  unfold extractSearchReplaceBlocks.
  replace (S (length (render bs rest)))
    with (length bs + S (length (render bs rest) - length bs))
    by (rewrite Hq, length_app; lia).
  rewrite (extract_loop_render bs rest _ [] (render bs rest) eq_refl Hwd).
  replace (length (render bs rest) - length rest) with (length q)
    by (rewrite Hq, length_app; lia).
  done.
Qed.

(** X10. Round trip: a text made of complete blocks, where no marker occurs
    before its place, followed by a rest without the opening marker, is
    parsed into exactly these blocks, all done. *)
Theorem extractSearchReplaceBlocks_complete (bs : list WrittenBlock) (rest : jsstring) :
  Forall wellDelimited bs →
  absent O_ rest →
  extractSearchReplaceBlocks ORIGINAL DIVIDER FINAL (render bs rest)
  = Some (map doneBlock bs).
Proof.
  intros Hwd Hno.
  destruct (extractSearchReplaceBlocks_render bs rest Hwd) as (q & n & Hq & ->).
  rewrite (extract_loop_none n _ q rest Hq Hno). by rewrite app_nil_r.
Qed.

(** X11. A block whose original part is being written, after complete
    blocks: the last block is in state writingOriginal with an empty final
    part.  With [m] the length of the longest beginning of the divider
    marker that ends the whole text: when the written part [o'] has at least
    [m] units, the reported original is [o'] without these [m] units; when it
    is shorter (as it is right after the opening marker, whose final newline
    also starts the divider marker), the reported original is not empty but
    the first [m - length o'] units of the divider marker. *)
Theorem extractSearchReplaceBlocks_writingOriginal (bs : list WrittenBlock)
    (pre o' : jsstring) :
  Forall wellDelimited bs →
  firstAtEnd O_ pre →
  absent D_ o' →
  ∃ m t, m ≤ length D_ ∧
    endsWithAnyPrefixOf (render bs (pre ++ O_ ++ o')) D_ = Some (take m D_) ∧
    extractSearchReplaceBlocks ORIGINAL DIVIDER FINAL (render bs (pre ++ O_ ++ o'))
      = Some (map doneBlock bs ++ [mkBlock writingOriginal t []]) ∧
    (m ≤ length o' → o' = t ++ take m D_) ∧
    (length o' ≤ m → t = take (m - length o') D_).
Proof.
  intros Hwd HO Hno.
  destruct (extractSearchReplaceBlocks_render bs (pre ++ O_ ++ o') Hwd) as (q & n & Hq & ->).
  destruct (extract_loop_orig n _ q pre o' Hq HO Hno) as (m & t & Hm & He & -> & H1 & H2).
  by exists m, t.
Qed.

(** X12. A block whose final part is being written, after complete blocks:
    the last block is in state writingFinal with its original part complete;
    its final part is the written part [f'] without the longest beginning
    of the closing marker that ends the text, or, when [f'] is shorter than
    that, the first units of the closing marker. *)
Theorem extractSearchReplaceBlocks_writingFinal (bs : list WrittenBlock)
    (pre o f' : jsstring) :
  Forall wellDelimited bs →
  firstAtEnd O_ pre →
  firstAtEnd D_ o →
  absent F_ f' →
  ∃ m t, m ≤ length F_ ∧
    endsWithAnyPrefixOf (render bs (pre ++ O_ ++ o ++ D_ ++ f')) F_ = Some (take m F_) ∧
    extractSearchReplaceBlocks ORIGINAL DIVIDER FINAL (render bs (pre ++ O_ ++ o ++ D_ ++ f'))
      = Some (map doneBlock bs ++ [mkBlock writingFinal o t]) ∧
    (m ≤ length f' → f' = t ++ take m F_) ∧
    (length f' ≤ m → t = take (m - length f') F_).
Proof.
  intros Hwd HO HD Hno.
  destruct (extractSearchReplaceBlocks_render bs (pre ++ O_ ++ o ++ D_ ++ f') Hwd)
    as (q & n & Hq & ->).
  destruct (extract_loop_final n _ q pre o f' Hq HO HD Hno)
    as (m & t & Hm & He & -> & H1 & H2).
  by exists m, t.
Qed.

Lemma extract_loop_shape n : ∀ str i0 blocks,
  loop n str i0 = Some blocks →
  ∀ k b, blocks !! k = Some b → S k < length blocks → state b = done.
Proof.
  induction n as [|n IH]; intros str i0 blocks; [done|].
  rewrite extract_loop_S. cbv zeta.
  destruct (_ =? _)%Z; [by intros [= <-]|].
  destruct (_ =? _)%Z; [intros [= <-] [|k] b Hb Hk; simpl in *; lia|].
  destruct (_ =? _)%Z; [intros [= <-] [|k] b Hb Hk; simpl in *; lia|].
  destruct (loop n str _) as [bl|] eqn:E; [|done].
  intros [= <-] [|k] b Hb Hk; simpl in *.
  - by injection Hb as <-.
  - eapply IH; [done | done | lia].
Qed.

(** X13. On every text the scanner returns; every block of the result
    except the last is done; and the result is empty exactly when the
    opening marker does not occur in the text. *)
Theorem extractSearchReplaceBlocks_shape (str : jsstring) :
  ∃ blocks,
    extractSearchReplaceBlocks ORIGINAL DIVIDER FINAL str = Some blocks ∧
    (∀ k b, blocks !! k = Some b → S k < length blocks → state b = done) ∧
    (blocks = [] ↔ absent O_ str).
Proof.
  unfold extractSearchReplaceBlocks.
  destruct (extract_loop_total ORIGINAL DIVIDER FINAL (S (length str)) str 0)
    as [blocks E]; [lia | lia |].
  exists blocks. split; [done|]. split; [exact (extract_loop_shape _ _ _ _ E)|].
  rewrite extract_loop_S in E. cbv zeta in E. split.
  - intros ->. destruct (Z.eqb_spec (indexOf str O_ 0) (-1)) as [Hi|Hi].
    + unfold indexOf in Hi. replace (clamp (length str) 0) with 0 in Hi by (unfold clamp; lia).
      rewrite drop_0 in Hi. unfold absent. destruct (findFrom O_ str 0); [lia | done].
    + destruct (_ =? _)%Z; [done|]. destruct (_ =? _)%Z; [done|].
      by destruct (loop _ _ _).
  - intros Hno. rewrite (indexOf_absent str [] str O_ 0 eq_refl eq_refl Hno) in E.
    simpl in E. by injection E as <-.
Qed.

End SearchReplaceMore.

Lemma extractSearchReplaceBlocks_complete_witness :
  extractSearchReplaceBlocks sample_ORIGINAL sample_DIVIDER sample_FINAL
    (render sample_ORIGINAL sample_DIVIDER sample_FINAL
       [(lit "Change:" ++ [newline], lit "foo", lit "bar")] ([newline] ++ lit "Done."))
  = Some [mkBlock done (lit "foo") (lit "bar")].
Proof.
  apply (extractSearchReplaceBlocks_complete sample_ORIGINAL sample_DIVIDER sample_FINAL
           [(lit "Change:" ++ [newline], lit "foo", lit "bar")] ([newline] ++ lit "Done.")).
  - constructor; [split_and!; vm_compute; reflexivity | constructor].
  - vm_compute. reflexivity.
Defined.

Lemma extractSearchReplaceBlocks_writingOriginal_witness :
  ∃ m t, m ≤ length (DIVIDER_ sample_DIVIDER) ∧
    endsWithAnyPrefixOf (ORIGINAL_ sample_ORIGINAL) (DIVIDER_ sample_DIVIDER)
      = Some (take m (DIVIDER_ sample_DIVIDER)) ∧
    extractSearchReplaceBlocks sample_ORIGINAL sample_DIVIDER sample_FINAL
      (ORIGINAL_ sample_ORIGINAL) = Some [mkBlock writingOriginal t []] ∧
    t = take m (DIVIDER_ sample_DIVIDER).
Proof.
  destruct (extractSearchReplaceBlocks_writingOriginal
              sample_ORIGINAL sample_DIVIDER sample_FINAL [] [] [])
    as (m & t & Hm & He & Hx & _ & Ht).
  - constructor.
  - vm_compute. reflexivity.
  - vm_compute. reflexivity.
  - exists m, t. cbn [render app] in He, Hx. rewrite app_nil_r in He, Hx.
    split_and!; [exact Hm | exact He | exact Hx |].
    rewrite Ht; [f_equal; simpl; lia | simpl; lia].
Defined.

Lemma extractSearchReplaceBlocks_writingFinal_witness :
  ∃ m t, m ≤ length (FINAL_ sample_FINAL) ∧
    extractSearchReplaceBlocks sample_ORIGINAL sample_DIVIDER sample_FINAL
      (ORIGINAL_ sample_ORIGINAL ++ lit "foo" ++ DIVIDER_ sample_DIVIDER ++ lit "bar")
      = Some [mkBlock writingFinal (lit "foo") t] ∧
    (m ≤ 3 → lit "bar" = t ++ take m (FINAL_ sample_FINAL)).
Proof.
  destruct (extractSearchReplaceBlocks_writingFinal
              sample_ORIGINAL sample_DIVIDER sample_FINAL [] [] (lit "foo") (lit "bar"))
    as (m & t & Hm & _ & Hx & Ht & _).
  - constructor.
  - vm_compute. reflexivity.
  - vm_compute. reflexivity.
  - vm_compute. reflexivity.
  - exists m, t. split_and!; [exact Hm | exact Hx | exact Ht].
Defined.

(** *** A search that leaves the window *)

Lemma findFrom_shift pat s k r :
  findFrom pat s 0 = Some r → findFrom pat s k = Some (k + r).
Proof.
  intros H. destruct (findFrom_Some _ _ _ _ H) as (m & -> & Hm & Hs & Hmin).
  simpl. by apply findFrom_complete.
Qed.

(** X30. removeFromStartUntil searches the whole source string from the
    left cursor on, not the live value only.  When the first occurrence of
    the marker starts [k] units behind the end of the live value, in the
    part that was removed before, the result is true, the left cursor passes
    the right one, and value() is not empty but the removed text up to the
    occurrence, with the occurrence when alsoRemoveUntilStr is true. *)
Theorem removeFromStartUntil_beyond_window (until : jsstring) (alsoRemoveUntilStr : bool)
    (pm : SurroundingsRemover) (before live after : jsstring) (k : nat) :
  splits pm before live after →
  findFrom until (live ++ after) 0 = Some (length live + k) →
  let r := removeFromStartUntil until alsoRemoveUntilStr pm in
  r.2 = true ∧
  originalS r.1 = originalS pm ∧ j r.1 = j pm ∧
  (j pm + 1 ≤ i r.1)%Z ∧
  value r.1 = take (if alsoRemoveUntilStr then k + length until else k) after.
Proof.
  intros (Ho & Hi & Hj) Hfirst r.
  destruct (findFrom_Some _ _ _ _ Hfirst) as (m & Hm & Hmlen & Hstarts & _).
  simpl in Hm. subst m.
  assert (Hfit : k + length until ≤ length after).
  { apply startsWith_length in Hstarts. rewrite length_drop, length_app in Hstarts.
    rewrite length_app in Hmlen. lia. }
  assert (Hlen : length (originalS pm) = length before + length live + length after)
    by (rewrite Ho, !length_app; lia).
  assert (Hidx : indexOf (originalS pm) until (i pm)
                 = Z.of_nat (length before + (length live + k))).
  { unfold indexOf. rewrite Hi, clamp_inside by lia.
    rewrite Ho at 1. rewrite drop_app_length.
    by rewrite (findFrom_shift _ _ (length before) _ Hfirst). }
  assert (Hdrop : drop (length before + length live) (originalS pm) = after).
  { rewrite Ho, app_assoc, <- length_app. apply drop_app_length. }
  subst r. unfold removeFromStartUntil. rewrite Hidx.
  destruct (Z.eqb_spec (Z.of_nat (length before + (length live + k))) (-1)) as [|_]; [lia|].
  destruct alsoRemoveUntilStr; cbn [fst snd]; unfold value; cbn [originalS i j set_i].
  - split_and!; [done | done | done | lia |].
    rewrite (substring_clamped_swap _ _ _ (length before + length live)
               (length before + length live + (k + length until)))
      by (unfold clamp; lia).
    rewrite Hdrop. f_equal. lia.
  - split_and!; [done | done | done | lia |].
    rewrite (substring_clamped_swap _ _ _ (length before + length live)
               (length before + length live + k))
      by (unfold clamp; lia).
    rewrite Hdrop. f_equal. lia.
Qed.

(** After the closing fence has been removed, a search for a backtick
    finds it there. *)
Lemma removeFromStartUntil_beyond_window_witness :
  value (removeFromStartUntil (lit "`") true
           (removeSuffix fence (new (lit "code```"))).1).1
  = lit "`".
Proof.
  destruct (removeFromStartUntil_beyond_window (lit "`") true
              (removeSuffix fence (new (lit "code```"))).1 [] (lit "code") fence 0)
    as (_ & _ & _ & _ & H).
  - vm_compute. split_and!; reflexivity.
  - reflexivity.
  - exact H.
Defined.

End ParserFacts.

(* ===================================================================== *)
(** ** Properties of the chat thread service *)
(* ===================================================================== *)

Module ChatFacts.
Import Chat.

(** *** Objects *)

Section Objects.
Context {V : Type}.
Implicit Types (o : list (string * V)) (k : string) (v : V).

Lemma obj_get_set_eq o k v : obj_get (obj_set o k v) k = Some v.
Proof.
  induction o as [|[k' v'] o IH]; simpl.
  - by rewrite String.eqb_refl.
  - destruct (String.eqb k' k) eqn:E; simpl; by rewrite E.
Qed.

Lemma obj_get_set_ne o k k' v : k ≠ k' → obj_get (obj_set o k v) k' = obj_get o k'.
Proof.
  intros Hne. induction o as [|[k0 v0] o IH]; simpl.
  - by destruct (String.eqb_spec k k').
  - destruct (String.eqb_spec k0 k) as [->|]; simpl.
    + by destruct (String.eqb_spec k k').
    + by rewrite IH.
Qed.

Lemma obj_get_existsb o k v :
  obj_get o k = Some v → existsb (fun kv => String.eqb kv.1 k) o = true.
Proof.
  induction o as [|[k0 v0] o IH]; simpl; [done|].
  destruct (String.eqb k0 k); [done | simpl; auto].
Qed.
End Objects.

(** *** The effect of the two state-changing primitives *)

Lemma _setStreamState_eq {T} threadId p (w : Service T) :
  _setStreamState threadId p w = (Ok tt, afterSetStreamState threadId p w).
Proof. reflexivity. Qed.

Lemma _addMessageToThread_eq {T} (env : Env T) threadId message (w : Service T) oldThread :
  obj_get (allThreads (state w)) threadId = Some oldThread →
  _addMessageToThread env threadId message w = (Ok tt, afterAddMessage env oldThread message w).
Proof.
  intros H. unfold _addMessageToThread, bind, get. rewrite H.
  unfold afterAddMessage, threadsWithMessage.
  cbv [defined ret newDate _storeAllThreads _setState bind modify fire spread
       add_effect set_state set_storedThreads tick_clock p_allThreads p_currentThreadId
       state streamState storedVersion storedThreads effects clockReads llmSends toolRuns].
  by rewrite <- app_assoc.
Qed.

Lemma _addMessageToThread_missing {T} (env : Env T) threadId message (w : Service T) :
  obj_get (allThreads (state w)) threadId = None →
  _addMessageToThread env threadId message w = (Throw TypeError, w).
Proof. intros H. unfold _addMessageToThread, bind, get. by rewrite H. Qed.

Lemma streamField_afterSet {T A} (f : StreamEntry.t → option A) threadId p (w : Service T) :
  streamField f threadId (afterSetStreamState threadId p w)
  = f {| StreamEntry.error :=
           spread (streamField StreamEntry.error threadId w) (PartialEntry.error p);
         StreamEntry.messageSoFar :=
           spread (streamField StreamEntry.messageSoFar threadId w) (PartialEntry.messageSoFar p);
         StreamEntry.streamingToken :=
           spread (streamField StreamEntry.streamingToken threadId w)
                  (PartialEntry.streamingToken p) |}.
Proof.
  unfold streamField, afterSetStreamState; simpl. rewrite lookup_insert_eq.
  by destruct (streamState w !! threadId).
Qed.

Lemma streamField_afterAdd {T A} (f : StreamEntry.t → option A) threadId
    (env : Env T) th m (w : Service T) :
  streamField f threadId (afterAddMessage env th m w) = streamField f threadId w.
Proof. reflexivity. Qed.

Lemma messagesOf_afterAdd {T} (env : Env T) th m (w : Service T) k :
  Thread.id th = k →
  messagesOf (afterAddMessage env th m w) k = Some (Thread.messages th ++ [m]).
Proof.
  intros <-. unfold messagesOf, afterAddMessage, threadsWithMessage; simpl.
  by rewrite obj_get_set_eq.
Qed.

Lemma messagesOf_afterSet {T} threadId p (w : Service T) k :
  messagesOf (afterSetStreamState threadId p w) k = messagesOf w k.
Proof. reflexivity. Qed.

(** C10. For every threadId, dismissStreamError returns normally and sets
    the error of that thread's stream state to undefined; the messageSoFar
    and streamingToken of that thread, the stream states of all other
    threads, the thread state (allThreads and currentThreadId) and the
    storage are unchanged, and the only event fired is one
    stream-state-changed event with that threadId. *)
Theorem dismissStreamError_frame {T} (w : Service T) (threadId : string) :
  let r := dismissStreamError threadId w in
  r.1 = Ok tt ∧
  streamField StreamEntry.error threadId r.2 = None ∧
  streamField StreamEntry.messageSoFar threadId r.2
    = streamField StreamEntry.messageSoFar threadId w ∧
  streamField StreamEntry.streamingToken threadId r.2
    = streamField StreamEntry.streamingToken threadId w ∧
  (∀ other, other ≠ threadId → streamState r.2 !! other = streamState w !! other) ∧
  state r.2 = state w ∧
  storedThreads r.2 = storedThreads w ∧
  storedVersion r.2 = storedVersion w ∧
  effects r.2 = effects w ++ [FireDidChangeStreamState threadId].
Proof.
  unfold dismissStreamError. rewrite _setStreamState_eq. cbn [fst snd].
  rewrite !streamField_afterSet. split_and!; try done.
  intros other Hne. unfold afterSetStreamState; simpl. by rewrite lookup_insert_ne.
Qed.

(** C5, as the code has it. When [threadId] names a thread that carries
    this id, appending a message returns normally; afterwards the thread's
    message list is the previous list followed by the message, its last
    message is the appended message, its lastModified is the time read
    during the call (not earlier than the previous value when the clock has
    not gone back behind it), the other threads are unchanged, the updated
    thread map is what the storage holds, and the map was stored before the
    current-thread-changed event fired. *)
Theorem addMessageToThread_appends {T} (env : Env T) (w : Service T)
    (threadId : string) (th : Thread.t T) (message : ChatMessage T) :
  obj_get (allThreads (state w)) threadId = Some th →
  Thread.id th = threadId →
  let r := _addMessageToThread env threadId message w in
  r.1 = Ok tt ∧
  ∃ th', obj_get (allThreads (state r.2)) threadId = Some th' ∧
    Thread.messages th' = Thread.messages th ++ [message] ∧
    last (Thread.messages th') = Some message ∧
    Thread.lastModified th' = clock env (clockReads w) ∧
    ((Thread.lastModified th ≤ clock env (clockReads w))%Z →
     (Thread.lastModified th ≤ Thread.lastModified th')%Z) ∧
    (∀ other, other ≠ threadId →
       obj_get (allThreads (state r.2)) other = obj_get (allThreads (state w)) other) ∧
    storedThreads r.2 = Some (allThreads (state r.2)) ∧
    effects r.2
      = effects w ++ [StoreThreads (allThreads (state r.2)); FireDidChangeCurrentThread].
Proof.
  intros Hget Hid r. subst r. rewrite (_addMessageToThread_eq _ _ _ _ _ Hget).
  cbn [fst snd]. split; [done|].
  unfold afterAddMessage, threadsWithMessage; cbn [state allThreads storedThreads effects].
  rewrite Hid.
  eexists. split; [apply obj_get_set_eq|]. cbn.
  split_and!; try done.
  - apply last_snoc.
  - intros other Hne. by apply obj_get_set_ne.
Qed.

(** *** Opening a thread *)

Lemma firstEmptyThread_Some {T} (threads : ChatThreads T) k :
  keysUnique threads = true → firstEmptyThread threads = Some k →
  ∃ th, obj_get threads k = Some th ∧ Thread.messages th = [].
Proof.
  induction threads as [|[k0 th0] threads IH]; simpl; [done|].
  rewrite andb_true_iff, negb_true_iff. intros [Hfresh Huniq].
  destruct (Nat.eqb_spec (length (Thread.messages th0)) 0) as [Hlen|Hlen].
  - intros [= <-]. rewrite String.eqb_refl. exists th0. split; [done|].
    by apply nil_length_inv.
  - intros Hfirst. destruct (IH Huniq Hfirst) as (th & Hget & Hempty).
    exists th. split; [|done].
    destruct (String.eqb_spec k0 k) as [->|]; [|done].
    by rewrite (obj_get_existsb _ _ _ Hget) in Hfresh.
Qed.

Lemma firstEmptyThread_None {T} (threads : ChatThreads T) :
  firstEmptyThread threads = None →
  ∀ k th, obj_get threads k = Some th → Thread.messages th ≠ [].
Proof.
  induction threads as [|[k0 th0] threads IH]; simpl; [done|].
  destruct (Nat.eqb_spec (length (Thread.messages th0)) 0) as [Hlen|Hlen]; [done|].
  intros Hfirst k th. destruct (String.eqb k0 k).
  - intros [= <-] Hnil. by rewrite Hnil in Hlen.
  - by apply IH.
Qed.

Lemma openNewThread_switch {T} (env : Env T) (w : Service T) k :
  firstEmptyThread (allThreads (state w)) = Some k →
  openNewThread env w =
    (Ok tt, add_effect (set_state w (mkThreadsState (allThreads (state w)) (Some k)))
                       FireDidChangeCurrentThread).
Proof. intros H. unfold openNewThread, bind, get. by rewrite H. Qed.

Lemma openNewThread_create {T} (env : Env T) (w : Service T) :
  firstEmptyThread (allThreads (state w)) = None →
  let newThread :=
    Thread.mk (pretty (clock env (S (clockReads w)))) (clock env (clockReads w))
      (clock env (clockReads w)) [] (Some defaultThreadState) in
  let newThreads := obj_set (allThreads (state w)) (Thread.id newThread) newThread in
  openNewThread env w =
    (Ok tt,
     mkService (mkThreadsState newThreads (Some (Thread.id newThread)))
       (streamState w) (storedVersion w) (Some newThreads)
       (effects w ++ [StoreThreads newThreads; FireDidChangeCurrentThread])
       (S (S (clockReads w))) (llmSends w) (toolRuns w)).
Proof.
  intros H. unfold openNewThread, bind, get. rewrite H.
  cbv [newThreadObject ret newDate _storeAllThreads _setState bind modify fire spread
       add_effect set_state set_storedThreads tick_clock p_allThreads p_currentThreadId
       state streamState storedVersion storedThreads effects clockReads llmSends toolRuns
       Thread.id].
  by rewrite <- app_assoc.
Qed.

(** C6. On a thread map with pairwise different keys, openNewThread returns
    normally.  When some thread has no message it switches to a thread
    without messages and neither changes nor stores the thread map; when
    every thread has a message it creates an empty thread whose id is the
    decimal form of the time it reads, stores the map extended by it and
    switches to it.  In either case currentThreadId then names a thread of
    allThreads. *)
Theorem openNewThread_spec {T} (env : Env T) (w : Service T) :
  keysUnique (allThreads (state w)) = true →
  let r := openNewThread env w in
  r.1 = Ok tt ∧
  (∀ k th, obj_get (allThreads (state w)) k = Some th → Thread.messages th = [] →
     ∃ k' th', currentThreadId (state r.2) = Some k' ∧
       obj_get (allThreads (state w)) k' = Some th' ∧ Thread.messages th' = [] ∧
       allThreads (state r.2) = allThreads (state w) ∧
       storedThreads r.2 = storedThreads w ∧
       clockReads r.2 = clockReads w) ∧
  ((∀ k th, obj_get (allThreads (state w)) k = Some th → Thread.messages th ≠ []) →
     let newId := pretty (clock env (S (clockReads w))) in
     let newThread :=
       Thread.mk newId (clock env (clockReads w)) (clock env (clockReads w)) []
         (Some defaultThreadState) in
     currentThreadId (state r.2) = Some newId ∧
     allThreads (state r.2) = obj_set (allThreads (state w)) newId newThread ∧
     obj_get (allThreads (state r.2)) newId = Some newThread ∧
     storedThreads r.2 = Some (allThreads (state r.2))) ∧
  (∃ k th, currentThreadId (state r.2) = Some k ∧
           obj_get (allThreads (state r.2)) k = Some th).
Proof.
  intros Huniq r. subst r.
  destruct (firstEmptyThread (allThreads (state w))) as [k0|] eqn:Hfirst.
  - rewrite (openNewThread_switch _ _ _ Hfirst). cbn [fst snd].
    destruct (firstEmptyThread_Some _ _ Huniq Hfirst) as (th0 & Hget0 & Hempty0).
    split_and!; [done | | | by exists k0, th0].
    + intros _ _ _ _. by exists k0, th0.
    + intros Hall. by destruct (Hall _ _ Hget0).
  - pose proof (openNewThread_create env w Hfirst) as E. cbv zeta in E. rewrite E.
    cbn [fst snd state allThreads currentThreadId storedThreads Thread.id].
    split_and!; [done | | | ].
    + intros k th Hget Hempty. by destruct (firstEmptyThread_None _ Hfirst _ _ Hget).
    + intros _. split_and!; [done | done | apply obj_get_set_eq | done].
    + eexists _, _. split; [done | apply obj_get_set_eq].
Qed.

(** *** Cancelling *)

Lemma abortsIn_app {T} (es es' : list (Effect T)) :
  abortsIn (es ++ es') = abortsIn es ++ abortsIn es'.
Proof. apply omap_app. Qed.

Lemma cancelStreaming_eq {T} (env : Env T) threadId (w : Service T) th :
  obj_get (allThreads (state w)) threadId = Some th →
  let w0 := match streamField StreamEntry.streamingToken threadId w with
            | Some token => add_effect w (AbortLLM token)
            | None => w
            end in
  cancelStreaming env threadId w =
    (Ok tt,
     afterSetStreamState threadId
       {| PartialEntry.messageSoFar := Some None;
          PartialEntry.streamingToken := Some None;
          PartialEntry.error := Some None |}
       (afterAddMessage env th
          (AssistantMessage
             (Some (default "" (streamField StreamEntry.messageSoFar threadId w)))
             (strOrNull (default "" (streamField StreamEntry.messageSoFar threadId w))))
          w0)).
Proof.
  intros Hget w0. unfold cancelStreaming, _finishStreamingTextMessage.
  unfold bind at 1. unfold get at 1. unfold bind at 1.
  assert (E : (match streamField StreamEntry.streamingToken threadId w with
               | Some llmCancelToken => fire (AbortLLM llmCancelToken)
               | None => ret tt
               end) w = (Ok tt, w0)).
  { subst w0. by destruct (streamField StreamEntry.streamingToken threadId w). }
  rewrite E. unfold bind at 1. unfold get at 1.
  assert (Hget0 : obj_get (allThreads (state w0)) threadId = Some th).
  { subst w0. by destruct (streamField StreamEntry.streamingToken threadId w). }
  assert (Hsofar : streamField StreamEntry.messageSoFar threadId w0
                   = streamField StreamEntry.messageSoFar threadId w).
  { subst w0. by destruct (streamField StreamEntry.streamingToken threadId w). }
  unfold bind. rewrite Hsofar, (_addMessageToThread_eq _ _ _ _ _ Hget0).
  by rewrite _setStreamState_eq.
Qed.

(** C2, as the code has it. When [threadId] names a thread that carries
    this id, cancelStreaming returns normally, aborts the stored streaming
    token if there is one, appends exactly one assistant message whose
    content is the accumulated messageSoFar (the empty string when there is
    none) and clears messageSoFar and streamingToken.  A second
    cancelStreaming on the same thread aborts nothing and leaves the two
    fields cleared, and appends one more assistant message, with empty
    content. *)
Theorem cancelStreaming_twice {T} (env : Env T) (w : Service T)
    (threadId : string) (th : Thread.t T) :
  obj_get (allThreads (state w)) threadId = Some th →
  Thread.id th = threadId →
  let content := default "" (streamField StreamEntry.messageSoFar threadId w) in
  let first := AssistantMessage (Some content) (strOrNull content) in
  let r1 := cancelStreaming env threadId w in
  let r2 := cancelStreaming env threadId r1.2 in
  r1.1 = Ok tt ∧
  abortsIn (effects r1.2)
    = abortsIn (effects w)
      ++ option_list (streamField StreamEntry.streamingToken threadId w) ∧
  messagesOf r1.2 threadId = Some (Thread.messages th ++ [first]) ∧
  streamField StreamEntry.messageSoFar threadId r1.2 = None ∧
  streamField StreamEntry.streamingToken threadId r1.2 = None ∧
  r2.1 = Ok tt ∧
  abortsIn (effects r2.2) = abortsIn (effects r1.2) ∧
  messagesOf r2.2 threadId
    = Some (Thread.messages th ++ [first; AssistantMessage (Some "") None]) ∧
  streamField StreamEntry.messageSoFar threadId r2.2 = None ∧
  streamField StreamEntry.streamingToken threadId r2.2 = None.
Proof.
  intros Hget Hid content first r1 r2.
  pose proof (cancelStreaming_eq env threadId w th Hget) as E1. cbv zeta in E1.
  fold content in E1. fold first in E1.
  set (w0 := match streamField StreamEntry.streamingToken threadId w with
             | Some token => add_effect w (AbortLLM token)
             | None => w
             end) in E1.
  assert (Hab0 : abortsIn (effects w0)
                 = abortsIn (effects w)
                   ++ option_list (streamField StreamEntry.streamingToken threadId w)).
  { subst w0. destruct (streamField StreamEntry.streamingToken threadId w); simpl.
    - by rewrite abortsIn_app.
    - by rewrite app_nil_r. }
  set (w1 := afterSetStreamState threadId _ (afterAddMessage env th first w0)) in E1.
  assert (Hr1 : r1 = (Ok tt, w1)) by (subst r1; exact E1).
  assert (Hm1 : messagesOf w1 threadId = Some (Thread.messages th ++ [first])).
  { subst w1. rewrite messagesOf_afterSet. by apply messagesOf_afterAdd. }
  assert (Hs1 : streamField StreamEntry.messageSoFar threadId w1 = None)
    by (subst w1; by rewrite streamField_afterSet).
  assert (Ht1 : streamField StreamEntry.streamingToken threadId w1 = None)
    by (subst w1; by rewrite streamField_afterSet).
  assert (Ha1 : abortsIn (effects w1) = abortsIn (effects w0)).
  { subst w1. unfold afterSetStreamState, afterAddMessage; simpl.
    rewrite !abortsIn_app. simpl. by rewrite !app_nil_r. }
  destruct (obj_get (allThreads (state w1)) threadId) as [th1|] eqn:Hget1;
    [|unfold messagesOf in Hm1; by rewrite Hget1 in Hm1].
  assert (Hmsgs1 : Thread.messages th1 = Thread.messages th ++ [first]).
  { unfold messagesOf in Hm1. rewrite Hget1 in Hm1. by injection Hm1. }
  assert (Hid1 : Thread.id th1 = threadId).
  { subst w1. unfold afterSetStreamState, afterAddMessage, threadsWithMessage in Hget1.
    simpl in Hget1. rewrite Hid, obj_get_set_eq in Hget1. by injection Hget1 as <-. }
  pose proof (cancelStreaming_eq env threadId w1 th1 Hget1) as E2. cbv zeta in E2.
  rewrite Hs1, Ht1 in E2. simpl default in E2.
  assert (Hr2 : r2 = (Ok tt, afterSetStreamState threadId
                 {| PartialEntry.messageSoFar := Some None;
                    PartialEntry.streamingToken := Some None;
                    PartialEntry.error := Some None |}
                 (afterAddMessage env th1 (AssistantMessage (Some "") (strOrNull "")) w1))).
  { subst r2. rewrite Hr1. exact E2. }
  rewrite Hr1, Hr2. cbn [fst snd].
  split_and!; try done.
  - by rewrite Ha1.
  - unfold afterSetStreamState, afterAddMessage at 1; simpl.
    rewrite !abortsIn_app. simpl. by rewrite !app_nil_r.
  - rewrite messagesOf_afterSet, (messagesOf_afterAdd _ _ _ _ _ Hid1), Hmsgs1.
    by rewrite <- app_assoc.
  - by rewrite streamField_afterSet.
  - by rewrite streamField_afterSet.
Qed.

(** *** Loading *)

Lemma _updatedThreadsToVersion_none {T} (threads : ChatThreads T) version :
  version ≠ Some "v1" → _updatedThreadsToVersion threads version = None.
Proof.
  destruct version as [v|]; [|done]. intros Hv. unfold _updatedThreadsToVersion.
  destruct (String.eqb v ""); [done|].
  destruct (String.eqb_spec v "v1") as [->|]; [done|].
  by destruct (String.eqb v "v2").
Qed.

Lemma openNewThread_ok {T} (env : Env T) (w : Service T) : (openNewThread env w).1 = Ok tt.
Proof.
  destruct (firstEmptyThread (allThreads (state w))) as [k|] eqn:E.
  - by rewrite (openNewThread_switch _ _ _ E).
  - pose proof (openNewThread_create env w E) as H. cbv zeta in H. by rewrite H.
Qed.

Lemma constructor_no_update {T} (env : Env T) version (threads : ChatThreads T) :
  _updatedThreadsToVersion threads version = None →
  constructor env (boot version (Some threads)) =
    (Ok tt,
     add_effect
       (set_storedVersion
          (openNewThread env
             (set_state (boot version (Some threads)) (mkThreadsState threads None))).2
          (Some LATEST_THREAD_VERSION))
       (StoreVersion LATEST_THREAD_VERSION)).
Proof.
  intros Hnone. unfold constructor, _readAllThreads.
  cbv [bind get ret modify boot storedVersion storedThreads]. rewrite Hnone.
  cbv [default]. fold (boot version (Some threads)).
  pose proof (openNewThread_ok env
                (set_state (boot version (Some threads)) (mkThreadsState threads None))) as Hok.
  destruct (openNewThread env _) as [r w']. simpl in Hok. by rewrite Hok.
Qed.

(** C3, as the code has it. When the stored version tag is absent, is the
    current version, or is any other tag that is not the prior version v1,
    migration returns no update (none) and the service starts on the loaded
    thread map: it is not reset to an empty map.  When some loaded thread is
    empty, the thread map after loading is the loaded one.  When no loaded
    thread is empty, it is the loaded one with a new empty thread set in
    under the id made from the clock: then every loaded thread under another
    key is there unchanged, and a loaded thread stored under that very id is
    replaced by the new thread.  The resulting map is what is stored, with
    the current version tag. *)
Theorem migration_keeps_threads {T} (env : Env T) (version : option string)
    (threads : ChatThreads T) :
  version ≠ Some "v1" →
  let r := constructor env (boot version (Some threads)) in
  let newThread :=
    Thread.mk (pretty (clock env 1)) (clock env 0) (clock env 0) []
      (Some defaultThreadState) in
  _updatedThreadsToVersion threads version = None ∧
  r.1 = Ok tt ∧
  allThreads (state r.2) =
    match firstEmptyThread threads with
    | Some _ => threads
    | None => obj_set threads (Thread.id newThread) newThread
    end ∧
  (∀ key thread,
     obj_get threads key = Some thread →
     firstEmptyThread threads ≠ None ∨ key ≠ Thread.id newThread →
     obj_get (allThreads (state r.2)) key = Some thread) ∧
  (firstEmptyThread threads = None →
   obj_get (allThreads (state r.2)) (Thread.id newThread) = Some newThread) ∧
  storedThreads r.2 = Some (allThreads (state r.2)) ∧
  storedVersion r.2 = Some LATEST_THREAD_VERSION.
Proof.
  intros Hv r newThread.
  pose proof (_updatedThreadsToVersion_none threads version Hv) as Hnone.
  subst r. rewrite (constructor_no_update _ _ _ Hnone). cbn [fst snd].
  set (w1 := set_state (boot version (Some threads)) (mkThreadsState threads None)).
  split; [done|]. split; [done|].
  destruct (firstEmptyThread threads) as [k|] eqn:E.
  - rewrite (openNewThread_switch env w1 k E). by split_and!.
  - pose proof (openNewThread_create env w1 E) as H. cbv zeta in H. rewrite H.
    cbn [snd add_effect set_storedVersion state allThreads storedThreads storedVersion].
    split_and!; try done.
    + intros key thread Hget [Hc|Hne]; [done|].
      rewrite obj_get_set_ne; [exact Hget | by intros Heq; apply Hne].
    + intros _. apply obj_get_set_eq.
Qed.

(** *** Editing *)

Lemma arr_get_Some_nonneg {V} (a : list V) (k : Z) v :
  arr_get a k = Some v → (0 ≤ k)%Z.
Proof. unfold arr_get. destruct (Z.ltb_spec k 0); [done | lia]. Qed.

Lemma slice0_nonneg {V} (a : list V) (k : Z) :
  (0 ≤ k)%Z → slice0 a k = take (Z.to_nat k) a.
Proof. intros H. unfold slice0. destruct (Z.ltb_spec k 0); [lia | done]. Qed.

Lemma isUser_Some {T} (m : option (ChatMessage T)) :
  isUser m = true → ∃ m', m = Some m'.
Proof. destruct m; [eauto | done]. Qed.

Lemma edit_no_thread {T} (env : Env T) fuel userMessage chatMode messageIdx (w : Service T) :
  getCurrentThread w = None →
  editUserMessageAndStreamResponse env fuel userMessage chatMode messageIdx w
  = (Throw TypeError, w).
Proof.
  intros H. unfold editUserMessageAndStreamResponse. cbv [bind get]. by rewrite H.
Qed.

Lemma edit_not_user {T} (env : Env T) fuel userMessage chatMode messageIdx
    (w : Service T) thread :
  getCurrentThread w = Some thread →
  isUser (arr_get (Thread.messages thread) messageIdx) = false →
  editUserMessageAndStreamResponse env fuel userMessage chatMode messageIdx w
  = (Throw EditNonUserError, w).
Proof.
  intros H Hu. unfold editUserMessageAndStreamResponse. cbv [bind get]. rewrite H.
  cbn [defined ret]. by rewrite Hu.
Qed.

(** The two parts of addUserMessageAndStreamResponse make the whole. *)
Lemma addUserMessageAndStreamResponse_split {T} (env : Env T) fuel userMessage chatMode
    chatSelections (w : Service T) :
  addUserMessageAndStreamResponse env fuel userMessage chatMode chatSelections w =
    (let* b := addUserMessageAndStreamResponse_begin chatSelections in
     addUserMessageAndStreamResponse_resume env fuel userMessage chatMode b.1.1 b.1.2 b.2) w.
Proof.
  cbv [addUserMessageAndStreamResponse addUserMessageAndStreamResponse_begin
       addUserMessageAndStreamResponse_resume _getAllSelections
       bind get defined ret throw].
  destruct (getCurrentThread w) as [thread|] eqn:Hcur; [|done].
  destruct chatSelections as [[[p|] [c|]]|]; cbn beta iota; rewrite ?Hcur;
    try done; by destruct (Thread.state thread).
Qed.

(** With both selections given, the first part only reads the id of the
    current thread. *)
Lemma addUserMessageAndStreamResponse_begin_given {T} (w : Service T) thread p c :
  getCurrentThread w = Some thread →
  addUserMessageAndStreamResponse_begin (Some (mkChatSelections (Some p) (Some c))) w
  = (Ok (Thread.id thread, p, c), w).
Proof.
  intros H. unfold addUserMessageAndStreamResponse_begin. cbv [bind get]. by rewrite H.
Qed.

(** The pending re-send, run where the current thread has the id it was
    started for, is addUserMessageAndStreamResponse with the selections
    given. *)
Lemma resume_given {T} (env : Env T) fuel userMessage chatMode (w : Service T) thread p c :
  getCurrentThread w = Some thread →
  addUserMessageAndStreamResponse_resume env fuel userMessage chatMode (Thread.id thread) p c w
  = addUserMessageAndStreamResponse env fuel userMessage chatMode
      (Some (mkChatSelections (Some p) (Some c))) w.
Proof.
  intros H. rewrite addUserMessageAndStreamResponse_split. unfold bind at 1.
  by rewrite (addUserMessageAndStreamResponse_begin_given w thread p c H).
Qed.

(** The state in which the edit returns. *)
Lemma getCurrentThread_truncated {T} (w : Service T) thread ms :
  getCurrentThread w = Some thread →
  ∃ current,
    getCurrentThread
      (add_effect
         (set_state w
            (mkThreadsState
               (obj_set (allThreads (state w)) (Thread.id thread)
                  (Thread.with_messages thread ms))
               (currentThreadId (state w))))
         FireDidChangeCurrentThread) = Some current ∧
    Thread.id current = Thread.id thread.
Proof.
  unfold getCurrentThread. cbn [state currentThreadId allThreads add_effect set_state].
  destruct (currentThreadId (state w)) as [key|]; [|done]. intros Hcur.
  destruct (decide (Thread.id thread = key)) as [Heq|Hne].
  - rewrite Heq, obj_get_set_eq. eauto.
  - rewrite obj_get_set_ne by done. eauto.
Qed.

Lemma edit_user {T} (env : Env T) fuel userMessage chatMode messageIdx
    (w : Service T) thread :
  getCurrentThread w = Some thread →
  isUser (arr_get (Thread.messages thread) messageIdx) = true →
  editUserMessageAndStreamResponse env fuel userMessage chatMode messageIdx w
  = (Ok (addUserMessageAndStreamResponse_resume env fuel userMessage chatMode
           (Thread.id thread)
           (flat_map selectionsOf (slice0 (Thread.messages thread) messageIdx))
           (from_option selectionsOf [] (arr_get (Thread.messages thread) messageIdx))),
     add_effect
       (set_state w
          (mkThreadsState
             (obj_set (allThreads (state w)) (Thread.id thread)
                (Thread.with_messages thread
                   (slice0 (Thread.messages thread) messageIdx)))
             (currentThreadId (state w))))
       FireDidChangeCurrentThread).
Proof.
  intros H Hu. unfold editUserMessageAndStreamResponse, _getSelectionsUpToMessageIdx.
  cbv [bind get]. rewrite H. cbn [defined ret]. rewrite Hu. cbn [negb]. rewrite H.
  cbv [_setState modify fire spread p_allThreads p_currentThreadId started
       defined ret bind].
  destruct (getCurrentThread_truncated w thread
              (slice0 (Thread.messages thread) messageIdx) H) as (current & Hc & Hid).
  rewrite (addUserMessageAndStreamResponse_begin_given _ current _ _ Hc).
  cbn [fst snd]. by rewrite Hid.
Qed.

(** C8. editUserMessageAndStreamResponse throws exactly when the message at
    messageIdx of the current thread is not a user message (or is missing),
    and then nothing has changed.  When it is a user message of a current
    thread that carries its key as id, the call returns normally, in a state
    in which the current thread's message list is its first messageIdx
    messages; the message is added and the send loop entered from there, by
    the re-send that the call leaves pending: running it in that state is
    running addUserMessageAndStreamResponse there with the selections of
    the kept messages and of the edited message. *)
Theorem editUserMessage_throws_iff {T} (env : Env T) (fuel : nat) (w : Service T)
    (userMessage : string) (chatMode : ChatMode.t) (messageIdx : Z) :
  let r := editUserMessageAndStreamResponse env fuel userMessage chatMode messageIdx w in
  ((∃ e, r.1 = Throw e) ↔ isUser (currentMessageAt w messageIdx) = false) ∧
  (isUser (currentMessageAt w messageIdx) = false → r.2 = w) ∧
  (∀ key thread,
     currentThreadId (state w) = Some key →
     obj_get (allThreads (state w)) key = Some thread →
     Thread.id thread = key →
     isUser (arr_get (Thread.messages thread) messageIdx) = true →
     let kept := take (Z.to_nat messageIdx) (Thread.messages thread) in
     let truncated :=
       add_effect
         (set_state w
            (mkThreadsState
               (obj_set (allThreads (state w)) key (Thread.with_messages thread kept))
               (Some key)))
         FireDidChangeCurrentThread in
     let selections :=
       mkChatSelections
         (Some (flat_map selectionsOf kept))
         (Some (from_option selectionsOf [] (arr_get (Thread.messages thread) messageIdx))) in
     let resend :=
       addUserMessageAndStreamResponse_resume env fuel userMessage chatMode key
         (flat_map selectionsOf kept)
         (from_option selectionsOf [] (arr_get (Thread.messages thread) messageIdx)) in
     messagesOf truncated key = Some kept ∧
     getCurrentThread truncated = Some (Thread.with_messages thread kept) ∧
     r = (Ok resend, truncated) ∧
     resend truncated
     = addUserMessageAndStreamResponse env fuel userMessage chatMode
         (Some selections) truncated).
Proof.
  intros r. unfold currentMessageAt.
  destruct (getCurrentThread w) as [thread|] eqn:Hcur.
  2:{ subst r. rewrite (edit_no_thread _ _ _ _ _ _ Hcur). cbn [fst snd].
      split_and!; [split; [done | eauto] | done |].
      intros key thread Hk Hget. unfold getCurrentThread in Hcur.
      rewrite Hk, Hget in Hcur. done. }
  destruct (isUser (arr_get (Thread.messages thread) messageIdx)) eqn:Huser.
  2:{ subst r. rewrite (edit_not_user _ _ _ _ _ _ _ Hcur Huser). cbn [fst snd].
      split_and!; [split; [done | eauto] | done |].
      intros key thread' Hk Hget _. unfold getCurrentThread in Hcur.
      rewrite Hk, Hget in Hcur. injection Hcur as ->. by rewrite Huser. }
  subst r. rewrite (edit_user _ _ _ _ _ _ _ Hcur Huser). cbn [fst snd].
  split_and!.
  - split; [by intros [e He] | done].
  - done.
  - intros key thread' Hk Hget Hid _.
    unfold getCurrentThread in Hcur. rewrite Hk, Hget in Hcur. injection Hcur as ->.
    destruct (isUser_Some _ Huser) as [m Hm].
    pose proof (arr_get_Some_nonneg _ _ _ Hm) as Hnn.
    rewrite (slice0_nonneg _ _ Hnn), Hid, Hk.
    set (kept := take (Z.to_nat messageIdx) (Thread.messages thread)).
    set (truncated := add_effect _ _).
    assert (Htr : getCurrentThread truncated = Some (Thread.with_messages thread kept)).
    { unfold getCurrentThread; simpl. by rewrite obj_get_set_eq. }
    split_and!.
    + unfold messagesOf; simpl. by rewrite obj_get_set_eq.
    + exact Htr.
    + done.
    + rewrite <- (resume_given env fuel userMessage chatMode truncated _ _ _ Htr).
      cbn [Thread.id Thread.with_messages]. by rewrite Hid.
Qed.

(** *** Tool calls *)

Lemma toolCallsIn_app {T} (es es' : list (Effect T)) :
  toolCallsIn (es ++ es') = toolCallsIn es ++ toolCallsIn es'.
Proof. apply omap_app. Qed.

Lemma sendsIn_app {T} (es es' : list (Effect T)) :
  sendsIn (es ++ es') = sendsIn es + sendsIn es'.
Proof. unfold sendsIn. by rewrite omap_app, length_app. Qed.

Section Turn.
Context {T : ToolSig} (env : Env T) (threadId : string).
Implicit Types (w : Service T) (th : Thread.t T).

Lemma turnFrame_refl w th :
  obj_get (allThreads (state w)) threadId = Some th → Thread.id th = threadId →
  turnFrame threadId w w [] [].
Proof.
  intros Hget Hid. split_and!; try done.
  - exists th, th. by rewrite app_nil_r.
  - by rewrite app_nil_r.
Qed.

Lemma turnFrame_trans w w1 w2 a1 a2 i1 i2 :
  turnFrame threadId w w1 a1 i1 → turnFrame threadId w1 w2 a2 i2 →
  turnFrame threadId w w2 (a1 ++ a2) (i1 ++ i2).
Proof.
  intros ((th & th1 & Hg & Hg1 & Hid1 & Hm1) & Hc1 & Ht1 & Hs1 & Hl1 & Hr1)
         ((th1' & th2 & Hg1' & Hg2 & Hid2 & Hm2) & Hc2 & Ht2 & Hs2 & Hl2 & Hr2).
  rewrite Hg1 in Hg1'. injection Hg1' as <-.
  split_and!.
  - exists th, th2. split_and!; try done. by rewrite Hm2, Hm1, app_assoc.
  - congruence.
  - by rewrite Ht2, Ht1, app_assoc.
  - congruence.
  - congruence.
  - rewrite Hr2, Hr1, length_app. lia.
Qed.

Lemma turnFrame_thread w w' a i :
  turnFrame threadId w w' a i →
  ∃ th', obj_get (allThreads (state w')) threadId = Some th' ∧ Thread.id th' = threadId.
Proof. intros ((th & th' & _ & Hg & Hid & _) & _). eauto. Qed.

Lemma turnFrame_addMessage w th m :
  obj_get (allThreads (state w)) threadId = Some th → Thread.id th = threadId →
  turnFrame threadId w (afterAddMessage env th m w) [m] [].
Proof.
  intros Hget Hid. unfold afterAddMessage, threadsWithMessage. split_and!; simpl.
  - eexists th, _. split_and!; [done | rewrite Hid; apply obj_get_set_eq | done | done].
  - done.
  - by rewrite toolCallsIn_app.
  - rewrite sendsIn_app. simpl. unfold sendsIn at 2. simpl. lia.
  - done.
  - lia.
Qed.

Lemma turnFrame_setStream w th k p :
  obj_get (allThreads (state w)) threadId = Some th → Thread.id th = threadId →
  turnFrame threadId w (afterSetStreamState k p w) [] [].
Proof.
  intros Hget Hid. unfold afterSetStreamState. split_and!; simpl.
  - exists th, th. by rewrite app_nil_r.
  - done.
  - by rewrite toolCallsIn_app.
  - rewrite sendsIn_app. unfold sendsIn at 2. simpl. lia.
  - done.
  - lia.
Qed.

Lemma turnFrame_callTool w th name params :
  obj_get (allThreads (state w)) threadId = Some th → Thread.id th = threadId →
  turnFrame threadId w (tick_tool (add_effect w (CallTool name params))) []
    [(name, params)].
Proof.
  intros Hget Hid. split_and!; simpl.
  - exists th, th. by rewrite app_nil_r.
  - done.
  - by rewrite toolCallsIn_app.
  - rewrite sendsIn_app. unfold sendsIn at 2. simpl. lia.
  - done.
  - lia.
Qed.

Lemma runToolCalls_cons_fail tool rest should w error :
  toolOutcome env (toolRuns w) tool = inl error →
  runToolCalls env threadId (tool :: rest) should w =
    (Ok false,
     afterSetStreamState threadId (errorOnly error)
       (tick_tool (add_effect w (CallTool (ToolCall.name tool) (ToolCall.params tool))))).
Proof.
  unfold toolOutcome. intros H. cbn [runToolCalls]. cbv [bind get fire modify].
  destruct (toolFns env (toolRuns w) (ToolCall.name tool) (ToolCall.params tool))
    as [e|v].
  - injection H as ->. by rewrite _setStreamState_eq.
  - destruct (toolResultToString env (ToolCall.name tool) v) as [e|str]; [|done].
    injection H as ->. by rewrite _setStreamState_eq.
Qed.

Lemma runToolCalls_cons_ok tool rest should w th str val :
  toolOutcome env (toolRuns w) tool = inr (str, val) →
  obj_get (allThreads (state w)) threadId = Some th →
  runToolCalls env threadId (tool :: rest) should w =
    runToolCalls env threadId rest true
      (afterAddMessage env th
         (ToolMessage (ToolCall.name tool) (ToolCall.params tool) (ToolCall.id tool)
            str val)
         (tick_tool (add_effect w (CallTool (ToolCall.name tool) (ToolCall.params tool))))).
Proof.
  unfold toolOutcome. intros H Hget. cbn [runToolCalls]. cbv [bind get fire modify].
  destruct (toolFns env (toolRuns w) (ToolCall.name tool) (ToolCall.params tool))
    as [e|v]; [done|].
  destruct (toolResultToString env (ToolCall.name tool) v) as [e|s']; [done|].
  injection H as -> ->.
  by rewrite (_addMessageToThread_eq env threadId _ _ th).
Qed.


(** The calls [pre] succeed and the next one fails: the loop stops there
    with [shouldSendAnotherMessage] false and the error recorded. *)
Lemma runToolCalls_failure pre bad post w th should msgs error :
  obj_get (allThreads (state w)) threadId = Some th → Thread.id th = threadId →
  toolMessages env (toolRuns w) pre = Some msgs →
  toolOutcome env (toolRuns w + length pre) bad = inl error →
  ∃ w', runToolCalls env threadId (pre ++ bad :: post) should w = (Ok false, w')
        ∧ turnFrame threadId w w' msgs (map invocation (pre ++ [bad]))
        ∧ streamField StreamEntry.error threadId w' = Some error.
Proof.
  revert w th should msgs; induction pre as [|tool pre IH];
    intros w th should msgs Hget Hid Hmsgs Hbad.
  - injection Hmsgs as <-. rewrite Nat.add_0_r in Hbad. cbn [app].
    rewrite (runToolCalls_cons_fail _ _ _ _ _ Hbad).
    eexists. split; [done|]. split; [|by rewrite streamField_afterSet].
    pose proof (turnFrame_callTool w th (ToolCall.name bad) (ToolCall.params bad)
                  Hget Hid) as F1.
    destruct (turnFrame_thread _ _ _ _ F1) as (th1 & Hget1 & Hid1).
    exact (turnFrame_trans _ _ _ _ _ _ _ F1
             (turnFrame_setStream _ th1 threadId (errorOnly error) Hget1 Hid1)).
  - cbn [toolMessages] in Hmsgs.
    destruct (toolOutcome env (toolRuns w) tool) as [|[str val]] eqn:Hout; [done|].
    destruct (toolMessages env (S (toolRuns w)) pre) as [ms|] eqn:Hrest; [|done].
    injection Hmsgs as <-. cbn [app].
    rewrite (runToolCalls_cons_ok _ _ _ _ _ _ _ Hout Hget).
    pose proof (turnFrame_callTool w th (ToolCall.name tool) (ToolCall.params tool)
                  Hget Hid) as F1.
    set (w1 := tick_tool (add_effect w _)) in *.
    pose proof (turnFrame_addMessage w1 th
                  (ToolMessage (ToolCall.name tool) (ToolCall.params tool)
                     (ToolCall.id tool) str val) Hget Hid) as F2.
    set (w2 := afterAddMessage env th _ w1) in *.
    destruct (turnFrame_thread _ _ _ _ F2) as (th2 & Hget2 & Hid2).
    assert (Hbad2 : toolOutcome env (toolRuns w2 + length pre) bad = inl error).
    { replace (toolRuns w2 + length pre) with (toolRuns w + length (tool :: pre)); [done|].
      subst w2 w1. simpl. lia. }
    destruct (IH w2 th2 true ms Hget2 Hid2 Hrest Hbad2) as (w' & E & F3 & Herr).
    exists w'. split; [done|]. split; [|done].
    exact (turnFrame_trans _ _ _ _ _ _ _ (turnFrame_trans _ _ _ _ _ _ _ F1 F2) F3).
Qed.

Lemma onTexts_frame fullTexts w th :
  obj_get (allThreads (state w)) threadId = Some th → Thread.id th = threadId →
  ∃ w', onTexts threadId fullTexts w = (Ok tt, w') ∧ turnFrame threadId w w' [] [].
Proof.
  revert w; induction fullTexts as [|t rest IH]; intros w Hget Hid.
  - exists w. split; [done | by eapply turnFrame_refl].
  - cbn [onTexts]. unfold bind. rewrite _setStreamState_eq.
    set (p := PartialEntry.mk _ _ _).
    destruct (IH (afterSetStreamState threadId p w) Hget Hid) as (w' & E & F).
    exists w'. split; [exact E|].
    exact (turnFrame_trans _ _ _ _ _ _ _ (turnFrame_setStream w th threadId p Hget Hid) F).
Qed.

Lemma onFinalMessage_calls fullText calls w th :
  calls ≠ [] →
  obj_get (allThreads (state w)) threadId = Some th →
  onFinalMessage env threadId fullText (Some calls) w =
    runToolCalls env threadId calls false
      (afterSetStreamState threadId
         {| PartialEntry.messageSoFar := Some None;
            PartialEntry.error := None;
            PartialEntry.streamingToken := None |}
         (afterAddMessage env th (AssistantMessage (Some fullText) (Some fullText)) w)).
Proof.
  intros Hne Hget. destruct calls as [|c calls]; [done|].
  unfold onFinalMessage, bind.
  by rewrite (_addMessageToThread_eq env threadId _ _ th Hget), _setStreamState_eq.
Qed.

(** One iteration of the loop whose request is answered by a final
    message. *)
Lemma agentLoop_final fuel full tools w th token fullTexts fullText toolCalls :
  getCurrentThread w = Some th →
  sendLLMMessage env (llmSends w) (requestMessages env full (Thread.messages th)) tools
    = Streamed token fullTexts (FinalMessage fullText toolCalls) →
  agentLoop env threadId full tools (S fuel) w =
    (onTexts threadId fullTexts >>
     let* shouldSendAnotherMessage := onFinalMessage env threadId fullText toolCalls in
     if shouldSendAnotherMessage
     then agentLoop env threadId full tools fuel
     else ret Finished)
      (afterSetStreamState threadId
         {| PartialEntry.streamingToken := Some (Some token);
            PartialEntry.error := None;
            PartialEntry.messageSoFar := None |}
         (tick_llm
            (add_effect w
               (SendLLM (requestMessages env full (Thread.messages th)) tools)))).
Proof.
  intros Hcur Hllm. cbn [agentLoop]. unfold bind at 1. unfold get at 1.
  unfold bind at 1. rewrite Hcur. cbn [defined ret].
  unfold bind at 1. unfold fire at 1. unfold modify at 1.
  unfold bind at 1. unfold modify at 1. rewrite Hllm.
  unfold bind at 1. by rewrite _setStreamState_eq.
Qed.

(** C4. A request of the agent loop for the turn of thread [threadId],
    sent while [current] is the current thread, is answered by a final
    message with the tool calls [pre ++ bad :: post], where the calls of
    [pre] succeed and [bad] fails, in the tool itself or in the conversion
    of its result to a string.  Then the loop finishes, whatever budget of
    iterations it has left; the tools invoked are those of [pre] and then
    [bad], in the order received, and none of [post]; this request is the
    only one sent; the error is in the stream state of the thread; and the
    thread holds its previous messages, the assistant message and the tool
    messages of [pre]. *)
Theorem tool_failure_halts_turn (w : Service T) (current th : Thread.t T)
    (full : string) (tools : option (list (InternalToolInfo T))) (fuel : nat)
    (token : string) (fullTexts : list string) (fullText : string)
    (pre : list ToolCall.t) (bad : ToolCall.t) (post : list ToolCall.t)
    (msgs : list (ChatMessage T)) (error : StreamError) :
  getCurrentThread w = Some current →
  obj_get (allThreads (state w)) threadId = Some th →
  Thread.id th = threadId →
  sendLLMMessage env (llmSends w) (requestMessages env full (Thread.messages current)) tools
    = Streamed token fullTexts (FinalMessage fullText (Some (pre ++ bad :: post))) →
  toolMessages env (toolRuns w) pre = Some msgs →
  toolOutcome env (toolRuns w + length pre) bad = inl error →
  let r := agentLoop env threadId full tools (S fuel) w in
  r.1 = Ok Finished ∧
  toolCallsIn (effects r.2) = toolCallsIn (effects w) ++ map invocation (pre ++ [bad]) ∧
  sendsIn (effects r.2) = S (sendsIn (effects w)) ∧
  llmSends r.2 = S (llmSends w) ∧
  streamField StreamEntry.error threadId r.2 = Some error ∧
  messagesOf r.2 threadId
    = Some (Thread.messages th
            ++ [AssistantMessage (Some fullText) (Some fullText)] ++ msgs).
Proof.
  intros Hth Hget Hid Hllm Hpre Hbad r.
  pose proof (agentLoop_final fuel _ _ _ _ _ _ _ _ Hth Hllm) as Estep.
  set (ws := tick_llm (add_effect w _)) in Estep.
  assert (Hgets : obj_get (allThreads (state ws)) threadId = Some th) by done.
  set (pt := PartialEntry.mk _ _ _) in Estep.
  pose proof (turnFrame_setStream ws th threadId pt Hgets Hid) as F1.
  set (wa := afterSetStreamState threadId pt ws) in *.
  destruct (turnFrame_thread _ _ _ _ F1) as (tha & Hgeta & Hida).
  destruct (onTexts_frame fullTexts wa tha Hgeta Hida) as (wb & Eb & F2).
  destruct (turnFrame_thread _ _ _ _ F2) as (thb & Hgetb & Hidb).
  assert (Hne : pre ++ bad :: post ≠ []) by (by destruct pre).
  pose proof (onFinalMessage_calls fullText _ wb thb Hne Hgetb) as Efinal.
  pose proof (turnFrame_addMessage wb thb
                (AssistantMessage (Some fullText) (Some fullText)) Hgetb Hidb) as F3.
  set (wc := afterAddMessage env thb _ wb) in *.
  destruct (turnFrame_thread _ _ _ _ F3) as (thc & Hgetc & Hidc).
  set (pm := PartialEntry.mk _ _ _) in Efinal.
  pose proof (turnFrame_setStream wc thc threadId pm Hgetc Hidc) as F4.
  set (wd := afterSetStreamState threadId pm wc) in *.
  destruct (turnFrame_thread _ _ _ _ F4) as (thd & Hgetd & Hidd).
  pose proof (turnFrame_trans _ _ _ _ _ _ _
                (turnFrame_trans _ _ _ _ _ _ _
                   (turnFrame_trans _ _ _ _ _ _ _ F1 F2) F3) F4) as F14.
  cbn [app] in F14.
  assert (Hruns : toolRuns wd = toolRuns w).
  { destruct F14 as (_ & _ & _ & _ & _ & ->). simpl. lia. }
  rewrite <- Hruns in Hpre, Hbad.
  destruct (runToolCalls_failure pre bad post wd thd false msgs error
              Hgetd Hidd Hpre Hbad) as (w' & E & F5 & Herr).
  assert (Er : r = (Ok Finished, w')).
  { subst r. rewrite Estep. unfold bind at 1. rewrite Eb. unfold bind at 1.
    by rewrite Efinal, E. }
  rewrite Er. cbn [fst snd].
  pose proof (turnFrame_trans _ _ _ _ _ _ _ F14 F5) as F.
  destruct F as ((ths & th' & Hgs & Hg' & _ & Hmsgs) & _ & Hcalls & Hsends & Hllms & _).
  rewrite Hgets in Hgs. injection Hgs as <-.
  split_and!.
  - done.
  - rewrite Hcalls. subst ws. simpl. by rewrite toolCallsIn_app, app_nil_r.
  - rewrite Hsends. subst ws. simpl. rewrite sendsIn_app. unfold sendsIn at 2. simpl. lia.
  - rewrite Hllms. done.
  - done.
  - unfold messagesOf. rewrite Hg'. simpl. by rewrite Hmsgs.
Qed.
End Turn.

(** *** Thread maps stay well formed

    The hypotheses on keys and ids in the statements above hold in every
    state the service builds from a well-formed storage. *)

Lemma existsb_key_set {V} (o : list (string * V)) k k' v :
  existsb (fun kv => String.eqb kv.1 k') (obj_set o k v)
  = existsb (fun kv => String.eqb kv.1 k') o || String.eqb k k'.
Proof.
  induction o as [|[k0 v0] o IH]; simpl.
  - by rewrite orb_false_r.
  - destruct (String.eqb_spec k0 k) as [->|Hne]; simpl.
    + destruct (String.eqb k k'); simpl; [done | by rewrite orb_false_r].
    + rewrite IH. by rewrite orb_assoc.
Qed.

Lemma keysUnique_set {V} (o : list (string * V)) k v :
  keysUnique o = true → keysUnique (obj_set o k v) = true.
Proof.
  induction o as [|[k0 v0] o IH]; simpl; [done|].
  rewrite andb_true_iff, negb_true_iff. intros [Hfresh Huniq].
  destruct (String.eqb_spec k0 k) as [->|Hne]; simpl.
  - by rewrite Hfresh, Huniq.
  - rewrite existsb_key_set, Hfresh, IH by done.
    destruct (String.eqb_spec k k0) as [->|]; [done|]. done.
Qed.

Lemma wellFormed_get {T} (o : ChatThreads T) k th :
  wellFormed o = true → obj_get o k = Some th → Thread.id th = k.
Proof.
  unfold wellFormed. rewrite andb_true_iff. intros [_ Hids].
  induction o as [|[k0 th0] o IH]; simpl in *; [done|].
  apply andb_true_iff in Hids as [Hid0 Hids].
  destruct (String.eqb_spec k0 k) as [->|Hne].
  - intros [= <-]. by apply String.eqb_eq.
  - by apply IH.
Qed.

Lemma idsMatch_set {T} (o : ChatThreads T) k v :
  forallb (fun kv => String.eqb (Thread.id kv.2) kv.1) o = true →
  Thread.id v = k →
  forallb (fun kv => String.eqb (Thread.id kv.2) kv.1) (obj_set o k v) = true.
Proof.
  intros Hids Hid. induction o as [|[k0 th0] o IH]; simpl in *.
  - by rewrite Hid, String.eqb_refl.
  - apply andb_true_iff in Hids as [Hid0 Hids].
    destruct (String.eqb_spec k0 k) as [->|Hne]; simpl.
    + by rewrite Hid, String.eqb_refl, Hids.
    + by rewrite Hid0, IH.
Qed.

Lemma wellFormed_set {T} (o : ChatThreads T) k v :
  wellFormed o = true → Thread.id v = k → wellFormed (obj_set o k v) = true.
Proof.
  unfold wellFormed. rewrite !andb_true_iff. intros [Hu Hids] Hid.
  split; [by apply keysUnique_set | by apply idsMatch_set].
Qed.

Lemma wellFormed_addMessage {T} (env : Env T) th m (w : Service T) :
  wellFormed (allThreads (state w)) = true →
  wellFormed (allThreads (state (afterAddMessage env th m w))) = true.
Proof. intros H. by apply wellFormed_set. Qed.

Lemma wellFormed_openNewThread {T} (env : Env T) (w : Service T) :
  wellFormed (allThreads (state w)) = true →
  wellFormed (allThreads (state (openNewThread env w).2)) = true.
Proof.
  intros H. destruct (firstEmptyThread (allThreads (state w))) as [k|] eqn:E.
  - by rewrite (openNewThread_switch _ _ _ E).
  - pose proof (openNewThread_create env w E) as Eq. cbv zeta in Eq. rewrite Eq.
    by apply wellFormed_set.
Qed.

Lemma wellFormed_migrate {T} (threads : ChatThreads T) :
  wellFormed threads = true →
  wellFormed (map (fun kv => (kv.1, migrateThread kv.2)) threads) = true.
Proof.
  unfold wellFormed. rewrite !andb_true_iff. intros [Hu Hids]. split.
  - clear Hids. induction threads as [|[k0 th0] o IH]; simpl in *; [done|].
    apply andb_true_iff in Hu as [Hfresh Hu]. rewrite IH by done.
    rewrite andb_true_r. rewrite negb_true_iff in *.
    clear IH Hu. induction o as [|[k1 th1] o IH]; simpl in *; [done|].
    apply orb_false_iff in Hfresh as [-> Hfresh]. by rewrite IH.
  - clear Hu. induction threads as [|[k0 th0] o IH]; simpl in *; [done|].
    apply andb_true_iff in Hids as [Hid0 Hids]. rewrite IH by done.
    rewrite andb_true_r. by destruct (Thread.state th0).
Qed.

(** The service starts well formed on a well-formed storage, whatever the
    stored version tag. *)
Lemma wellFormed_constructor {T} (env : Env T) version (threads : ChatThreads T) :
  wellFormed threads = true →
  wellFormed (allThreads (state (constructor env (boot version (Some threads))).2)) = true.
Proof.
  intros H. unfold constructor, _readAllThreads.
  cbv [bind get ret modify boot storedVersion storedThreads].
  set (updated := _updatedThreadsToVersion threads version).
  assert (Hall : wellFormed (default threads updated) = true).
  { subst updated. unfold _updatedThreadsToVersion.
    destruct version as [v|]; [|done].
    destruct (String.eqb v ""); [done|].
    destruct (String.eqb v "v1"); [by apply wellFormed_migrate|].
    by destruct (String.eqb v "v2"). }
  destruct updated as [u|]; cbn [default] in *.
  - unfold _storeAllThreads at 1. unfold modify at 1.
    match goal with
    | |- context [openNewThread env ?w0] =>
        pose proof (wellFormed_openNewThread env w0 Hall) as Hopen;
        pose proof (openNewThread_ok env w0) as Hok;
        destruct (openNewThread env w0) as [r w']
    end.
    simpl in Hok. by rewrite Hok.
  - match goal with
    | |- context [openNewThread env ?w0] =>
        pose proof (wellFormed_openNewThread env w0 Hall) as Hopen;
        pose proof (openNewThread_ok env w0) as Hok;
        destruct (openNewThread env w0) as [r w']
    end.
    simpl in Hok. by rewrite Hok.
Qed.

(** Every method of the service keeps the thread map well formed. *)
Section Invariant.
Context {T : ToolSig} (env : Env T).
Implicit Types (w : Service T).

Local Abbreviation keeps := (preserves (T := T) wellFormedService).

Lemma keeps_ret {A} (a : A) : keeps (ret a).
Proof. by intros w. Qed.

Lemma keeps_throw {A} e : keeps (throw (A := A) e).
Proof. by intros w. Qed.

Lemma keeps_bind {A B} (m : M T A) (k : A → M T B) :
  keeps m → (∀ a, keeps (k a)) → keeps (bind m k).
Proof.
  intros Hm Hk w Hw. unfold bind. specialize (Hm w Hw).
  destruct (m w) as [[a|e] w']; simpl in *; [by apply Hk | done].
Qed.

(** A computation that starts by reading the instance. *)
Lemma keeps_get {A} (k : Service T → M T A) :
  (∀ w, wellFormedService w → wellFormedService (k w w).2) → keeps (bind get k).
Proof. intros Hk w Hw. by apply Hk. Qed.

Lemma keeps_notAwaited {A} (m : M T A) : keeps m → keeps (notAwaited m).
Proof. intros Hm w Hw. by apply Hm. Qed.

Lemma keeps_defined {A} (o : option A) : keeps (defined o).
Proof. destruct o; [apply keeps_ret | apply keeps_throw]. Qed.

Lemma keeps_fire e : keeps (fire e).
Proof. by intros w. Qed.

Lemma keeps_setStreamState k p : keeps (_setStreamState k p).
Proof. by intros w. Qed.

Lemma keeps_addMessage k m : keeps (_addMessageToThread env k m).
Proof.
  intros w Hw. destruct (obj_get (allThreads (state w)) k) as [th|] eqn:E.
  - rewrite (_addMessageToThread_eq _ _ _ _ _ E). by apply wellFormed_addMessage.
  - by rewrite (_addMessageToThread_missing _ _ _ _ E).
Qed.

Lemma keeps_finish k content error : keeps (_finishStreamingTextMessage env k content error).
Proof.
  apply keeps_bind; [apply keeps_addMessage | intros _; apply keeps_setStreamState].
Qed.

Lemma keeps_onError k error : keeps (onError env k error).
Proof. apply keeps_get. intros w Hw. by apply keeps_finish. Qed.

Lemma keeps_cancelStreaming k : keeps (cancelStreaming env k).
Proof.
  apply keeps_get. intros w Hw. apply keeps_bind; [|intros _| done].
  - destruct (streamField _ _ _); [apply keeps_fire | apply keeps_ret].
  - apply keeps_get. intros w' Hw'. by apply keeps_finish.
Qed.

Lemma keeps_dismissStreamError k : keeps (dismissStreamError k).
Proof. apply keeps_setStreamState. Qed.

Lemma keeps_switchToThread k : keeps (switchToThread k).
Proof. by intros w. Qed.

Lemma keeps_openNewThread : keeps (openNewThread env).
Proof. intros w Hw. by apply wellFormed_openNewThread. Qed.

Lemma keeps_onTexts k fullTexts : keeps (onTexts k fullTexts).
Proof.
  induction fullTexts as [|t rest IH]; [apply keeps_ret|].
  apply keeps_bind; [apply keeps_setStreamState | by intros _].
Qed.

Lemma keeps_runToolCalls k calls should : keeps (runToolCalls env k calls should).
Proof.
  revert should; induction calls as [|tool calls IH]; intros should; [apply keeps_ret|].
  cbn [runToolCalls]. apply keeps_get. intros w Hw.
  apply keeps_bind; [apply keeps_fire | intros _ | done].
  apply keeps_bind; [by intros w' | intros _].
  destruct (toolFns env _ _ _) as [e|v].
  { apply keeps_bind; [apply keeps_setStreamState | intros _; apply keeps_ret]. }
  destruct (toolResultToString env _ v) as [e|str].
  { apply keeps_bind; [apply keeps_setStreamState | intros _; apply keeps_ret]. }
  apply keeps_bind; [apply keeps_addMessage | by intros _].
Qed.

Lemma keeps_onFinalMessage k fullText toolCalls :
  keeps (onFinalMessage env k fullText toolCalls).
Proof.
  assert (Hfin : keeps (_finishStreamingTextMessage env k fullText None >> ret false))
    by (apply keeps_bind; [apply keeps_finish | intros _; apply keeps_ret]).
  destruct toolCalls as [[|c calls]|]; [done | | done].
  apply keeps_bind; [apply keeps_addMessage | intros _].
  apply keeps_bind; [apply keeps_setStreamState | intros _; apply keeps_runToolCalls].
Qed.

Lemma keeps_agentLoop k full tools fuel : keeps (agentLoop env k full tools fuel).
Proof.
  induction fuel as [|fuel IH]; [apply keeps_ret|].
  cbn [agentLoop]. apply keeps_get. intros w Hw.
  apply keeps_bind; [apply keeps_defined | intros thread | done].
  apply keeps_bind; [apply keeps_fire | intros _].
  apply keeps_bind; [by intros w' | intros _].
  destruct (sendLLMMessage env _ _ _) as [error|token fullTexts outcome].
  { apply keeps_bind; [|intros _; apply keeps_ret].
    destruct error; [apply keeps_onError | apply keeps_ret]. }
  apply keeps_bind; [apply keeps_setStreamState | intros _].
  apply keeps_bind; [apply keeps_onTexts | intros _].
  destruct outcome as [fullText toolCalls|error|].
  - apply keeps_bind; [apply keeps_onFinalMessage | intros [|]; [done | apply keeps_ret]].
  - apply keeps_bind; [apply keeps_onError | intros _; apply keeps_ret].
  - apply keeps_ret.
Qed.

Lemma keeps_getAllSelections : keeps (_getAllSelections (T := T)).
Proof.
  apply keeps_get. intros w Hw.
  apply keeps_bind; [apply keeps_defined | intros ?; apply keeps_ret | done].
Qed.

Lemma keeps_addUserMessage fuel userMessage chatMode chatSelections :
  keeps (addUserMessageAndStreamResponse env fuel userMessage chatMode chatSelections).
Proof.
  apply keeps_get. intros w Hw.
  apply keeps_bind; [apply keeps_defined | intros thread | done].
  apply keeps_bind.
  { destruct chatSelections as [[[p|] c]|];
      first [apply keeps_ret | apply keeps_getAllSelections]. }
  intros prev. apply keeps_bind.
  { destruct chatSelections as [[p [c|]]|]; try apply keeps_ret;
      (apply keeps_bind; [apply keeps_defined | intros ?; apply keeps_ret]). }
  intros curr.
  apply keeps_bind; [apply keeps_addMessage | intros _].
  apply keeps_bind; [apply keeps_setStreamState | intros _].
  apply keeps_notAwaited, keeps_agentLoop.
Qed.

Lemma keeps_editUserMessage fuel userMessage chatMode messageIdx :
  keeps (editUserMessageAndStreamResponse env fuel userMessage chatMode messageIdx).
Proof.
  intros w Hw. destruct (getCurrentThread w) as [thread|] eqn:Hcur.
  2:{ by rewrite (edit_no_thread _ _ _ _ _ _ Hcur). }
  destruct (isUser (arr_get (Thread.messages thread) messageIdx)) eqn:Huser.
  2:{ by rewrite (edit_not_user _ _ _ _ _ _ _ Hcur Huser). }
  rewrite (edit_user _ _ _ _ _ _ _ Hcur Huser). cbn [snd].
  by apply wellFormed_set.
Qed.

Lemma keeps_resume fuel userMessage chatMode threadId prevSelns currSelns :
  keeps (addUserMessageAndStreamResponse_resume env fuel userMessage chatMode
           threadId prevSelns currSelns).
Proof.
  apply keeps_bind; [apply keeps_addMessage | intros _].
  apply keeps_bind; [apply keeps_setStreamState | intros _].
  apply keeps_notAwaited, keeps_agentLoop.
Qed.
End Invariant.

(** Running the v1 migration on its own result changes nothing more. *)
Lemma migrateThread_idempotent {T} (th : Thread.t T) :
  migrateThread (migrateThread th) = migrateThread th.
Proof.
  destruct th as [k c l ms st]. unfold migrateThread; simpl.
  assert (Hms : map migrateMessage (map migrateMessage ms) = map migrateMessage ms).
  { induction ms as [|m ms IH]; simpl; [done|]. rewrite IH. f_equal.
    destruct m as [| ? ? ? [?|] | |]; done. }
  destruct st; simpl; by rewrite Hms.
Qed.

(** *** The statements at work *)

(** Appending to the empty thread of the started service. *)
Lemma addMessageToThread_appends_witness :
  ∃ th,
    obj_get (allThreads (state sampleStarted)) "1001" = Some th ∧
    Thread.id th = "1001" ∧
    (_addMessageToThread sampleStreamingEnv "1001" (AssistantMessage (Some "a") (Some "a"))
       sampleStarted).1 = Ok tt.
Proof.
  eexists. split; [by vm_compute|]. split; [reflexivity|].
  eapply (addMessageToThread_appends sampleStreamingEnv sampleStarted "1001");
    by vm_compute.
Defined.

(** C5 as stated fails on lastModified: the stored thread was last modified
    at time 5000 and the clock of this machine reads 1002 when the message
    is appended, so that lastModified goes back. *)
Lemma addMessage_lastModified_goes_back :
  ∃ th th',
    obj_get (allThreads (state sampleReloaded)) "7" = Some th ∧
    obj_get (allThreads (state
       (_addMessageToThread sampleStreamingEnv "7" (AssistantMessage (Some "a") (Some "a"))
          sampleReloaded).2)) "7" = Some th' ∧
    ¬ (Thread.lastModified th ≤ Thread.lastModified th')%Z.
Proof.
  eexists _, _. split; [by vm_compute|]. split; [by vm_compute|].
  vm_compute. intros H. by apply H.
Qed.

(** Cancelling on the service whose answer is streaming. *)
Lemma cancelStreaming_twice_witness :
  ∃ th,
    obj_get (allThreads (state sampleStreaming)) "1001" = Some th ∧
    Thread.id th = "1001" ∧
    (cancelStreaming sampleStreamingEnv "1001" sampleStreaming).1 = Ok tt.
Proof.
  eexists. split; [by vm_compute|]. split; [reflexivity|].
  eapply (cancelStreaming_twice sampleStreamingEnv sampleStreaming "1001");
    by vm_compute.
Defined.

(** C2 as stated fails on the second call: while the answer to "hi" is
    streaming, a first cancelStreaming appends the partial text and a second
    one appends another, empty assistant message. *)
Lemma cancelStreaming_again_appends :
  let w1 := (cancelStreaming sampleStreamingEnv "1001" sampleStreaming).2 in
  let w2 := (cancelStreaming sampleStreamingEnv "1001" w1).2 in
  length <$> messagesOf w1 "1001" = Some 2 ∧
  length <$> messagesOf w2 "1001" = Some 3 ∧
  messagesOf w2 "1001" ≠ messagesOf w1 "1001".
Proof. split_and!; [by vm_compute | by vm_compute | vm_compute; congruence]. Qed.

(** Loading a storage written by the current version. *)
Lemma migration_keeps_threads_witness :
  Some "v2" ≠ Some "v1" ∧
  _updatedThreadsToVersion sampleStored (Some "v2") = None.
Proof.
  split; [done|].
  eapply (migration_keeps_threads sampleStreamingEnv (Some "v2") sampleStored).
  done.
Defined.

(** C3 as stated fails on an absent and on an unknown version tag: migration
    returns no update, not an empty map, and the stored thread is there
    after loading. *)
Lemma absent_version_keeps_threads :
  _updatedThreadsToVersion sampleStored None ≠ Some [] ∧
  _updatedThreadsToVersion sampleStored (Some "v0") ≠ Some [] ∧
  obj_get (allThreads (state
     (constructor sampleStreamingEnv (boot None (Some sampleStored))).2)) "7"
    = Some sampleStoredThread ∧
  obj_get (allThreads (state
     (constructor sampleStreamingEnv (boot (Some "v0") (Some sampleStored))).2)) "7"
    = Some sampleStoredThread.
Proof. split_and!; by vm_compute. Qed.

(** A storage in which no thread is empty and one thread is stored under the
    id that the clock gives the new thread: after loading, the empty new
    thread is there in its place, and that map is what is stored. *)
Lemma new_thread_replaces_loaded :
  let loaded : Thread.t sampleSig :=
    Thread.mk "1001" 4000%Z 5000%Z [AssistantMessage (Some "old") (Some "old")]
      (Some defaultThreadState) in
  let w := (constructor sampleStreamingEnv (boot (Some "v2") (Some [("1001", loaded)]))).2 in
  firstEmptyThread [("1001", loaded)] = None ∧
  messagesOf w "1001" = Some [] ∧
  storedThreads w = Some (allThreads (state w)).
Proof. split_and!; by vm_compute. Qed.

(** A reply with three tool calls, of which the second cannot be
    displayed. *)
Lemma tool_failure_halts_turn_witness :
  ∃ th,
    getCurrentThread sampleStarted = Some th ∧
    obj_get (allThreads (state sampleStarted)) "1001" = Some th ∧
    Thread.id th = "1001" ∧
    toolMessages sampleToolEnv (toolRuns sampleStarted) [ToolCall.mk "a" "p1" "i1"]
      = Some [ToolMessage "a" "p1" "i1" "r0" ("r0" : ToolCallReturnType sampleSig)] ∧
    toolOutcome sampleToolEnv (toolRuns sampleStarted + 1) (ToolCall.mk "b" "p2" "i2")
      = inl (mkStreamError "cannot display" None) ∧
    sendsIn (effects
      (agentLoop sampleToolEnv "1001" "hi" None 5 sampleStarted).2)
      = S (sendsIn (effects sampleStarted)).
Proof.
  eexists. split; [by vm_compute|]. split; [by vm_compute|]. split; [reflexivity|].
  split; [reflexivity|]. split; [reflexivity|].
  eapply (tool_failure_halts_turn sampleToolEnv "1001" sampleStarted _ _ "hi" None 4
            "tok" ["x"] "calling" [ToolCall.mk "a" "p1" "i1"] (ToolCall.mk "b" "p2" "i2")
            [ToolCall.mk "c" "p3" "i3"]);
    by vm_compute.
Defined.

(** Opening a thread on the started service. *)
Lemma openNewThread_spec_witness :
  keysUnique (allThreads (state sampleStarted)) = true ∧
  (openNewThread sampleStreamingEnv sampleStarted).1 = Ok tt.
Proof.
  split; [reflexivity|].
  eapply (openNewThread_spec sampleStreamingEnv sampleStarted). reflexivity.
Defined.

(** Editing the user message of the streaming service. *)
Lemma editUserMessage_throws_iff_witness :
  ∃ thread,
    currentThreadId (state sampleStreaming) = Some "1001" ∧
    obj_get (allThreads (state sampleStreaming)) "1001" = Some thread ∧
    Thread.id thread = "1001" ∧
    isUser (arr_get (Thread.messages thread) 0) = true ∧
    getCurrentThread
      (add_effect
         (set_state sampleStreaming
            (mkThreadsState
               (obj_set (allThreads (state sampleStreaming)) "1001"
                  (Thread.with_messages thread (take (Z.to_nat 0) (Thread.messages thread))))
               (Some "1001")))
         FireDidChangeCurrentThread)
    = Some (Thread.with_messages thread (take (Z.to_nat 0) (Thread.messages thread))).
Proof.
  eexists. split; [by vm_compute|]. split; [by vm_compute|]. split; [reflexivity|].
  split; [reflexivity|].
  eapply (editUserMessage_throws_iff sampleStreamingEnv 5 sampleStreaming "again"
            ChatMode.agent 0); by vm_compute.
Defined.

(** *** Requests, start of the service and turns *)

Lemma findLastIndex_from_spec {V} (cond : V → bool) (arr : list V) (k : nat) :
  match findLastIndex_from cond arr k with
  | Some r =>
      k ≤ r ∧ (∃ x, arr !! (r - k) = Some x ∧ cond x = true) ∧
      ∀ r' x, r - k < r' → arr !! r' = Some x → cond x = false
  | None => ∀ x, x ∈ arr → cond x = false
  end.
Proof.
  revert k. induction arr as [|y arr IH]; intros k; cbn [findLastIndex_from].
  - intros x Hx. by apply elem_of_nil in Hx.
  - specialize (IH (S k)). destruct (findLastIndex_from cond arr (S k)) as [r|].
    + destruct IH as (Hk & (x & Hx & Hc) & Hlast). split_and!; [lia | |].
      * exists x. split; [|done]. replace (r - k) with (S (r - S k)) by lia. done.
      * intros r' x' Hr' Hx'. destruct r' as [|r']; [lia|]. simpl in Hx'.
        apply (Hlast r' x'); [lia | done].
    + destruct (cond y) eqn:Hy.
      * split_and!; [lia | |].
        -- exists y. by rewrite Nat.sub_diag.
        -- intros r' x' Hr' Hx'. destruct r' as [|r']; [lia|]. simpl in Hx'.
           apply IH. by eapply list_elem_of_lookup_2.
      * intros x Hx. apply elem_of_cons in Hx as [->|Hx]; [done | by apply IH].
Qed.

(** X14. findLastIndex returns the position of the last element that
    satisfies the condition, and -1 (here [None]) exactly when no element
    does. *)
Theorem findLastIndex_spec {V} (arr : list V) (cond : V → bool) :
  match findLastIndex arr cond with
  | Some k =>
      (∃ x, arr !! k = Some x ∧ cond x = true) ∧
      ∀ k' x, k < k' → arr !! k' = Some x → cond x = false
  | None => ∀ x, x ∈ arr → cond x = false
  end.
Proof.
  unfold findLastIndex. pose proof (findLastIndex_from_spec cond arr 0) as H.
  destruct (findLastIndex_from cond arr 0) as [r|]; [|done].
  rewrite Nat.sub_0_r in H. by destruct H as (_ & H1 & H2).
Qed.

Lemma findLastIndex_unique {V} (arr : list V) (cond : V → bool) pre x post :
  arr = pre ++ x :: post → cond x = true → Forall (fun y => cond y = false) post →
  findLastIndex arr cond = Some (length pre).
Proof.
  intros -> Hx Hpost. unfold findLastIndex.
  pose proof (findLastIndex_from_spec cond (pre ++ x :: post) 0) as H.
  destruct (findLastIndex_from cond (pre ++ x :: post) 0) as [r|].
  - rewrite Nat.sub_0_r in H. destruct H as (_ & (y & Hy & Hc) & Hlast).
    f_equal. destruct (Nat.lt_total r (length pre)) as [Hlt|[->|Hgt]]; [|done|].
    + rewrite (Hlast (length pre) x Hlt) in Hx; [done|]. by apply list_lookup_middle.
    + rewrite lookup_app_r in Hy by lia.
      destruct (r - length pre) as [|d] eqn:Hd; [lia|]. simpl in Hy.
      rewrite Forall_forall in Hpost. rewrite (Hpost y) in Hc; [done|].
      by eapply list_elem_of_lookup_2.
  - rewrite (H x) in Hx; [done|]. apply elem_of_app. right. by left.
Qed.

Lemma findLastIndex_none {V} (arr : list V) (cond : V → bool) :
  Forall (fun y => cond y = false) arr → findLastIndex arr cond = None.
Proof.
  intros Hall. unfold findLastIndex.
  pose proof (findLastIndex_from_spec cond arr 0) as H.
  destruct (findLastIndex_from cond arr 0) as [r|]; [|done].
  destruct H as (_ & (y & Hy & Hc) & _). rewrite Forall_forall in Hall.
  rewrite (Hall y) in Hc; [done|]. by eapply list_elem_of_lookup_2.
Qed.

Lemma isLLMUser_toLLM {T} (m : ChatMessage T) :
  isLLMUser (toLLMChatMessage m) = isUser (Some m).
Proof. by destruct m. Qed.

(** X15. The messages of a request: the system message first, then the
    history converted message by message, except that the last user message
    of the history is sent with the full content of the turn; earlier user
    messages are sent with their stored content.  A history without user
    message is sent as it is. *)
Theorem requestMessages_spec {T} (env : Env T) (full : string)
    (history : list (ChatMessage T)) :
  (∀ pre u post,
     history = pre ++ u :: post → isUser (Some u) = true →
     Forall (fun m => isUser (Some m) = false) post →
     requestMessages env full history
     = LLMSystem (chat_systemMessage env)
         :: map toLLMChatMessage pre ++ LLMUser full :: map toLLMChatMessage post) ∧
  (Forall (fun m => isUser (Some m) = false) history →
     requestMessages env full history
     = LLMSystem (chat_systemMessage env) :: map toLLMChatMessage history).
Proof.
  split.
  - intros pre u post -> Hu Hpost. unfold requestMessages. cbv zeta.
    rewrite (findLastIndex_unique _ isLLMUser (map toLLMChatMessage pre)
               (toLLMChatMessage u) (map toLLMChatMessage post)).
    + rewrite map_app. cbn [map].
      set (pre' := map toLLMChatMessage pre). set (post' := map toLLMChatMessage post).
      rewrite take_app_length.
      rewrite (drop_app_ge pre' _ (S (length pre'))) by lia.
      replace (S (length pre') - length pre') with 1 by lia.
      done.
    + by rewrite map_app.
    + by rewrite isLLMUser_toLLM.
    + apply Forall_map. eapply Forall_impl; [exact Hpost|].
      intros m Hm. simpl. by rewrite isLLMUser_toLLM.
  - intros Hall. unfold requestMessages. cbv zeta.
    rewrite findLastIndex_none; [done|].
    apply Forall_map. eapply Forall_impl; [exact Hall|].
    intros m Hm. simpl. by rewrite isLLMUser_toLLM.
Qed.

Lemma requestMessages_spec_witness :
  requestMessages sampleStreamingEnv "hi + files"
    [UserMessage (Some "a") (Some "a") None None;
     AssistantMessage (Some "b") None;
     UserMessage (Some "hi") (Some "hi") None None;
     AssistantMessage None None]
  = [LLMSystem "You are a coding assistant."; LLMUser "a"; LLMAssistant "b";
     LLMUser "hi + files"; LLMAssistant "(empty message)"].
Proof.
  destruct (requestMessages_spec sampleStreamingEnv "hi + files"
              [UserMessage (Some "a") (Some "a") None None;
               AssistantMessage (Some "b") None;
               UserMessage (Some "hi") (Some "hi") None None;
               AssistantMessage None None]) as [H _].
  apply (H [UserMessage (Some "a") (Some "a") None None; AssistantMessage (Some "b") None]
           (UserMessage (Some "hi") (Some "hi") None None)
           [AssistantMessage None None]).
  - reflexivity.
  - reflexivity.
  - repeat constructor.
Defined.

Lemma obj_get_map {V W} (f : V → W) (o : list (string * V)) k :
  obj_get (map (fun kv => (kv.1, f kv.2)) o) k = f <$> obj_get o k.
Proof.
  induction o as [|[k0 v0] o IH]; [done|]. simpl.
  by destruct (String.eqb k0 k).
Qed.

Lemma keysUnique_map {V W} (f : V → W) (o : list (string * V)) :
  keysUnique (map (fun kv => (kv.1, f kv.2)) o) = keysUnique o.
Proof.
  induction o as [|[k0 v0] o IH]; [done|]. simpl. rewrite IH. f_equal. f_equal.
  clear IH. induction o as [|[k1 v1] o IH]; [done|]. simpl. by rewrite IH.
Qed.

Lemma migrateMessage_idempotent {T} (m : ChatMessage T) :
  migrateMessage (migrateMessage m) = migrateMessage m.
Proof. destruct m as [| ? ? ? [st|] | |]; done. Qed.

Lemma migrateMessage_user {T} (m : ChatMessage T) :
  migrateMessage m =
    match m with
    | UserMessage c d sel st => UserMessage c d sel (Some (default defaultMessageState st))
    | _ => m
    end.
Proof. destruct m as [| ? ? ? [st|] | |]; done. Qed.

Lemma _updatedThreadsToVersion_v1 {T} (threads : ChatThreads T) :
  _updatedThreadsToVersion threads (Some "v1")
  = Some (map (fun kv => (kv.1, migrateThread kv.2)) threads).
Proof. reflexivity. Qed.

(** X16. The step from version v1: the result has the same keys in the
    same order; each thread keeps its id and dates, gets the default thread
    state when it had none and keeps its state otherwise; its messages are
    the same in number and order, a user message without state gets the
    default message state and every other message is unchanged.  Updating
    the result again changes nothing. *)
Theorem updatedThreadsToVersion_v1_spec {T} (threads : ChatThreads T) :
  ∃ threads',
    _updatedThreadsToVersion threads (Some "v1") = Some threads' ∧
    map fst threads' = map fst threads ∧
    (∀ k th, obj_get threads k = Some th →
       ∃ th', obj_get threads' k = Some th' ∧
         Thread.id th' = Thread.id th ∧
         Thread.createdAt th' = Thread.createdAt th ∧
         Thread.lastModified th' = Thread.lastModified th ∧
         Thread.state th' = Some (default defaultThreadState (Thread.state th)) ∧
         length (Thread.messages th') = length (Thread.messages th) ∧
         ∀ n m, Thread.messages th !! n = Some m →
           Thread.messages th' !! n =
             Some match m with
                  | UserMessage c d sel st =>
                      UserMessage c d sel (Some (default defaultMessageState st))
                  | _ => m
                  end) ∧
    _updatedThreadsToVersion threads' (Some "v1") = Some threads'.
Proof.
  exists (map (fun kv => (kv.1, migrateThread kv.2)) threads).
  split_and!; [done | | |].
  - rewrite map_map. by apply map_ext.
  - intros k th Hget. exists (migrateThread th).
    rewrite obj_get_map, Hget.
    assert (Hms : Thread.messages (migrateThread th)
                  = map migrateMessage (Thread.messages th))
      by (unfold migrateThread; by destruct (Thread.state th)).
    split_and!; try by (unfold migrateThread; destruct (Thread.state th)).
    + done.
    + unfold migrateThread. by destruct (Thread.state th) eqn:Hst; simpl; rewrite ?Hst.
    + rewrite Hms. apply length_map.
    + intros n m Hm.
      change (map migrateMessage (Thread.messages th))
        with (migrateMessage <$> Thread.messages th) in Hms.
      rewrite Hms, list_lookup_fmap, Hm. simpl. by rewrite migrateMessage_user.
  - rewrite _updatedThreadsToVersion_v1. f_equal. rewrite map_map.
    apply map_ext. intros [k th]. simpl. by rewrite migrateThread_idempotent.
Qed.

(** The constructor, step by step. *)
Lemma constructor_eq {T} (env : Env T) version (stored : option (ChatThreads T)) :
  let read := default [] stored in
  let upd := _updatedThreadsToVersion read version in
  let w0 := match upd with
            | Some t => add_effect (set_storedThreads (boot version stored) (Some t))
                                   (StoreThreads t)
            | None => boot version stored
            end in
  let w1 := set_state w0 (mkThreadsState (default read upd) None) in
  constructor env (boot version stored) =
    (Ok tt,
     add_effect (set_storedVersion (openNewThread env w1).2 (Some LATEST_THREAD_VERSION))
                (StoreVersion LATEST_THREAD_VERSION)).
Proof.
  intros read upd w0 w1. unfold constructor, _readAllThreads.
  cbv [bind get ret modify boot storedVersion storedThreads].
  fold (boot version stored).
  assert (Hread : match stored with Some threads => threads | None => [] end = read)
    by by destruct stored.
  rewrite Hread. fold upd.
  pose proof (openNewThread_ok env w1) as Hok.
  destruct upd as [t|] eqn:Hupd.
  - cbv [_storeAllThreads modify default]. fold (boot version stored).
    subst w1 w0. cbv [default] in Hok.
    destruct (openNewThread env _) as [r w']. simpl in Hok. by rewrite Hok.
  - cbv [default]. fold (boot version stored).
    subst w1 w0. cbv [default] in Hok.
    destruct (openNewThread env _) as [r w']. simpl in Hok. by rewrite Hok.
Qed.

Lemma openNewThread_current {T} (env : Env T) (w : Service T) :
  keysUnique (allThreads (state w)) = true →
  ∃ k th, currentThreadId (state (openNewThread env w).2) = Some k ∧
          obj_get (allThreads (state (openNewThread env w).2)) k = Some th ∧
          Thread.messages th = [].
Proof.
  intros Hu. destruct (firstEmptyThread (allThreads (state w))) as [k|] eqn:E.
  - destruct (firstEmptyThread_Some _ _ Hu E) as (th & Hget & Hempty).
    rewrite (openNewThread_switch _ _ _ E). by exists k, th.
  - pose proof (openNewThread_create env w E) as H. cbv zeta in H. rewrite H.
    eexists _, _. cbn [snd state currentThreadId allThreads].
    split_and!; [done | apply obj_get_set_eq | done].
Qed.

(** X17. The constructor always ends in a thread: on every storage whose
    thread map has pairwise different keys, and whatever the stored version
    tag, it returns, the current thread exists and has no message, the
    stored version tag is the latest one and storing it is the last thing
    the constructor does. *)
Theorem constructor_in_a_thread {T} (env : Env T) (version : option string)
    (stored : option (ChatThreads T)) :
  keysUnique (default [] stored) = true →
  let r := constructor env (boot version stored) in
  r.1 = Ok tt ∧
  (∃ k th, currentThreadId (state r.2) = Some k ∧
           obj_get (allThreads (state r.2)) k = Some th ∧
           Thread.messages th = []) ∧
  storedVersion r.2 = Some LATEST_THREAD_VERSION ∧
  last (effects r.2) = Some (StoreVersion LATEST_THREAD_VERSION).
Proof.
  intros Hu r. pose proof (constructor_eq env version stored) as E. cbv zeta in E.
  subst r. rewrite E. clear E. cbn [fst snd].
  split_and!; [done | | done | ].
  - set (w1 := set_state _ _).
    destruct (openNewThread_current env w1) as (k & th & H1 & H2 & H3); [|by exists k, th].
    subst w1. cbn [set_state state allThreads].
    destruct version as [v|]; [|done]. cbn [_updatedThreadsToVersion].
    destruct (String.eqb v ""); [done|].
    destruct (String.eqb v "v1"); [|by destruct (String.eqb v "v2")].
    cbn [default id]. by rewrite keysUnique_map.
  - cbn [add_effect effects]. by rewrite last_snoc.
Qed.

Lemma constructor_in_a_thread_witness :
  keysUnique (default [] (Some sampleStored)) = true ∧
  (constructor sampleStreamingEnv (boot (Some "v1") (Some sampleStored))).1 = Ok tt.
Proof.
  split; [reflexivity|].
  apply (constructor_in_a_thread sampleStreamingEnv (Some "v1") (Some sampleStored)).
  reflexivity.
Defined.

(** X18. The constructor on a storage written by version v1: the updated
    thread map is stored first; the service then holds the updated map, with
    a new empty thread added when no thread of it is empty; and what is
    stored at the end is the thread map of the service. *)
Theorem constructor_v1 {T} (env : Env T) (threads : ChatThreads T) :
  let r := constructor env (boot (Some "v1") (Some threads)) in
  let updated := map (fun kv => (kv.1, migrateThread kv.2)) threads in
  let newThread :=
    Thread.mk (pretty (clock env 1)) (clock env 0) (clock env 0) []
      (Some defaultThreadState) in
  r.1 = Ok tt ∧
  head (effects r.2) = Some (StoreThreads updated) ∧
  allThreads (state r.2) =
    match firstEmptyThread updated with
    | Some _ => updated
    | None => obj_set updated (Thread.id newThread) newThread
    end ∧
  storedThreads r.2 = Some (allThreads (state r.2)) ∧
  storedVersion r.2 = Some LATEST_THREAD_VERSION.
Proof.
  intros r updated newThread.
  pose proof (constructor_eq env (Some "v1") (Some threads)) as E. cbv zeta in E.
  subst r. rewrite E. clear E. cbn [fst snd default].
  rewrite _updatedThreadsToVersion_v1. fold updated.
  set (w1 := set_state _ _).
  destruct (firstEmptyThread updated) as [k|] eqn:Hempty.
  - rewrite (openNewThread_switch env w1 k Hempty). by split_and!.
  - pose proof (openNewThread_create env w1 Hempty) as H. cbv zeta in H. rewrite H.
    by split_and!.
Qed.

Section Grows.
Context {T : ToolSig} (env : Env T) (threadId : string).

Lemma historyGrows_refl (w : Service T) th :
  obj_get (allThreads (state w)) threadId = Some th → Thread.id th = threadId →
  historyGrows threadId w w [].
Proof.
  intros Hget Hid. split_and!; try done.
  exists th, th. by rewrite app_nil_r.
Qed.

Lemma historyGrows_trans (w w1 w2 : Service T) a1 a2 :
  historyGrows threadId w w1 a1 → historyGrows threadId w1 w2 a2 →
  historyGrows threadId w w2 (a1 ++ a2).
Proof.
  intros ((th & th1 & G & G1 & I1 & C1 & S1 & M1) & O1 & St1 & Cur1 & E1 & F1)
         ((th1' & th2 & G1' & G2 & I2 & C2 & S2 & M2) & O2 & St2 & Cur2 & E2 & F2).
  assert (th1' = th1) as -> by congruence.
  split_and!.
  - exists th, th2. split_and!; try done; try congruence.
    by rewrite M2, M1, app_assoc.
  - intros other Ho. by rewrite O2, O1.
  - intros other Ho. by rewrite St2, St1.
  - congruence.
  - by etrans.
  - by apply Forall_app.
Qed.

Lemma historyGrows_thread (w w' : Service T) a :
  historyGrows threadId w w' a →
  ∃ th', obj_get (allThreads (state w')) threadId = Some th' ∧ Thread.id th' = threadId.
Proof. intros ((th & th' & _ & G & I & _) & _). by exists th'. Qed.

Lemma historyGrows_messages (w w' : Service T) a th :
  obj_get (allThreads (state w)) threadId = Some th →
  historyGrows threadId w w' a →
  messagesOf w' threadId = Some (Thread.messages th ++ a).
Proof.
  intros Hget ((th0 & th' & G0 & G & _ & _ & _ & M) & _).
  assert (th0 = th) as -> by congruence. unfold messagesOf. by rewrite G, <- M.
Qed.

Lemma historyGrows_addMessage (w : Service T) th m :
  obj_get (allThreads (state w)) threadId = Some th → Thread.id th = threadId →
  assistantOrTool m = true →
  historyGrows threadId w (afterAddMessage env th m w) [m].
Proof.
  intros Hget Hid Hm. unfold afterAddMessage, threadsWithMessage.
  cbn [state allThreads currentThreadId streamState effects]. rewrite Hid.
  split_and!; try done.
  - eexists th, _. split_and!; [done | apply obj_get_set_eq | done ..].
  - intros other Ho. by apply obj_get_set_ne.
  - by apply prefix_app_r.
  - by constructor.
Qed.

Lemma historyGrows_setStream (w : Service T) th p :
  obj_get (allThreads (state w)) threadId = Some th → Thread.id th = threadId →
  historyGrows threadId w (afterSetStreamState threadId p w) [].
Proof.
  intros Hget Hid. unfold afterSetStreamState.
  cbn [state allThreads currentThreadId streamState effects add_effect set_streamState].
  split_and!; try done.
  - exists th, th. by rewrite app_nil_r.
  - intros other Ho. by apply lookup_insert_ne.
  - by apply prefix_app_r.
Qed.

Lemma historyGrows_effect (w w' : Service T) th es :
  obj_get (allThreads (state w)) threadId = Some th → Thread.id th = threadId →
  state w' = state w → streamState w' = streamState w →
  effects w' = effects w ++ es →
  historyGrows threadId w w' [].
Proof.
  intros Hget Hid Hs Hst He. unfold historyGrows. rewrite Hs, Hst, He.
  split_and!; try done.
  - exists th, th. by rewrite app_nil_r.
  - by apply prefix_app_r.
Qed.

Lemma finish_eq content error (w : Service T) th :
  obj_get (allThreads (state w)) threadId = Some th →
  _finishStreamingTextMessage env threadId content error w =
    (Ok tt,
     afterSetStreamState threadId
       {| PartialEntry.messageSoFar := Some None;
          PartialEntry.streamingToken := Some None;
          PartialEntry.error := Some error |}
       (afterAddMessage env th (AssistantMessage (Some content) (strOrNull content)) w)).
Proof.
  intros Hget. unfold _finishStreamingTextMessage, bind.
  rewrite (_addMessageToThread_eq _ _ _ _ _ Hget). by rewrite _setStreamState_eq.
Qed.

Lemma finish_grows content error (w : Service T) th :
  obj_get (allThreads (state w)) threadId = Some th → Thread.id th = threadId →
  ∃ w', _finishStreamingTextMessage env threadId content error w = (Ok tt, w') ∧
        historyGrows threadId w w' [AssistantMessage (Some content) (strOrNull content)] ∧
        streamState w' !! threadId
          = Some {| StreamEntry.error := error; StreamEntry.messageSoFar := None;
                    StreamEntry.streamingToken := None |}.
Proof.
  intros Hget Hid. eexists. split; [by apply finish_eq|].
  pose proof (historyGrows_addMessage w th
                (AssistantMessage (Some content) (strOrNull content)) Hget Hid eq_refl) as G1.
  destruct (historyGrows_thread _ _ _ G1) as (th1 & Hget1 & Hid1).
  split.
  - exact (historyGrows_trans _ _ _ _ _ G1 (historyGrows_setStream _ th1 _ Hget1 Hid1)).
  - unfold afterSetStreamState. cbn [streamState add_effect set_streamState].
    by rewrite lookup_insert_eq.
Qed.

Lemma onTexts_grows fullTexts (w : Service T) th :
  obj_get (allThreads (state w)) threadId = Some th → Thread.id th = threadId →
  ∃ w', onTexts threadId fullTexts w = (Ok tt, w') ∧ historyGrows threadId w w' [] ∧
        streamField StreamEntry.messageSoFar threadId w'
          = match last fullTexts with
            | Some t => Some t
            | None => streamField StreamEntry.messageSoFar threadId w
            end ∧
        streamField StreamEntry.streamingToken threadId w'
          = streamField StreamEntry.streamingToken threadId w.
Proof.
  revert w th; induction fullTexts as [|t rest IH]; intros w th Hget Hid.
  - exists w. split_and!; [done | by eapply historyGrows_refl | done | done].
  - cbn [onTexts]. unfold bind. rewrite _setStreamState_eq.
    set (p := PartialEntry.mk _ _ _).
    pose proof (historyGrows_setStream w th p Hget Hid) as G1.
    destruct (historyGrows_thread _ _ _ G1) as (th1 & Hget1 & Hid1).
    destruct (IH (afterSetStreamState threadId p w) th1 Hget1 Hid1) as (w' & E & G & Hm & Ht).
    exists w'. split_and!; [exact E | | |].
    + exact (historyGrows_trans _ _ _ _ _ G1 G).
    + rewrite Hm. rewrite streamField_afterSet. cbn.
      rewrite last_cons. by destruct (last rest).
    + rewrite Ht. by rewrite streamField_afterSet.
Qed.

Lemma runToolCalls_grows calls : ∀ (w : Service T) th should,
  obj_get (allThreads (state w)) threadId = Some th → Thread.id th = threadId →
  ∃ b w' added, runToolCalls env threadId calls should w = (Ok b, w') ∧
                historyGrows threadId w w' added.
Proof.
  induction calls as [|tool calls IH]; intros w th should Hget Hid.
  - exists should, w, []. split; [done | by eapply historyGrows_refl].
  - assert (G0 : historyGrows threadId w
                   (tick_tool (add_effect w (CallTool (ToolCall.name tool)
                                                      (ToolCall.params tool)))) []).
    { by eapply historyGrows_effect. }
    destruct (historyGrows_thread _ _ _ G0) as (th0 & Hget0 & Hid0).
    destruct (toolOutcome env (toolRuns w) tool) as [error|[str val]] eqn:Hout.
    + rewrite (runToolCalls_cons_fail _ _ _ _ _ _ _ Hout).
      eexists false, _, []. split; [done|].
      exact (historyGrows_trans _ _ _ _ _ G0
               (historyGrows_setStream _ th0 _ Hget0 Hid0)).
    + rewrite (runToolCalls_cons_ok _ _ _ _ _ _ _ _ _ Hout Hget).
      assert (th0 = th) as -> by (simpl in Hget0; congruence).
      pose proof (historyGrows_addMessage _ th
                    (ToolMessage (ToolCall.name tool) (ToolCall.params tool)
                       (ToolCall.id tool) str val) Hget0 Hid eq_refl) as G1.
      destruct (historyGrows_thread _ _ _ G1) as (th1 & Hget1 & Hid1).
      destruct (IH _ th1 true Hget1 Hid1) as (b & w' & added & E & G2).
      exists b, w', ([] ++ [ToolMessage (ToolCall.name tool) (ToolCall.params tool)
                              (ToolCall.id tool) str val] ++ added).
      split; [exact E|].
      exact (historyGrows_trans _ _ _ _ _ G0 (historyGrows_trans _ _ _ _ _ G1 G2)).
Qed.

End Grows.

Section Loop.
Context {T : ToolSig} (env : Env T) (threadId : string).

Lemma onError_eq error (w : Service T) :
  onError env threadId error w =
    _finishStreamingTextMessage env threadId
      (default "" (streamField StreamEntry.messageSoFar threadId w)) (Some error) w.
Proof. reflexivity. Qed.

Lemma onFinalMessage_text fullText toolCalls (w : Service T) :
  toolCalls = None ∨ toolCalls = Some [] →
  onFinalMessage env threadId fullText toolCalls w =
    (_finishStreamingTextMessage env threadId fullText None >> ret false) w.
Proof. by intros [-> | ->]. Qed.

Lemma onFinalMessage_grows fullText toolCalls (w : Service T) th :
  obj_get (allThreads (state w)) threadId = Some th → Thread.id th = threadId →
  ∃ b w' added, onFinalMessage env threadId fullText toolCalls w = (Ok b, w') ∧
                historyGrows threadId w w' added.
Proof.
  intros Hget Hid.
  assert (Htext : toolCalls = None ∨ toolCalls = Some [] →
            ∃ b w' added, onFinalMessage env threadId fullText toolCalls w = (Ok b, w') ∧
                          historyGrows threadId w w' added).
  { intros Hno. rewrite (onFinalMessage_text _ _ _ Hno). unfold bind.
    destruct (finish_grows env threadId fullText None w th Hget Hid) as (w' & -> & G & _).
    by eexists false, w', _. }
  destruct toolCalls as [[|c calls]|]; [apply Htext; by right | | apply Htext; by left].
  clear Htext.
  rewrite (onFinalMessage_calls env threadId fullText (c :: calls) w th) by done.
    pose proof (historyGrows_addMessage env threadId w th
                  (AssistantMessage (Some fullText) (Some fullText)) Hget Hid eq_refl) as G1.
    destruct (historyGrows_thread _ _ _ _ G1) as (th1 & Hget1 & Hid1).
    set (p := PartialEntry.mk _ _ _).
    pose proof (historyGrows_setStream threadId _ th1 p Hget1 Hid1) as G2.
    destruct (historyGrows_thread _ _ _ _ G2) as (th2 & Hget2 & Hid2).
    destruct (runToolCalls_grows env threadId (c :: calls) _ th2 false Hget2 Hid2)
      as (b & w' & added & E & G3).
    exists b, w', (([AssistantMessage (Some fullText) (Some fullText)] ++ []) ++ added).
    split; [exact E|].
    exact (historyGrows_trans _ _ _ _ _ _ (historyGrows_trans _ _ _ _ _ _ G1 G2) G3).
Qed.

(** One iteration of the loop, up to the answer of the transport. *)
Lemma agentLoop_S fuel full tools (w : Service T) th :
  getCurrentThread w = Some th →
  let messages := requestMessages env full (Thread.messages th) in
  agentLoop env threadId full tools (S fuel) w =
    (match sendLLMMessage env (llmSends w) messages tools with
     | Rejected error =>
         match error with
         | Some error => onError env threadId error
         | None => ret tt
         end >>
         ret Finished
     | Streamed llmCancelToken fullTexts outcome =>
         _setStreamState threadId
           {| PartialEntry.streamingToken := Some (Some llmCancelToken);
              PartialEntry.error := None;
              PartialEntry.messageSoFar := None |} >>
         onTexts threadId fullTexts >>
         match outcome with
         | FinalMessage fullText toolCalls =>
             let* shouldSendAnotherMessage :=
               onFinalMessage env threadId fullText toolCalls in
             if shouldSendAnotherMessage
             then agentLoop env threadId full tools fuel
             else ret Finished
         | LLMError error => onError env threadId error >> ret Finished
         | StillStreaming => ret Suspended
         end
     end) (tick_llm (add_effect w (SendLLM messages tools))).
Proof.
  intros Hcur messages. cbn [agentLoop]. unfold bind at 1. unfold get at 1.
  unfold bind at 1. rewrite Hcur. cbn [defined ret].
  unfold bind at 1. unfold fire at 1. unfold modify at 1.
  unfold bind at 1. unfold modify at 1. reflexivity.
Qed.

Lemma getCurrentThread_key (w : Service T) th :
  currentThreadId (state w) = Some threadId →
  obj_get (allThreads (state w)) threadId = Some th →
  getCurrentThread w = Some th.
Proof. intros Hc Hg. unfold getCurrentThread. by rewrite Hc. Qed.

Lemma historyGrows_current (w w' : Service T) a :
  currentThreadId (state w) = Some threadId → historyGrows threadId w w' a →
  currentThreadId (state w') = Some threadId.
Proof. intros Hc (_ & _ & _ & Hc' & _). congruence. Qed.

(** One iteration from the state after the request has gone out, given
    that the loop with the remaining budget only adds to the thread. *)
Lemma agentLoop_step fuel full tools :
  (∀ (w : Service T) th,
     currentThreadId (state w) = Some threadId →
     obj_get (allThreads (state w)) threadId = Some th → Thread.id th = threadId →
     ∃ e w' added, agentLoop env threadId full tools fuel w = (Ok e, w') ∧
                   historyGrows threadId w w' added) →
  ∀ (w : Service T) th,
    currentThreadId (state w) = Some threadId →
    obj_get (allThreads (state w)) threadId = Some th → Thread.id th = threadId →
    ∃ e w' added,
      agentLoop env threadId full tools (S fuel) w = (Ok e, w') ∧
      historyGrows threadId
        (tick_llm (add_effect w
           (SendLLM (requestMessages env full (Thread.messages th)) tools)))
        w' added.
Proof.
  intros IH w th Hcur Hget Hid.
  pose proof (agentLoop_S fuel full tools w th (getCurrentThread_key _ _ Hcur Hget)) as E.
  cbv zeta in E. rewrite E. clear E.
  set (msgs := requestMessages env full (Thread.messages th)).
  assert (G0 : historyGrows threadId w (tick_llm (add_effect w (SendLLM msgs tools))) []).
  { by eapply historyGrows_effect. }
  set (w0 := tick_llm _) in *.
  destruct (historyGrows_thread _ _ _ _ G0) as (th0 & Hget0 & Hid0).
  assert (Hcur0 : currentThreadId (state w0) = Some threadId) by done.
  clearbody w0. clear G0.
  destruct (sendLLMMessage env (llmSends w) msgs tools)
    as [[error|]|token fullTexts outcome].
  - unfold bind. rewrite onError_eq.
    destruct (finish_grows env threadId
                (default "" (streamField StreamEntry.messageSoFar threadId w0))
                (Some error) w0 th0 Hget0 Hid0) as (w' & -> & G & _).
    by eexists Finished, w', _.
  - exists Finished, w0, []. split; [done | by eapply historyGrows_refl].
  - unfold bind at 1. rewrite _setStreamState_eq.
    set (p := PartialEntry.mk _ _ _).
    pose proof (historyGrows_setStream threadId w0 th0 p Hget0 Hid0) as G1.
    destruct (historyGrows_thread _ _ _ _ G1) as (th1 & Hget1 & Hid1).
    unfold bind at 1.
    destruct (onTexts_grows threadId fullTexts _ th1 Hget1 Hid1) as (w2 & -> & G2 & _).
    destruct (historyGrows_thread _ _ _ _ G2) as (th2 & Hget2 & Hid2).
    pose proof (historyGrows_trans _ _ _ _ _ _ G1 G2) as G02.
    destruct outcome as [fullText toolCalls|error|].
    + unfold bind.
      destruct (onFinalMessage_grows fullText toolCalls w2 th2 Hget2 Hid2)
        as (b & w3 & added & -> & G3).
      pose proof (historyGrows_trans _ _ _ _ _ _ G02 G3) as G03.
      destruct b.
      * destruct (historyGrows_thread _ _ _ _ G03) as (th3 & Hget3 & Hid3).
        destruct (IH w3 th3 (historyGrows_current _ _ _ Hcur0 G03) Hget3 Hid3)
          as (e & w4 & added' & -> & G4).
        eexists e, w4, _. split; [done|].
        exact (historyGrows_trans _ _ _ _ _ _ G03 G4).
      * by eexists Finished, w3, _.
    + unfold bind. rewrite onError_eq.
      destruct (finish_grows env threadId
                  (default "" (streamField StreamEntry.messageSoFar threadId w2))
                  (Some error) w2 th2 Hget2 Hid2) as (w' & -> & G & _).
      eexists Finished, w', _. split; [done|].
      exact (historyGrows_trans _ _ _ _ _ _ G02 G).
    + by eexists Suspended, w2, _.
Qed.

Lemma agentLoop_grows fuel full tools : ∀ (w : Service T) th,
  currentThreadId (state w) = Some threadId →
  obj_get (allThreads (state w)) threadId = Some th → Thread.id th = threadId →
  ∃ e w' added, agentLoop env threadId full tools fuel w = (Ok e, w') ∧
                historyGrows threadId w w' added.
Proof.
  induction fuel as [|fuel IH]; intros w th Hcur Hget Hid.
  - exists OutOfFuel, w, []. split; [done | by eapply historyGrows_refl].
  - destruct (agentLoop_step fuel full tools IH w th Hcur Hget Hid)
      as (e & w' & added & E & G).
    exists e, w', ([] ++ added). split; [done|].
    refine (historyGrows_trans _ _ _ _ _ _ _ G).
    by eapply historyGrows_effect.
Qed.

Lemma agentLoop_first fuel full tools (w : Service T) th :
  currentThreadId (state w) = Some threadId →
  obj_get (allThreads (state w)) threadId = Some th → Thread.id th = threadId →
  ∃ e w' added,
    agentLoop env threadId full tools (S fuel) w = (Ok e, w') ∧
    historyGrows threadId
      (tick_llm (add_effect w
         (SendLLM (requestMessages env full (Thread.messages th)) tools)))
      w' added.
Proof. apply agentLoop_step. apply agentLoop_grows. Qed.

End Loop.

Lemma requestsIn_app {T} (es es' : list (Effect T)) :
  requestsIn (es ++ es') = requestsIn es ++ requestsIn es'.
Proof. unfold requestsIn. by rewrite omap_app. Qed.

Lemma requestsIn_prefix {T} (es es' : list (Effect T)) :
  es `prefix_of` es' → requestsIn es `prefix_of` requestsIn es'.
Proof. intros [k ->]. rewrite requestsIn_app. by apply prefix_app_r. Qed.

Lemma _getAllSelections_eq {T} (w : Service T) thread :
  getCurrentThread w = Some thread →
  _getAllSelections w = (Ok (flat_map selectionsOf (Thread.messages thread)), w).
Proof. intros H. cbv [_getAllSelections bind get]. by rewrite H. Qed.

Lemma _getAllSelections_missing {T} (w : Service T) :
  getCurrentThread w = None → _getAllSelections w = (Throw TypeError, w).
Proof. intros H. cbv [_getAllSelections bind get]. by rewrite H. Qed.

(** addUserMessageAndStreamResponse, case by case. *)
Lemma addUserMessage_cases {T} (env : Env T) fuel userMessage chatMode chatSelections
    (w : Service T) :
  addUserMessageAndStreamResponse env fuel userMessage chatMode chatSelections w =
    match getCurrentThread w with
    | None => (Throw TypeError, w)
    | Some thread =>
        match givenCurrSelns chatSelections, Thread.state thread with
        | None, None => (Throw TypeError, w)
        | given, st =>
            let c := default (from_option ThreadState.stagingSelections [] st) given in
            let p := default (flat_map selectionsOf (Thread.messages thread))
                             (givenPrevSelns chatSelections) in
            match obj_get (allThreads (state w)) (Thread.id thread) with
            | None => (Throw TypeError, w)
            | Some old =>
                (Ok tt,
                 (agentLoop env (Thread.id thread) (fullContent env userMessage p c)
                    (toolsOfMode env chatMode) fuel
                    (afterSetStreamState (Thread.id thread)
                       {| PartialEntry.error := Some None;
                          PartialEntry.messageSoFar := None;
                          PartialEntry.streamingToken := None |}
                       (afterAddMessage env old (userHistoryElt env userMessage c) w))).2)
            end
        end
    end.
Proof.
  destruct (getCurrentThread w) as [thread|] eqn:Hcur.
  2:{ unfold addUserMessageAndStreamResponse.
      unfold bind at 1. unfold get at 1. unfold bind at 1. by rewrite Hcur. }
  unfold addUserMessageAndStreamResponse.
  unfold bind at 1. unfold get at 1. unfold bind at 1. rewrite Hcur. cbn [defined ret].
  unfold bind at 1.
  assert (Hp : (match chatSelections with
                | Some {| prevSelns := Some p0 |} => ret p0
                | _ => _getAllSelections
                end) w
               = (Ok (default (flat_map selectionsOf (Thread.messages thread))
                              (givenPrevSelns chatSelections)), w)).
  { destruct chatSelections as [[[p0|] c0]|]; cbn [givenPrevSelns prevSelns default];
      first [done | by apply _getAllSelections_eq]. }
  rewrite Hp. clear Hp. unfold bind at 1.
  set (cs := match chatSelections with
             | Some {| currSelns := Some c0 |} => ret c0
             | _ => let* st := defined (Thread.state thread) in
                    ret (ThreadState.stagingSelections st)
             end).
  assert (Hc : cs w =
               match givenCurrSelns chatSelections, Thread.state thread with
               | None, None => (Throw TypeError, w)
               | given, st =>
                   (Ok (default (from_option ThreadState.stagingSelections [] st) given), w)
               end).
  { subst cs. destruct chatSelections as [[p0 [c0|]]|]; cbn [givenCurrSelns currSelns].
    - by destruct (Thread.state thread).
    - by destruct (Thread.state thread).
    - by destruct (Thread.state thread). }
  rewrite Hc. clear Hc cs.
  destruct (givenCurrSelns chatSelections) as [c|], (Thread.state thread) as [st|];
    cbn [default from_option]; try done.
  - unfold bind at 1.
    destruct (obj_get (allThreads (state w)) (Thread.id thread)) as [old|] eqn:Hget.
    + rewrite (_addMessageToThread_eq _ _ _ _ _ Hget). unfold bind at 1.
      by rewrite _setStreamState_eq.
    + by rewrite _addMessageToThread_missing.
  - unfold bind at 1.
    destruct (obj_get (allThreads (state w)) (Thread.id thread)) as [old|] eqn:Hget.
    + rewrite (_addMessageToThread_eq _ _ _ _ _ Hget). unfold bind at 1.
      by rewrite _setStreamState_eq.
    + by rewrite _addMessageToThread_missing.
  - unfold bind at 1.
    destruct (obj_get (allThreads (state w)) (Thread.id thread)) as [old|] eqn:Hget.
    + rewrite (_addMessageToThread_eq _ _ _ _ _ Hget). unfold bind at 1.
      by rewrite _setStreamState_eq.
    + by rewrite _addMessageToThread_missing.
Qed.

(** The turn that addUserMessageAndStreamResponse starts. *)
Lemma addUserMessage_run {T} (env : Env T) fuel userMessage chatMode chatSelections
    (w : Service T) thread :
  getCurrentThread w = Some thread →
  obj_get (allThreads (state w)) (Thread.id thread) = Some thread →
  (givenCurrSelns chatSelections = None → Thread.state thread ≠ None) →
  let c := default (from_option ThreadState.stagingSelections [] (Thread.state thread))
                   (givenCurrSelns chatSelections) in
  let p := default (flat_map selectionsOf (Thread.messages thread))
                   (givenPrevSelns chatSelections) in
  addUserMessageAndStreamResponse env fuel userMessage chatMode chatSelections w =
    (Ok tt,
     (agentLoop env (Thread.id thread) (fullContent env userMessage p c)
        (toolsOfMode env chatMode) fuel
        (afterSetStreamState (Thread.id thread)
           {| PartialEntry.error := Some None;
              PartialEntry.messageSoFar := None;
              PartialEntry.streamingToken := None |}
           (afterAddMessage env thread (userHistoryElt env userMessage c) w))).2).
Proof.
  intros Hcur Hget Hsel c p. rewrite addUserMessage_cases, Hcur, Hget.
  destruct (givenCurrSelns chatSelections) as [g|] eqn:Hg;
    destruct (Thread.state thread) as [st|] eqn:Hst; try done.
  by destruct Hsel.
Qed.

Section TurnLemmas.
Context {T : ToolSig} (env : Env T).

Lemma addUserMessage_grows (fuel : nat) (userMessage : string) (chatMode : ChatMode.t)
    (chatSelections : option ChatSelections) (w : Service T) (key : string)
    (thread : Thread.t T) :
  currentThreadId (state w) = Some key →
  obj_get (allThreads (state w)) key = Some thread →
  Thread.id thread = key →
  (givenCurrSelns chatSelections = None → Thread.state thread ≠ None) →
  let c := default (from_option ThreadState.stagingSelections [] (Thread.state thread))
                   (givenCurrSelns chatSelections) in
  let p := default (flat_map selectionsOf (Thread.messages thread))
                   (givenPrevSelns chatSelections) in
  let history := Thread.messages thread ++ [userHistoryElt env userMessage c] in
  let r := addUserMessageAndStreamResponse env fuel userMessage chatMode chatSelections w in
  r.1 = Ok tt ∧
  (∃ added,
     messagesOf r.2 key = Some (history ++ added) ∧
     Forall (fun m => assistantOrTool m = true) added) ∧
  (∀ other, other ≠ key →
     obj_get (allThreads (state r.2)) other = obj_get (allThreads (state w)) other) ∧
  currentThreadId (state r.2) = Some key ∧
  (0 < fuel →
   ∃ later,
     requestsIn (effects r.2)
     = requestsIn (effects w)
       ++ (requestMessages env (fullContent env userMessage p c) history,
           toolsOfMode env chatMode) :: later).
Proof.
  intros Hcur Hget Hid Hsel c p history r.
  assert (Hthread : getCurrentThread w = Some thread).
  { unfold getCurrentThread. by rewrite Hcur. }
  pose proof (addUserMessage_run env fuel userMessage chatMode chatSelections w thread
                Hthread) as E.
  rewrite Hid in E. specialize (E Hget Hsel). cbv zeta in E. fold c p in E.
  subst r. rewrite E. clear E. cbn [fst snd].
  pose proof (historyGrows_setStream key
                (afterAddMessage env thread (userHistoryElt env userMessage c) w)) as G1.
  set (w1 := afterAddMessage env thread (userHistoryElt env userMessage c) w) in *.
  assert (Hget1 : obj_get (allThreads (state w1)) key
                  = Some (Thread.with_messages
                            (Thread.with_lastModified thread (clock env (clockReads w)))
                            history)).
  { subst w1. unfold afterAddMessage, threadsWithMessage. cbn [state allThreads].
    rewrite Hid. apply obj_get_set_eq. }
  specialize (G1 _ {| PartialEntry.error := Some None;
                      PartialEntry.messageSoFar := None;
                      PartialEntry.streamingToken := None |} Hget1 Hid).
  set (w2 := afterSetStreamState key _ w1) in *.
  destruct (historyGrows_thread _ _ _ _ G1) as (th2 & Hget2 & Hid2).
  assert (Hcur2 : currentThreadId (state w2) = Some key) by done.
  destruct (agentLoop_grows env key fuel (fullContent env userMessage p c)
              (toolsOfMode env chatMode) w2 th2 Hcur2 Hget2 Hid2)
    as (e & w' & added & E & G2).
  rewrite E. cbn [snd].
  pose proof (historyGrows_trans _ _ _ _ _ _ G1 G2) as G.
  split_and!; [done | | | |].
  - exists added. split; [|by destruct G2 as (_ & _ & _ & _ & _ & F)].
    rewrite (historyGrows_messages key w1 w' ([] ++ added) _ Hget1 G). done.
  - intros other Ho. destruct G as (_ & O & _). rewrite (O other Ho).
    subst w1. unfold afterAddMessage, threadsWithMessage. cbn [state allThreads].
    rewrite Hid. by apply obj_get_set_ne.
  - by apply (historyGrows_current key w2 w' added).
  - intros Hfuel. destruct fuel as [|fuel]; [lia|].
    assert (Hth2 : th2 = Thread.with_messages
                           (Thread.with_lastModified thread (clock env (clockReads w)))
                           history)
      by (change (obj_get (allThreads (state w1)) key = Some th2) in Hget2; congruence).
    destruct (agentLoop_first env key fuel (fullContent env userMessage p c)
                (toolsOfMode env chatMode) w2 th2 Hcur2 Hget2 Hid2)
      as (e3 & w3' & added3 & E3 & G3).
    rewrite E3 in E. injection E as _ <-.
    rewrite Hth2 in G3. cbn [Thread.messages Thread.with_messages] in G3.
    set (req := requestMessages env (fullContent env userMessage p c) history) in *.
    set (w3 := tick_llm (add_effect w2 (SendLLM req (toolsOfMode env chatMode)))) in *.
    assert (Hpre : effects w3 `prefix_of` effects w3')
      by (by destruct G3 as (_ & _ & _ & _ & P & _)).
    apply requestsIn_prefix in Hpre as [later Hlater]. exists later.
    rewrite Hlater. subst w3 w2 w1.
    unfold afterSetStreamState, afterAddMessage.
    cbn [tick_llm add_effect set_streamState effects].
    rewrite !requestsIn_app. cbn. by rewrite !app_nil_r, <- app_assoc.
Qed.

End TurnLemmas.

Section TurnTheorems.
Context {T : ToolSig} (env : Env T).

(** X19. A run of the agent loop for the thread that is current only adds
    to that thread: whatever the transport and the tools answer and however
    many iterations it makes, the loop does not throw; the thread keeps its
    id, its creation date and its state, its former messages are there in
    the same order, followed by assistant and tool messages only; the other
    threads, their stream states and the current thread are untouched. *)
Theorem agentLoop_history (threadId full : string)
    (tools : option (list (InternalToolInfo T))) (fuel : nat)
    (w : Service T) (th : Thread.t T) :
  currentThreadId (state w) = Some threadId →
  obj_get (allThreads (state w)) threadId = Some th →
  Thread.id th = threadId →
  let r := agentLoop env threadId full tools fuel w in
  (∃ e, r.1 = Ok e) ∧
  ∃ added,
    historyGrows threadId w r.2 added ∧
    messagesOf r.2 threadId = Some (Thread.messages th ++ added).
Proof.
  intros Hcur Hget Hid r.
  destruct (agentLoop_grows env threadId fuel full tools w th Hcur Hget Hid)
    as (e & w' & added & E & G).
  subst r. rewrite E. split; [by exists e|]. exists added. split; [done|].
  by apply (historyGrows_messages threadId w w' added th).
Qed.

(** X20. addUserMessageAndStreamResponse on a current thread: it returns
    normally whatever the response does later; the thread gets the user
    message, with the content computed from the instructions and the current
    selections, the instructions themselves as display content, the current
    selections and the default message state, right after its former
    messages, and after it assistant and tool messages only; the current
    selections are those given, else the staging selections of the thread;
    when at least one request is made, the first one is made for the history
    with the new user message, where that message carries the full content,
    and with the tools of the chat mode. *)
Theorem addUserMessage_turn (fuel : nat) (userMessage : string) (chatMode : ChatMode.t)
    (chatSelections : option ChatSelections) (w : Service T) (key : string)
    (thread : Thread.t T) :
  currentThreadId (state w) = Some key →
  obj_get (allThreads (state w)) key = Some thread →
  Thread.id thread = key →
  (givenCurrSelns chatSelections = None → Thread.state thread ≠ None) →
  let c := default (from_option ThreadState.stagingSelections [] (Thread.state thread))
                   (givenCurrSelns chatSelections) in
  let p := default (flat_map selectionsOf (Thread.messages thread))
                   (givenPrevSelns chatSelections) in
  let history := Thread.messages thread ++ [userHistoryElt env userMessage c] in
  let r := addUserMessageAndStreamResponse env fuel userMessage chatMode chatSelections w in
  r.1 = Ok tt ∧
  (∃ added,
     messagesOf r.2 key = Some (history ++ added) ∧
     Forall (fun m => assistantOrTool m = true) added) ∧
  (∀ other, other ≠ key →
     obj_get (allThreads (state r.2)) other = obj_get (allThreads (state w)) other) ∧
  currentThreadId (state r.2) = Some key ∧
  (0 < fuel →
   ∃ later,
     requestsIn (effects r.2)
     = requestsIn (effects w)
       ++ (requestMessages env (fullContent env userMessage p c) history,
           toolsOfMode env chatMode) :: later).
Proof. apply addUserMessage_grows. Qed.

End TurnTheorems.

Lemma requestsIn_afterSet {T} k p (w : Service T) :
  requestsIn (effects (afterSetStreamState k p w)) = requestsIn (effects w).
Proof.
  unfold afterSetStreamState. cbn [effects add_effect set_streamState].
  rewrite requestsIn_app. cbn. by rewrite app_nil_r.
Qed.

Lemma requestsIn_afterAdd {T} (env : Env T) th m (w : Service T) :
  requestsIn (effects (afterAddMessage env th m w)) = requestsIn (effects w).
Proof.
  unfold afterAddMessage. cbn [effects]. rewrite requestsIn_app. cbn. by rewrite app_nil_r.
Qed.

Lemma requestsIn_send {T} (w : Service T) ms tools :
  requestsIn (effects (tick_llm (add_effect w (SendLLM ms tools))))
  = requestsIn (effects w) ++ [(ms, tools)].
Proof. cbn [effects tick_llm add_effect]. by rewrite requestsIn_app. Qed.

Section Quiet.
Context {T : ToolSig} (env : Env T) (threadId : string).

(** onText calls change the stream state of the thread only. *)
Lemma onTexts_quiet fullTexts : ∀ (w : Service T),
  ∃ w', onTexts threadId fullTexts w = (Ok tt, w') ∧
        state w' = state w ∧ storedThreads w' = storedThreads w ∧
        requestsIn (effects w') = requestsIn (effects w) ∧
        clockReads w' = clockReads w ∧ llmSends w' = llmSends w ∧
        toolRuns w' = toolRuns w ∧
        streamField StreamEntry.messageSoFar threadId w'
          = match last fullTexts with
            | Some t => Some t
            | None => streamField StreamEntry.messageSoFar threadId w
            end.
Proof.
  induction fullTexts as [|t rest IH]; intros w.
  - by exists w.
  - cbn [onTexts]. unfold bind. rewrite _setStreamState_eq.
    set (p := PartialEntry.mk _ _ _).
    destruct (IH (afterSetStreamState threadId p w)) as (w' & E & H1 & H2 & H3 & H4 & H5 & H6 & H7).
    exists w'. split_and!; try done.
    + by rewrite H3, requestsIn_afterSet.
    + rewrite H7, streamField_afterSet. cbn. rewrite last_cons. by destruct (last rest).
Qed.


End Quiet.

Section TurnTheorems2.
Context {T : ToolSig} (env : Env T).

(** X21. addUserMessageAndStreamResponse throws in exactly three cases:
    there is no current thread; no current selections are given and the
    current thread has no state; or the thread map has no thread under the
    id of the current thread.  In each of them it throws a TypeError before
    it has changed anything. *)
Theorem addUserMessage_throws (fuel : nat) (userMessage : string) (chatMode : ChatMode.t)
    (chatSelections : option ChatSelections) (w : Service T) :
  let r := addUserMessageAndStreamResponse env fuel userMessage chatMode chatSelections w in
  let failing :=
    getCurrentThread w = None ∨
    ∃ thread, getCurrentThread w = Some thread ∧
      ((givenCurrSelns chatSelections = None ∧ Thread.state thread = None) ∨
       obj_get (allThreads (state w)) (Thread.id thread) = None) in
  ((∃ e, r.1 = Throw e) ↔ failing) ∧
  (failing → r = (Throw TypeError, w)).
Proof.
  intros r failing. subst r failing. rewrite addUserMessage_cases.
  destruct (getCurrentThread w) as [thread|] eqn:Hcur.
  2:{ split; [|done]. split; [by left | by exists TypeError]. }
  destruct (obj_get (allThreads (state w)) (Thread.id thread)) as [old|] eqn:Hget;
    destruct (givenCurrSelns chatSelections) as [c|] eqn:Hc;
    destruct (Thread.state thread) as [st|] eqn:Hst; cbn [fst snd].
  - split; [|by intros [?|(th & [= <-] & [[? _]|?])]; congruence].
    split; [by intros [e ?] | by intros [?|(th & [= <-] & [[? _]|?])]; congruence].
  - split; [|by intros [?|(th & [= <-] & [[? _]|?])]; congruence].
    split; [by intros [e ?] | by intros [?|(th & [= <-] & [[? _]|?])]; congruence].
  - split; [|by intros [?|(th & [= <-] & [[_ ?]|?])]; congruence].
    split; [by intros [e ?] | by intros [?|(th & [= <-] & [[_ ?]|?])]; congruence].
  - split; [|done]. split; [|by exists TypeError].
    intros _. right. exists thread. split; [done|]. left. by rewrite Hst.
  - split; [|done]. split; [|by exists TypeError].
    intros _. right. exists thread. split; [done|]. by right.
  - split; [|done]. split; [|by exists TypeError].
    intros _. right. exists thread. split; [done|]. by right.
  - split; [|done]. split; [|by exists TypeError].
    intros _. right. exists thread. split; [done|]. by right.
  - split; [|done]. split; [|by exists TypeError].
    intros _. right. exists thread. split; [done|]. by right.
Qed.

End TurnTheorems2.

Lemma streamState_afterSet {T} k p (w : Service T) :
  streamState (afterSetStreamState k p w) !! k
  = Some {| StreamEntry.error :=
              spread (streamField StreamEntry.error k w) (PartialEntry.error p);
            StreamEntry.messageSoFar :=
              spread (streamField StreamEntry.messageSoFar k w) (PartialEntry.messageSoFar p);
            StreamEntry.streamingToken :=
              spread (streamField StreamEntry.streamingToken k w)
                     (PartialEntry.streamingToken p) |}.
Proof.
  unfold afterSetStreamState, streamField.
  cbn [streamState add_effect set_streamState]. rewrite lookup_insert_eq.
  by destruct (streamState w !! k).
Qed.

Section TurnTheorems3.
Context {T : ToolSig} (env : Env T) (threadId : string).

(** The state after a response that ends by [finish content error]. *)
Lemma agentLoop_finished (w2 : Service T) th content error :
  obj_get (allThreads (state w2)) threadId = Some th → Thread.id th = threadId →
  let w3 := (_finishStreamingTextMessage env threadId content error w2).2 in
  (_finishStreamingTextMessage env threadId content error w2).1 = Ok tt ∧
  messagesOf w3 threadId
    = Some (Thread.messages th ++ [AssistantMessage (Some content) (strOrNull content)]) ∧
  streamState w3 !! threadId
    = Some {| StreamEntry.error := error; StreamEntry.messageSoFar := None;
              StreamEntry.streamingToken := None |} ∧
  requestsIn (effects w3) = requestsIn (effects w2) ∧
  storedThreads w3 = Some (allThreads (state w3)).
Proof.
  intros Hget Hid w3. subst w3. rewrite (finish_eq env threadId content error w2 th Hget).
  cbn [fst snd]. split_and!.
  - done.
  - by rewrite messagesOf_afterSet, (messagesOf_afterAdd _ _ _ _ threadId Hid).
  - by rewrite streamState_afterSet.
  - by rewrite requestsIn_afterSet, requestsIn_afterAdd.
  - done.
Qed.

(** X22. A request that is answered by a final message without tool calls
    ends the loop: the thread gets one assistant message with the full text
    (and no display content when the text is empty), the stream state of the
    thread is cleared, the thread map is stored, and the request was the
    only one. *)
Theorem agentLoop_final_text (full : string) (tools : option (list (InternalToolInfo T)))
    (fuel : nat) (w : Service T) (th : Thread.t T)
    (token : string) (fullTexts : list string) (fullText : string)
    (toolCalls : option (list ToolCall.t)) :
  currentThreadId (state w) = Some threadId →
  obj_get (allThreads (state w)) threadId = Some th →
  Thread.id th = threadId →
  sendLLMMessage env (llmSends w) (requestMessages env full (Thread.messages th)) tools
    = Streamed token fullTexts (FinalMessage fullText toolCalls) →
  toolCalls = None ∨ toolCalls = Some [] →
  let r := agentLoop env threadId full tools (S fuel) w in
  r.1 = Ok Finished ∧
  messagesOf r.2 threadId
    = Some (Thread.messages th ++ [AssistantMessage (Some fullText) (strOrNull fullText)]) ∧
  streamState r.2 !! threadId = Some StreamEntry.empty ∧
  requestsIn (effects r.2)
    = requestsIn (effects w) ++ [(requestMessages env full (Thread.messages th), tools)] ∧
  storedThreads r.2 = Some (allThreads (state r.2)).
Proof.
  intros Hcur Hget Hid Hllm Hno r.
  pose proof (agentLoop_final env threadId fuel full tools w th token fullTexts fullText
                toolCalls (getCurrentThread_key threadId w th Hcur Hget) Hllm) as E.
  fold r in E.
  set (w1 := afterSetStreamState threadId _ _) in E.
  unfold bind at 1 in E.
  destruct (onTexts_quiet threadId fullTexts w1) as (w2 & E2 & Hs & _ & Hr & _).
  rewrite E2 in E.
  unfold bind at 1 in E. rewrite (onFinalMessage_text env threadId fullText toolCalls w2 Hno) in E.
  unfold bind at 1 in E.
  assert (Hget2 : obj_get (allThreads (state w2)) threadId = Some th) by (by rewrite Hs).
  destruct (agentLoop_finished w2 th fullText None Hget2 Hid) as (E1 & Hm & Hst & Hreq & Hsto).
  destruct (_finishStreamingTextMessage env threadId fullText None w2) as [res w3].
  cbn [fst snd] in *. subst res. unfold ret in E. rewrite E. cbn [fst snd].
  split_and!; [done | done | done | | done].
  rewrite Hreq, Hr. subst w1. by rewrite requestsIn_afterSet, requestsIn_send.
Qed.

(** X23. A request that fails.  When the transport reports an error, at
    once or after it has streamed some text, the loop ends; the thread gets
    one assistant message holding the text streamed so far, which is the
    last text passed to onText, else the text left in the stream state, else
    the empty string; the stream state of the thread holds the error and
    neither text nor token.  When the transport returns no token and
    reports no error, the loop ends and only the request has happened. *)
Theorem agentLoop_error (full : string) (tools : option (list (InternalToolInfo T)))
    (fuel : nat) (w : Service T) (th : Thread.t T) :
  currentThreadId (state w) = Some threadId →
  obj_get (allThreads (state w)) threadId = Some th →
  Thread.id th = threadId →
  let request := requestMessages env full (Thread.messages th) in
  let response := sendLLMMessage env (llmSends w) request tools in
  let r := agentLoop env threadId full tools (S fuel) w in
  (∀ error fullTexts,
     (response = Rejected (Some error) ∧ fullTexts = []) ∨
     (∃ token, response = Streamed token fullTexts (LLMError error)) →
     let content :=
       default "" (match last fullTexts with
                   | Some t => Some t
                   | None => streamField StreamEntry.messageSoFar threadId w
                   end) in
     r.1 = Ok Finished ∧
     messagesOf r.2 threadId
       = Some (Thread.messages th ++ [AssistantMessage (Some content) (strOrNull content)]) ∧
     streamState r.2 !! threadId
       = Some {| StreamEntry.error := Some error; StreamEntry.messageSoFar := None;
                 StreamEntry.streamingToken := None |} ∧
     requestsIn (effects r.2) = requestsIn (effects w) ++ [(request, tools)]) ∧
  (response = Rejected None →
   r = (Ok Finished, tick_llm (add_effect w (SendLLM request tools)))).
Proof.
  intros Hcur Hget Hid request response r.
  pose proof (agentLoop_S env threadId fuel full tools w th
                (getCurrentThread_key threadId w th Hcur Hget)) as E.
  cbv zeta in E. fold request response in E. fold r in E.
  set (w0 := tick_llm (add_effect w (SendLLM request tools))) in *.
  split.
  - intros error fullTexts Hresp content.
    destruct Hresp as [[Hresp ->]|[token Hresp]]; rewrite Hresp in E.
    + unfold bind in E. rewrite onError_eq in E.
      destruct (agentLoop_finished w0 th
                  (default "" (streamField StreamEntry.messageSoFar threadId w0))
                  (Some error) Hget Hid) as (E1 & Hm & Hst & Hreq & _).
      destruct (_finishStreamingTextMessage env threadId _ (Some error) w0) as [res w3].
      cbn [fst snd] in *. subst res. unfold ret in E. rewrite E. cbn [fst snd].
      split_and!; [done | exact Hm | exact Hst |].
      rewrite Hreq. subst w0. by rewrite requestsIn_send.
    + unfold bind at 1 in E. rewrite _setStreamState_eq in E.
      set (w1 := afterSetStreamState threadId _ w0) in *.
      unfold bind at 1 in E.
      destruct (onTexts_quiet threadId fullTexts w1) as (w2 & E2 & Hs & _ & Hr & _ & _ & _ & Hsofar).
      rewrite E2 in E. unfold bind in E. rewrite onError_eq in E.
      assert (Hget2 : obj_get (allThreads (state w2)) threadId = Some th) by (by rewrite Hs).
      assert (Hcontent : default "" (streamField StreamEntry.messageSoFar threadId w2)
                         = content).
      { subst content. rewrite Hsofar. subst w1. by rewrite streamField_afterSet. }
      rewrite Hcontent in E.
      destruct (agentLoop_finished w2 th content (Some error) Hget2 Hid)
        as (E1 & Hm & Hst & Hreq & _).
      destruct (_finishStreamingTextMessage env threadId content (Some error) w2) as [res w3].
      cbn [fst snd] in *. subst res. unfold ret in E. rewrite E. cbn [fst snd].
      split_and!; [done | exact Hm | exact Hst |].
      rewrite Hreq, Hr. subst w1 w0. by rewrite requestsIn_afterSet, requestsIn_send.
  - intros Hresp. by rewrite Hresp in E.
Qed.


(** X25. cancelStreaming for an id under which there is no thread: the
    request in flight, if any, is aborted, and then a TypeError is thrown;
    the stream state is left as it was, still holding the token and the
    text, and no message is added anywhere. *)
Theorem cancelStreaming_missing_thread (w : Service T) :
  obj_get (allThreads (state w)) threadId = None →
  let r := cancelStreaming env threadId w in
  r.1 = Throw TypeError ∧
  state r.2 = state w ∧
  streamState r.2 = streamState w ∧
  storedThreads r.2 = storedThreads w ∧
  effects r.2
    = effects w
      ++ match streamField StreamEntry.streamingToken threadId w with
         | Some token => [AbortLLM token]
         | None => []
         end.
Proof.
  intros Hget r.
  assert (E : r = (Throw TypeError,
                   match streamField StreamEntry.streamingToken threadId w with
                   | Some token => add_effect w (AbortLLM token)
                   | None => w
                   end)).
  { subst r. unfold cancelStreaming.
    unfold bind at 1. unfold get at 1. unfold bind at 1.
    destruct (streamField StreamEntry.streamingToken threadId w) as [token|].
    - cbv [fire modify]. unfold bind at 1. unfold get at 1.
      unfold _finishStreamingTextMessage. unfold bind at 1.
      by rewrite _addMessageToThread_missing.
    - cbv [ret]. unfold bind at 1. unfold get at 1.
      unfold _finishStreamingTextMessage. unfold bind at 1.
      by rewrite _addMessageToThread_missing. }
  rewrite E. cbn [fst snd].
  destruct (streamField StreamEntry.streamingToken threadId w) as [token|];
    split_and!; try done.
  cbn. by rewrite app_nil_r.
Qed.

End TurnTheorems3.

Section EditTheorem.
Context {T : ToolSig} (env : Env T).

(** X26. Editing a user message of the current thread.  The call returns
    normally when the current thread has been cut down to the messages before
    the edited one: at that point nothing has been stored, no request has
    been sent, the other threads and the stream state are as they were, and
    the re-send is left pending.  When the pending re-send then runs, with
    nothing in between, a new user message with the new instructions and the
    selections of the edited message comes after the kept messages, followed
    by assistant and tool messages only; when at least one request is made,
    the first one carries the full content computed with the selections of
    the kept messages as previous selections. *)
Theorem editUserMessage_turn (fuel : nat) (userMessage : string) (chatMode : ChatMode.t)
    (messageIdx : Z) (w : Service T) (key : string) (thread : Thread.t T)
    (edited : ChatMessage T) :
  currentThreadId (state w) = Some key →
  obj_get (allThreads (state w)) key = Some thread →
  Thread.id thread = key →
  arr_get (Thread.messages thread) messageIdx = Some edited →
  isUser (Some edited) = true →
  let kept := take (Z.to_nat messageIdx) (Thread.messages thread) in
  let c := selectionsOf edited in
  let p := flat_map selectionsOf kept in
  let history := kept ++ [userHistoryElt env userMessage c] in
  let resend := addUserMessageAndStreamResponse_resume env fuel userMessage chatMode key p c in
  let r := editUserMessageAndStreamResponse env fuel userMessage chatMode messageIdx w in
  let r' := resend r.2 in
  (r.1 = Ok resend ∧
   messagesOf r.2 key = Some kept ∧
   (∀ k, k ≠ key →
      obj_get (allThreads (state r.2)) k = obj_get (allThreads (state w)) k) ∧
   currentThreadId (state r.2) = Some key ∧
   streamState r.2 = streamState w ∧
   storedThreads r.2 = storedThreads w ∧
   effects r.2 = effects w ++ [FireDidChangeCurrentThread]) ∧
  (r'.1 = Ok tt ∧
   (∃ added,
      messagesOf r'.2 key = Some (history ++ added) ∧
      Forall (fun m => assistantOrTool m = true) added) ∧
   (0 < fuel →
    ∃ later,
      requestsIn (effects r'.2)
      = requestsIn (effects w)
        ++ (requestMessages env (fullContent env userMessage p c) history,
            toolsOfMode env chatMode) :: later)).
Proof.
  intros Hcur Hget Hid Hem Huser kept c p history resend r r'.
  assert (Hthread : getCurrentThread w = Some thread).
  { unfold getCurrentThread. by rewrite Hcur. }
  assert (Hu : isUser (arr_get (Thread.messages thread) messageIdx) = true)
    by (by rewrite Hem).
  pose proof (edit_user env fuel userMessage chatMode messageIdx w thread Hthread Hu) as E.
  fold r in E. rewrite Hem in E. cbn [from_option] in E.
  rewrite (slice0_nonneg _ _ (arr_get_Some_nonneg _ _ _ Hem)) in E.
  fold kept p c in E. rewrite Hid in E. fold resend in E.
  set (truncated := add_effect _ _) in E.
  assert (Htr : getCurrentThread truncated = Some (Thread.with_messages thread kept)).
  { unfold getCurrentThread. subst truncated.
    cbn [state currentThreadId allThreads add_effect set_state]. rewrite Hcur.
    apply obj_get_set_eq. }
  subst r'. rewrite E. cbn [fst snd]. split.
  - subst truncated. cbn [state allThreads currentThreadId add_effect set_state
      streamState storedThreads effects]. split_and!; try done.
    + unfold messagesOf. cbn [state allThreads add_effect set_state].
      by rewrite obj_get_set_eq.
    + intros k Hk. by apply obj_get_set_ne.
  - assert (Er : resend truncated
               = addUserMessageAndStreamResponse env fuel userMessage chatMode
                   (Some (mkChatSelections (Some p) (Some c))) truncated).
    { subst resend. rewrite <- (resume_given env fuel userMessage chatMode truncated _ p c Htr).
      cbn [Thread.id Thread.with_messages]. by rewrite Hid. }
    rewrite Er.
    pose proof (addUserMessage_grows env fuel userMessage chatMode
                  (Some (mkChatSelections (Some p) (Some c)))
                  truncated key (Thread.with_messages thread kept)) as H.
    cbv zeta in H. cbn [givenCurrSelns givenPrevSelns currSelns prevSelns default] in H.
    destruct H as (Hok & Hadded & _ & _ & Hreq); [done | | done | done |].
    { subst truncated. cbn [state allThreads add_effect set_state]. apply obj_get_set_eq. }
    split_and!; [done | exact Hadded |].
    intros Hfuel. destruct (Hreq Hfuel) as [later Hlater]. exists later.
    rewrite Hlater. subst truncated. cbn [effects add_effect set_state].
    rewrite requestsIn_app. cbn. by rewrite app_nil_r.
Qed.

End EditTheorem.


(** A run of the loop on the started service. *)
Lemma agentLoop_history_witness :
  ∃ th,
    currentThreadId (state sampleStarted) = Some "1001" ∧
    obj_get (allThreads (state sampleStarted)) "1001" = Some th ∧
    Thread.id th = "1001" ∧
    ∃ e, (agentLoop sampleToolEnv "1001" "hi" None 5 sampleStarted).1 = Ok e.
Proof.
  eexists. split; [by vm_compute|]. split; [by vm_compute|]. split; [reflexivity|].
  eapply (agentLoop_history sampleToolEnv "1001" "hi" None 5 sampleStarted);
    by vm_compute.
Defined.

(** A first message on the started service. *)
Lemma addUserMessage_turn_witness :
  ∃ thread,
    currentThreadId (state sampleStarted) = Some "1001" ∧
    obj_get (allThreads (state sampleStarted)) "1001" = Some thread ∧
    Thread.id thread = "1001" ∧
    Thread.state thread ≠ None ∧
    (addUserMessageAndStreamResponse sampleToolEnv 5 "hi" ChatMode.agent None
       sampleStarted).1 = Ok tt.
Proof.
  eexists. split; [by vm_compute|]. split; [by vm_compute|]. split; [reflexivity|].
  split; [by vm_compute|].
  eapply (addUserMessage_turn sampleToolEnv 5 "hi" ChatMode.agent None sampleStarted "1001");
    by vm_compute.
Defined.

(** A model that answers with a text and no tool call. *)
Lemma agentLoop_final_text_witness :
  let env := sampleEnv (fun _ => Streamed "tok" ["ans"] (FinalMessage "answer" None))
                       (fun _ => inr "r") in
  ∃ th,
    currentThreadId (state sampleStarted) = Some "1001" ∧
    obj_get (allThreads (state sampleStarted)) "1001" = Some th ∧
    Thread.id th = "1001" ∧
    (agentLoop env "1001" "hi" None 1 sampleStarted).1 = Ok Finished.
Proof.
  intros env.
  eexists. split; [by vm_compute|]. split; [by vm_compute|]. split; [reflexivity|].
  eapply (agentLoop_final_text env "1001" "hi" None 0 sampleStarted _ "tok" ["ans"]
            "answer" None); first [by vm_compute | by left].
Defined.

(** A transport that reports an error after some text. *)
Lemma agentLoop_error_witness :
  let env := sampleEnv (fun _ => Streamed "tok" ["par"]
                                   (LLMError (mkStreamError "overloaded" None)))
                       (fun _ => inr "r") in
  ∃ th,
    currentThreadId (state sampleStarted) = Some "1001" ∧
    obj_get (allThreads (state sampleStarted)) "1001" = Some th ∧
    Thread.id th = "1001" ∧
    messagesOf (agentLoop env "1001" "hi" None 1 sampleStarted).2 "1001"
      = Some (Thread.messages th ++ [AssistantMessage (Some "par") (Some "par")]).
Proof.
  intros env.
  eexists. split; [by vm_compute|]. split; [by vm_compute|]. split; [reflexivity|].
  destruct (agentLoop_error env "1001" "hi" None 0 sampleStarted
              (Thread.mk "1001" 1000 1000 [] (Some defaultThreadState))) as [H _];
    [by vm_compute | by vm_compute | reflexivity |].
  destruct (H (mkStreamError "overloaded" None) ["par"]) as (_ & Hm & _).
  - right. by exists "tok".
  - exact Hm.
Defined.


(** Cancelling under an id that is not a thread, while a request for
    another thread is in flight. *)
Lemma cancelStreaming_missing_thread_witness :
  obj_get (allThreads (state sampleStreaming)) "1" = None ∧
  (cancelStreaming sampleStreamingEnv "1" sampleStreaming).1 = Throw TypeError.
Proof.
  split; [reflexivity|].
  apply (cancelStreaming_missing_thread sampleStreamingEnv "1" sampleStreaming).
  reflexivity.
Defined.

(** Editing the user message of the streaming service. *)
Lemma editUserMessage_turn_witness :
  ∃ thread edited,
    currentThreadId (state sampleStreaming) = Some "1001" ∧
    obj_get (allThreads (state sampleStreaming)) "1001" = Some thread ∧
    Thread.id thread = "1001" ∧
    arr_get (Thread.messages thread) 0 = Some edited ∧
    isUser (Some edited) = true ∧
    messagesOf
      (editUserMessageAndStreamResponse sampleStreamingEnv 5 "again" ChatMode.agent 0
         sampleStreaming).2 "1001" = Some [].
Proof.
  eexists _, _. split; [by vm_compute|]. split; [by vm_compute|]. split; [reflexivity|].
  split; [by vm_compute|]. split; [reflexivity|].
  eapply (editUserMessage_turn sampleStreamingEnv 5 "again" ChatMode.agent 0
            sampleStreaming "1001"); by vm_compute.
Defined.

(** *** The invariant of the service *)

Section Stored.
Context {T : ToolSig} (env : Env T).
Implicit Types (w : Service T).

Local Abbreviation stays :=
  (preserves (T := T) (fun w => persisted w ∧ inAThread w)).

Lemma stays_ret {A} (a : A) : stays (ret a).
Proof. by intros w. Qed.

Lemma stays_throw {A} e : stays (throw (A := A) e).
Proof. by intros w. Qed.

Lemma stays_bind {A B} (m : M T A) (k : A → M T B) :
  stays m → (∀ a, stays (k a)) → stays (bind m k).
Proof.
  intros Hm Hk w Hw. unfold bind. specialize (Hm w Hw).
  destruct (m w) as [[a|e] w']; simpl in *; [by apply Hk | done].
Qed.

Lemma stays_get {A} (k : Service T → M T A) :
  (∀ w, persisted w ∧ inAThread w → persisted (k w w).2 ∧ inAThread (k w w).2) →
  stays (bind get k).
Proof. intros Hk w Hw. by apply Hk. Qed.

Lemma stays_notAwaited {A} (m : M T A) : stays m → stays (notAwaited m).
Proof. intros Hm w Hw. by apply Hm. Qed.

Lemma stays_defined {A} (o : option A) : stays (defined o).
Proof. destruct o; [apply stays_ret | apply stays_throw]. Qed.

Lemma stays_fire e : stays (fire e).
Proof. by intros w. Qed.

Lemma stays_setStreamState k p : stays (_setStreamState k p).
Proof. by intros w. Qed.

(** Appending a message stores the new thread map, and the current thread
    is still there. *)
Lemma afterAddMessage_stored th m w :
  inAThread w → persisted (afterAddMessage env th m w) ∧ inAThread (afterAddMessage env th m w).
Proof.
  intros Hin. split; [done|]. unfold inAThread, getCurrentThread in *.
  unfold afterAddMessage, threadsWithMessage. cbn [state currentThreadId allThreads].
  destruct (currentThreadId (state w)) as [key|]; [|done].
  destruct (decide (Thread.id th = key)) as [->|Hne].
  - by rewrite obj_get_set_eq.
  - by rewrite obj_get_set_ne.
Qed.

Lemma stays_addMessage k m : stays (_addMessageToThread env k m).
Proof.
  intros w [Hp Hin]. destruct (obj_get (allThreads (state w)) k) as [th|] eqn:E.
  - rewrite (_addMessageToThread_eq _ _ _ _ _ E). by apply afterAddMessage_stored.
  - by rewrite (_addMessageToThread_missing _ _ _ _ E).
Qed.

Lemma stays_finish k content error : stays (_finishStreamingTextMessage env k content error).
Proof.
  apply stays_bind; [apply stays_addMessage | intros _; apply stays_setStreamState].
Qed.

Lemma stays_onError k error : stays (onError env k error).
Proof. apply stays_get. intros w Hw. by apply stays_finish. Qed.

Lemma stays_cancelStreaming k : stays (cancelStreaming env k).
Proof.
  apply stays_get. intros w Hw. apply stays_bind; [|intros _| done].
  - destruct (streamField _ _ _); [apply stays_fire | apply stays_ret].
  - apply stays_get. intros w' Hw'. by apply stays_finish.
Qed.

Lemma stays_onTexts k fullTexts : stays (onTexts k fullTexts).
Proof.
  induction fullTexts as [|t rest IH]; [apply stays_ret|].
  apply stays_bind; [apply stays_setStreamState | by intros _].
Qed.

Lemma stays_runToolCalls k calls should : stays (runToolCalls env k calls should).
Proof.
  revert should; induction calls as [|tool calls IH]; intros should; [apply stays_ret|].
  cbn [runToolCalls]. apply stays_get. intros w Hw.
  apply stays_bind; [apply stays_fire | intros _ | done].
  apply stays_bind; [by intros w' | intros _].
  destruct (toolFns env _ _ _) as [e|v].
  { apply stays_bind; [apply stays_setStreamState | intros _; apply stays_ret]. }
  destruct (toolResultToString env _ v) as [e|str].
  { apply stays_bind; [apply stays_setStreamState | intros _; apply stays_ret]. }
  apply stays_bind; [apply stays_addMessage | by intros _].
Qed.

Lemma stays_onFinalMessage k fullText toolCalls :
  stays (onFinalMessage env k fullText toolCalls).
Proof.
  assert (Hfin : stays (_finishStreamingTextMessage env k fullText None >> ret false))
    by (apply stays_bind; [apply stays_finish | intros _; apply stays_ret]).
  destruct toolCalls as [[|c calls]|]; [done | | done].
  apply stays_bind; [apply stays_addMessage | intros _].
  apply stays_bind; [apply stays_setStreamState | intros _; apply stays_runToolCalls].
Qed.

Lemma stays_agentLoop k full tools fuel : stays (agentLoop env k full tools fuel).
Proof.
  induction fuel as [|fuel IH]; [apply stays_ret|].
  cbn [agentLoop]. apply stays_get. intros w Hw.
  apply stays_bind; [apply stays_defined | intros thread | done].
  apply stays_bind; [apply stays_fire | intros _].
  apply stays_bind; [by intros w' | intros _].
  destruct (sendLLMMessage env _ _ _) as [error|token fullTexts outcome].
  { apply stays_bind; [|intros _; apply stays_ret].
    destruct error; [apply stays_onError | apply stays_ret]. }
  apply stays_bind; [apply stays_setStreamState | intros _].
  apply stays_bind; [apply stays_onTexts | intros _].
  destruct outcome as [fullText toolCalls|error|].
  - apply stays_bind; [apply stays_onFinalMessage | intros [|]; [done | apply stays_ret]].
  - apply stays_bind; [apply stays_onError | intros _; apply stays_ret].
  - apply stays_ret.
Qed.

Lemma stays_getAllSelections : stays (_getAllSelections (T := T)).
Proof.
  apply stays_get. intros w Hw.
  apply stays_bind; [apply stays_defined | intros ?; apply stays_ret | done].
Qed.

Lemma stays_addUserMessage fuel userMessage chatMode chatSelections :
  stays (addUserMessageAndStreamResponse env fuel userMessage chatMode chatSelections).
Proof.
  apply stays_get. intros w Hw.
  apply stays_bind; [apply stays_defined | intros thread | done].
  apply stays_bind.
  { destruct chatSelections as [[[p|] c]|];
      first [apply stays_ret | apply stays_getAllSelections]. }
  intros prev. apply stays_bind.
  { destruct chatSelections as [[p [c|]]|]; try apply stays_ret;
      (apply stays_bind; [apply stays_defined | intros ?; apply stays_ret]). }
  intros curr.
  apply stays_bind; [apply stays_addMessage | intros _].
  apply stays_bind; [apply stays_setStreamState | intros _].
  apply stays_notAwaited, stays_agentLoop.
Qed.

(** The re-send that an edit leaves pending, run where its thread exists:
    the message it adds stores the thread map. *)
Lemma resume_stored fuel userMessage chatMode threadId prevSelns currSelns w :
  inAThread w →
  is_Some (obj_get (allThreads (state w)) threadId) →
  let w' := (addUserMessageAndStreamResponse_resume env fuel userMessage chatMode
               threadId prevSelns currSelns w).2 in
  persisted w' ∧ inAThread w'.
Proof.
  intros Hin [old Hold] w'.
  assert (E : addUserMessageAndStreamResponse_resume env fuel userMessage chatMode
                threadId prevSelns currSelns w
              = (_setStreamState threadId
                   {| PartialEntry.error := Some None;
                      PartialEntry.messageSoFar := None;
                      PartialEntry.streamingToken := None |} >>
                 notAwaited
                   (agentLoop env threadId
                      (fullContent env userMessage prevSelns currSelns)
                      (toolsOfMode env chatMode) fuel))
                  (afterAddMessage env old (userHistoryElt env userMessage currSelns) w)).
  { unfold addUserMessageAndStreamResponse_resume. unfold bind at 1.
    by rewrite (_addMessageToThread_eq _ _ _ _ _ Hold). }
  subst w'. rewrite E.
  refine (stays_bind (_setStreamState _ _) (fun _ => notAwaited (agentLoop _ _ _ _ _))
            _ _ _ _).
  - apply stays_setStreamState.
  - intros _. apply stays_notAwaited, stays_agentLoop.
  - by apply afterAddMessage_stored.
Qed.

(** The edit sets the truncated thread map and does not store it: when it
    returns, what is stored is the map from before the edit, which still has
    the edited message.  The re-send left pending stores the map. *)
Lemma edit_stored fuel userMessage chatMode messageIdx w :
  wellFormedService w → persisted w → inAThread w →
  let r := editUserMessageAndStreamResponse env fuel userMessage chatMode messageIdx w in
  inAThread r.2 ∧
  storedThreads r.2 = storedThreads w ∧
  (∀ e, r.1 = Throw e → r.2 = w) ∧
  (∀ resend, r.1 = Ok resend →
     ¬ persisted r.2 ∧ persisted (resend r.2).2 ∧ inAThread (resend r.2).2 ∧
     wellFormedService (resend r.2).2).
Proof.
  intros Hwf Hp Hin r. subst r.
  destruct (getCurrentThread w) as [thread|] eqn:Hcur.
  2:{ by rewrite (edit_no_thread _ _ _ _ _ _ Hcur). }
  destruct (isUser (arr_get (Thread.messages thread) messageIdx)) eqn:Huser.
  2:{ by rewrite (edit_not_user _ _ _ _ _ _ _ Hcur Huser). }
  rewrite (edit_user _ _ _ _ _ _ _ Hcur Huser). cbn [fst snd].
  set (truncated := add_effect _ _).
  assert (Hkey : currentThreadId (state w) = Some (Thread.id thread) ∧
                 obj_get (allThreads (state w)) (Thread.id thread) = Some thread).
  { unfold getCurrentThread in Hcur.
    destruct (currentThreadId (state w)) as [key|]; [|done].
    by rewrite (wellFormed_get _ _ _ Hwf Hcur). }
  destruct Hkey as [Hkey Hget].
  assert (Hin' : inAThread truncated).
  { unfold inAThread, getCurrentThread. subst truncated.
    cbn [state currentThreadId allThreads add_effect set_state].
    by rewrite Hkey, obj_get_set_eq. }
  split_and!; [done | done | done |].
  intros resend [= <-]. split_and!.
  - unfold persisted. subst truncated.
    cbn [state allThreads storedThreads add_effect set_state]. rewrite Hp.
    intros [= Heq]. apply (f_equal (fun o => obj_get o (Thread.id thread))) in Heq.
    rewrite Hget, obj_get_set_eq in Heq. injection Heq as Heq.
    apply (f_equal (fun th => length (Thread.messages th))) in Heq.
    cbn [Thread.messages Thread.with_messages] in Heq.
    destruct (isUser_Some _ Huser) as [m Hm].
    pose proof (arr_get_Some_nonneg _ _ _ Hm) as Hnn.
    rewrite (slice0_nonneg _ _ Hnn), length_take in Heq.
    unfold arr_get in Hm. destruct (messageIdx <? 0)%Z; [done|].
    apply lookup_lt_Some in Hm. lia.
  - apply resume_stored; [done|]. subst truncated.
    cbn [state allThreads add_effect set_state]. by rewrite obj_get_set_eq.
  - apply resume_stored; [done|]. subst truncated.
    cbn [state allThreads add_effect set_state]. by rewrite obj_get_set_eq.
  - apply keeps_resume. subst truncated. unfold wellFormedService.
    cbn [state allThreads add_effect set_state]. by apply wellFormed_set.
Qed.

End Stored.

Section InvariantTheorem.
Context {T : ToolSig} (env : Env T).

Lemma serviceInvariant_constructor version (stored : option (ChatThreads T)) :
  wellFormed (default [] stored) = true →
  serviceInvariant (constructor env (boot version stored)).2.
Proof.
  intros Hwf. pose proof (constructor_eq env version stored) as E. cbv zeta in E.
  rewrite E. clear E. cbn [snd].
  set (upd := _updatedThreadsToVersion (default [] stored) version).
  set (w1 := set_state _ _).
  assert (Hwf1 : wellFormed (allThreads (state w1)) = true).
  { subst w1 upd. cbn [set_state state allThreads].
    destruct version as [v|]; [|done]. cbn [_updatedThreadsToVersion].
    destruct (String.eqb v ""); [done|].
    destruct (String.eqb v "v1"); [|by destruct (String.eqb v "v2")].
    cbn [default id]. by apply wellFormed_migrate. }
  assert (Hu1 : keysUnique (allThreads (state w1)) = true).
  { unfold wellFormed in Hwf1. by apply andb_true_iff in Hwf1 as [? _]. }
  split_and!.
  - unfold wellFormedService. cbn [add_effect set_storedVersion state].
    by apply wellFormed_openNewThread.
  - unfold persisted. cbn [add_effect set_storedVersion state storedThreads].
    destruct (firstEmptyThread (allThreads (state w1))) as [k|] eqn:Hempty.
    + rewrite (openNewThread_switch env w1 k Hempty).
      cbn [snd add_effect set_state state storedThreads allThreads].
      subst w1. cbn [set_state storedThreads state allThreads] in *.
      destruct upd as [t|] eqn:Hupd; [done|]. cbn [default] in *.
      destruct stored as [threads|]; [done|]. done.
    + pose proof (openNewThread_create env w1 Hempty) as H. cbv zeta in H. by rewrite H.
  - unfold inAThread, getCurrentThread. cbn [add_effect set_storedVersion state].
    destruct (openNewThread_current env w1 Hu1) as (k & th & -> & -> & _). done.
Qed.

(** X27. The invariant of the service: the thread map is well formed (its
    keys are pairwise different and every thread is under its own id), what
    is stored is the thread map of the service, and the current thread
    exists.  The constructor establishes it on every well-formed storage,
    also an empty one and whatever the stored version; each of
    addUserMessageAndStreamResponse, cancelStreaming, dismissStreamError and
    openNewThread keeps it, whether it returns or throws; switchToThread
    keeps it when the thread exists.  editUserMessageAndStreamResponse does
    not keep it: when it throws nothing has changed, but when it returns
    normally the thread map is well formed and the current thread exists,
    while what is stored is still the map from before the edit and not the
    truncated map of the service; the invariant holds again when the re-send
    that the edit leaves pending has run. *)
Theorem service_invariant :
  (∀ version (stored : option (ChatThreads T)),
     wellFormed (default [] stored) = true →
     serviceInvariant (constructor env (boot version stored)).2) ∧
  (∀ fuel userMessage chatMode chatSelections,
     preserves serviceInvariant
       (addUserMessageAndStreamResponse env fuel userMessage chatMode chatSelections)) ∧
  (∀ fuel userMessage chatMode messageIdx (w : Service T),
     serviceInvariant w →
     let r := editUserMessageAndStreamResponse env fuel userMessage chatMode messageIdx w in
     wellFormedService r.2 ∧
     inAThread r.2 ∧
     storedThreads r.2 = storedThreads w ∧
     (∀ e, r.1 = Throw e → r.2 = w) ∧
     (∀ resend, r.1 = Ok resend →
        ¬ persisted r.2 ∧ serviceInvariant (resend r.2).2)) ∧
  (∀ threadId, preserves serviceInvariant (cancelStreaming env threadId)) ∧
  (∀ threadId, preserves (T := T) serviceInvariant (dismissStreamError threadId)) ∧
  preserves serviceInvariant (openNewThread env) ∧
  (∀ threadId (w : Service T),
     serviceInvariant w → is_Some (obj_get (allThreads (state w)) threadId) →
     serviceInvariant (switchToThread threadId w).2).
Proof.
  split_and!.
  - apply serviceInvariant_constructor.
  - intros fuel userMessage chatMode chatSelections w (Hwf & Hp & Hin).
    destruct (stays_addUserMessage env fuel userMessage chatMode chatSelections w) as [? ?];
      [done|].
    split_and!; [by apply keeps_addUserMessage | done | done].
  - intros fuel userMessage chatMode messageIdx w (Hwf & Hp & Hin) r.
    destruct (edit_stored env fuel userMessage chatMode messageIdx w Hwf Hp Hin)
      as (Hin' & Hst & Hthrow & Hresend).
    fold r in Hin', Hst, Hthrow, Hresend.
    split_and!; [by apply keeps_editUserMessage | done | done | done |].
    intros resend Hr. destruct (Hresend resend Hr) as (? & ? & ? & ?). by split_and!.
  - intros threadId w (Hwf & Hp & Hin).
    destruct (stays_cancelStreaming env threadId w) as [? ?]; [done|].
    split_and!; [by apply keeps_cancelStreaming | done | done].
  - intros threadId w (Hwf & Hp & Hin). done.
  - intros w (Hwf & Hp & Hin).
    assert (Hu : keysUnique (allThreads (state w)) = true).
    { unfold wellFormedService, wellFormed in Hwf. by apply andb_true_iff in Hwf as [? _]. }
    split_and!.
    + by apply wellFormed_openNewThread.
    + unfold persisted in *.
      destruct (firstEmptyThread (allThreads (state w))) as [k|] eqn:Hempty.
      * by rewrite (openNewThread_switch env w k Hempty).
      * pose proof (openNewThread_create env w Hempty) as H. cbv zeta in H. by rewrite H.
    + unfold inAThread, getCurrentThread.
      destruct (openNewThread_current env w Hu) as (k & th & -> & -> & _). done.
  - intros threadId w (Hwf & Hp & Hin) Hex. split_and!; [done | done |].
    unfold inAThread, getCurrentThread. by cbn.
Qed.

End InvariantTheorem.

(** *** The focused message *)

(** getFocusedMessageIdx, case by case. *)
Lemma getFocusedMessageIdx_cases {T} (w : Service T) :
  getFocusedMessageIdx w =
    (match getCurrentThread w with
     | None => Throw TypeError
     | Some thread =>
         match Thread.state thread with
         | None => Throw TypeError
         | Some threadState =>
             match ThreadState.focusedMessageIdx threadState with
             | None => Ok None
             | Some idx =>
                 match arr_get (Thread.messages thread) idx with
                 | None => Throw TypeError
                 | Some (UserMessage _ _ _ (Some _)) => Ok (Some idx)
                 | Some _ => Ok None
                 end
             end
         end
     end, w).
Proof.
  unfold getFocusedMessageIdx. unfold bind at 1. unfold get at 1. unfold bind at 1.
  destruct (getCurrentThread w) as [thread|]; [|done]. cbn [defined ret].
  unfold bind at 1. destruct (Thread.state thread) as [st|]; [|done]. cbn [defined ret].
  destruct (ThreadState.focusedMessageIdx st) as [idx|]; [|done].
  unfold bind. destruct (arr_get (Thread.messages thread) idx) as [m|]; [|done].
  cbn [defined ret]. by destruct m as [| ? ? ? [?|] | |].
Qed.

Section Focus.
Context {T : ToolSig} (env : Env T).

(** X28. getFocusedMessageIdx never changes the service.  It throws a
    TypeError exactly when there is no current thread, when the current
    thread has no state, or when the focused index is outside the messages
    of the thread; it returns an index exactly when that index is the
    focused one and the message there is a user message that has a state;
    isFocusingMessage throws when it throws and otherwise tells whether it
    returned an index. *)
Theorem getFocusedMessageIdx_spec (w : Service T) :
  let r := getFocusedMessageIdx w in
  r.2 = w ∧
  ((∃ e, r.1 = Throw e) ↔
   r.1 = Throw TypeError ∧
   (getCurrentThread w = None ∨
    ∃ thread, getCurrentThread w = Some thread ∧
      (Thread.state thread = None ∨
       ∃ threadState idx,
         Thread.state thread = Some threadState ∧
         ThreadState.focusedMessageIdx threadState = Some idx ∧
         arr_get (Thread.messages thread) idx = None))) ∧
  (∀ idx,
     r.1 = Ok (Some idx) ↔
     ∃ thread threadState c d sel messageState,
       getCurrentThread w = Some thread ∧
       Thread.state thread = Some threadState ∧
       ThreadState.focusedMessageIdx threadState = Some idx ∧
       arr_get (Thread.messages thread) idx = Some (UserMessage c d sel (Some messageState))) ∧
  isFocusingMessage w =
    (match r.1 with
     | Ok (Some _) => Ok true
     | Ok None => Ok false
     | Throw e => Throw e
     end, w).
Proof.
  intros r.
  assert (Hfocus : isFocusingMessage w =
            (match r.1 with
             | Ok (Some _) => Ok true
             | Ok None => Ok false
             | Throw e => Throw e
             end, w)).
  { unfold isFocusingMessage, bind. subst r. rewrite getFocusedMessageIdx_cases.
    cbn [fst]. destruct (getCurrentThread w) as [thread|]; [|done].
    destruct (Thread.state thread) as [st|]; [|done].
    destruct (ThreadState.focusedMessageIdx st) as [idx|]; [|done].
    destruct (arr_get (Thread.messages thread) idx) as [m|]; [|done].
    by destruct m as [| ? ? ? [?|] | |]. }
  subst r. rewrite getFocusedMessageIdx_cases in *. cbn [fst snd] in *.
  split; [done|]. split_and!; [| | done].
  - destruct (getCurrentThread w) as [thread|] eqn:Hcur.
    2:{ split; [intros _; split; [done | by left] | intros _; by exists TypeError]. }
    destruct (Thread.state thread) as [st|] eqn:Hst.
    2:{ split; [intros _; split; [done|]; right; exists thread; split; [done | by left]
               | intros _; by exists TypeError]. }
    destruct (ThreadState.focusedMessageIdx st) as [idx|] eqn:Hidx.
    2:{ split; [by intros [e ?] | by intros [? _]]. }
    destruct (arr_get (Thread.messages thread) idx) as [m|] eqn:Hm.
    + split; [by intros [e He]; destruct m as [| ? ? ? [?|] | |]
             | by intros [He _]; destruct m as [| ? ? ? [?|] | |]].
    + split; [|intros _; by exists TypeError].
      intros _. split; [done|]. right. exists thread. split; [done|]. right.
      by exists st, idx.
  - intros idx. split.
    + destruct (getCurrentThread w) as [thread|] eqn:Hcur; [|done].
      destruct (Thread.state thread) as [st|] eqn:Hst; [|done].
      destruct (ThreadState.focusedMessageIdx st) as [idx'|] eqn:Hidx; [|done].
      destruct (arr_get (Thread.messages thread) idx') as [m|] eqn:Hm; [|done].
      destruct m as [| c d sel [ms|] | |]; try done.
      intros [= <-]. by exists thread, st, c, d, sel, ms.
    + intros (thread & st & c & d & sel & ms & -> & -> & -> & ->). done.
Qed.

(** X29. The focus across an edit.  When the focused index of the current
    thread is the index of the user message that is edited, then, when
    editUserMessageAndStreamResponse returns, the current thread holds no
    message at that index any more, and getFocusedMessageIdx and
    isFocusingMessage throw a TypeError.  When the re-send that the edit
    leaves pending has run, whatever the response does, the index points at
    the new user message, which has a state: getFocusedMessageIdx returns
    the index and isFocusingMessage returns true. *)
Theorem focus_across_edit (fuel : nat) (userMessage : string) (chatMode : ChatMode.t)
    (messageIdx : Z) (w : Service T) (key : string) (thread : Thread.t T)
    (edited : ChatMessage T) (threadState : ThreadState.t) :
  currentThreadId (state w) = Some key →
  obj_get (allThreads (state w)) key = Some thread →
  Thread.id thread = key →
  arr_get (Thread.messages thread) messageIdx = Some edited →
  isUser (Some edited) = true →
  Thread.state thread = Some threadState →
  ThreadState.focusedMessageIdx threadState = Some messageIdx →
  let kept := take (Z.to_nat messageIdx) (Thread.messages thread) in
  let resend :=
    addUserMessageAndStreamResponse_resume env fuel userMessage chatMode key
      (flat_map selectionsOf kept) (selectionsOf edited) in
  let r := editUserMessageAndStreamResponse env fuel userMessage chatMode messageIdx w in
  let w' := (resend r.2).2 in
  r.1 = Ok resend ∧
  getFocusedMessageIdx r.2 = (Throw TypeError, r.2) ∧
  isFocusingMessage r.2 = (Throw TypeError, r.2) ∧
  getFocusedMessageIdx w' = (Ok (Some messageIdx), w') ∧
  isFocusingMessage w' = (Ok true, w').
Proof.
  intros Hcur Hget Hid Hem Huser Hst Hfocus kept resend r w'.
  assert (Hthread : getCurrentThread w = Some thread).
  { unfold getCurrentThread. by rewrite Hcur. }
  assert (Hu : isUser (arr_get (Thread.messages thread) messageIdx) = true)
    by (by rewrite Hem).
  pose proof (edit_user env fuel userMessage chatMode messageIdx w thread Hthread Hu) as E.
  fold r in E. rewrite Hem in E. cbn [from_option] in E.
  rewrite (slice0_nonneg _ _ (arr_get_Some_nonneg _ _ _ Hem)) in E.
  fold kept in E. rewrite Hid in E. fold resend in E.
  set (truncated := add_effect _ _) in E.
  set (thread' := Thread.with_messages thread kept) in *.
  assert (Hcur' : getCurrentThread truncated = Some thread').
  { unfold getCurrentThread. subst truncated.
    cbn [state currentThreadId allThreads add_effect set_state]. rewrite Hcur.
    apply obj_get_set_eq. }
  assert (Hget' : obj_get (allThreads (state truncated)) (Thread.id thread') = Some thread').
  { subst truncated thread'. cbn [state allThreads add_effect set_state Thread.id
      Thread.with_messages]. rewrite Hid. apply obj_get_set_eq. }
  assert (Hlen : length kept = Z.to_nat messageIdx).
  { subst kept. rewrite length_take. unfold arr_get in Hem.
    destruct (messageIdx <? 0)%Z; [done|]. apply lookup_lt_Some in Hem. lia. }
  assert (Hthrows : getFocusedMessageIdx truncated = (Throw TypeError, truncated)).
  { rewrite getFocusedMessageIdx_cases, Hcur'. subst thread'.
    cbn [Thread.state Thread.messages Thread.with_messages]. rewrite Hst, Hfocus.
    assert (Hat : arr_get kept messageIdx = None).
    { unfold arr_get. destruct (messageIdx <? 0)%Z; [done|].
      apply lookup_ge_None_2. lia. }
    by rewrite Hat. }
  assert (Er : resend truncated
               = addUserMessageAndStreamResponse env fuel userMessage chatMode
                   (Some (mkChatSelections (Some (flat_map selectionsOf kept))
                            (Some (selectionsOf edited)))) truncated).
  { subst resend. rewrite <- (resume_given env fuel userMessage chatMode truncated _ _ _ Hcur').
    subst thread'. cbn [Thread.id Thread.with_messages]. by rewrite Hid. }
  pose proof (addUserMessage_run env fuel userMessage chatMode
                (Some (mkChatSelections (Some (flat_map selectionsOf kept))
                         (Some (selectionsOf edited))))
                truncated thread' Hcur' Hget') as E2.
  cbv zeta in E2. cbn [givenCurrSelns givenPrevSelns currSelns prevSelns default id] in E2.
  rewrite <- Er in E2. specialize (E2 ltac:(done)).
  set (u := userHistoryElt env userMessage (selectionsOf edited)) in *.
  assert (Hid' : Thread.id thread' = key) by done.
  rewrite Hid' in E2.
  set (w2 := afterSetStreamState key _ _) in E2.
  assert (Hget2 : obj_get (allThreads (state w2)) key
                  = Some (Thread.with_messages
                            (Thread.with_lastModified thread'
                               (clock env (clockReads truncated)))
                            (kept ++ [u]))).
  { subst w2. unfold afterSetStreamState, afterAddMessage, threadsWithMessage.
    cbn [state allThreads add_effect set_streamState]. rewrite Hid'.
    apply obj_get_set_eq. }
  assert (Hcur2 : currentThreadId (state w2) = Some key) by done.
  destruct (agentLoop_grows env key fuel
              (fullContent env userMessage (flat_map selectionsOf kept) (selectionsOf edited))
              (toolsOfMode env chatMode) w2 _ Hcur2 Hget2 Hid)
    as (e & w3 & added & E3 & G).
  rewrite E3 in E2. cbn [snd] in E2.
  destruct G as ((th2 & th' & Hg2 & Hg' & _ & _ & Hst' & Hm') & _ & _ & Hc' & _).
  assert (th2 = Thread.with_messages
                  (Thread.with_lastModified thread' (clock env (clockReads truncated)))
                  (kept ++ [u])) as -> by congruence.
  cbn [Thread.state Thread.messages Thread.with_messages Thread.with_lastModified] in Hst', Hm'.
  assert (Hres : getFocusedMessageIdx w3 = (Ok (Some messageIdx), w3)).
  { rewrite getFocusedMessageIdx_cases. unfold getCurrentThread.
    rewrite Hc', Hcur2, Hg', Hst'. subst thread'. cbn [Thread.state Thread.with_messages].
    rewrite Hst, Hfocus.
    assert (Hat : arr_get (Thread.messages th') messageIdx = Some u).
    { rewrite Hm'. unfold arr_get in *.
      destruct (messageIdx <? 0)%Z; [done|].
      rewrite <- app_assoc. rewrite <- Hlen. by apply list_lookup_middle. }
    by rewrite Hat. }
  subst w'. rewrite E. cbn [fst snd]. rewrite E2. cbn [snd].
  split_and!; [done | exact Hthrows | | exact Hres |].
  - unfold isFocusingMessage, bind. by rewrite Hthrows.
  - unfold isFocusingMessage, bind. by rewrite Hres.
Qed.

End Focus.

(** Editing the focused user message of the streaming service. *)
Lemma focus_across_edit_witness :
  let w := add_effect
             (set_state sampleStreaming
                (mkThreadsState
                   [("1001",
                     Thread.mk "1001" 1000 1002
                       [UserMessage (Some "hi") (Some "hi") (Some []) (Some defaultMessageState)]
                       (Some (ThreadState.mk [] (Some 0%Z) ∅)))]
                   (Some "1001")))
             FireDidChangeCurrentThread in
  (getFocusedMessageIdx
     (editUserMessageAndStreamResponse sampleStreamingEnv 5 "again" ChatMode.agent 0 w).2).1
  = Throw TypeError.
Proof.
  intros w.
  destruct (focus_across_edit sampleStreamingEnv 5 "again" ChatMode.agent 0 w "1001"
              (Thread.mk "1001" 1000 1002
                 [UserMessage (Some "hi") (Some "hi") (Some []) (Some defaultMessageState)]
                 (Some (ThreadState.mk [] (Some 0%Z) ∅)))
              (UserMessage (Some "hi") (Some "hi") (Some []) (Some defaultMessageState))
              (ThreadState.mk [] (Some 0%Z) ∅)
              eq_refl eq_refl eq_refl eq_refl eq_refl eq_refl eq_refl) as (_ & H & _).
  by rewrite H.
Defined.

End ChatFacts.
